(** * Poker hand classifier and Monte Carlo tree search

    A shallow embedding of [10_poker_AI_GPT.py] (cards, deck, hand
    classifier, game state, search tree, MCTS) and of the hand classifier of
    [6_poker_holdem_final.py], which also reports the top rank of the hand.

    Python objects that are never mutated after construction (cards, hands,
    game states) are values.  The objects that are mutated and shared (the
    nodes of the search tree, the global random generator) live in a
    [World] that every effectful function threads. *)

From Stdlib Require Import ZArith Lia Reals Lra String.
From stdpp Require Import base list sorting.

Set Default Proof Using "Type".
Set Warnings "-clear-no-such-hyp".

(** ** The Python runtime *)

(** The exceptions the modelled code can raise. *)
Inductive PyError := IndexError | ValueError | ZeroDivisionError.

(** The outcome of running a piece of code: a value or an exception, and
    two outcomes that belong to the model only: a [while] loop that used up
    the iterations the model allows it, and a reference that points outside
    the heap (no Python run has one). *)
Inductive Res (A : Type) : Type :=
| Done (a : A)
| Raise (e : PyError)
| Diverge
| Dangling.
Arguments Done {A} a.
Arguments Raise {A} e.
Arguments Diverge {A}.
Arguments Dangling {A}.

#[global] Instance Res_ret : MRet Res := @Done.
#[global] Instance Res_bind : MBind Res := λ A B f m,
  match m with
  | Done a => f a
  | Raise e => Raise e
  | Diverge => Diverge
  | Dangling => Dangling
  end.
#[global] Instance Res_fmap : FMap Res := λ A B f m, a ← m; mret (f a).

(** [seq[i]] for a non-negative index. *)
Definition py_getitem {A} (l : list A) (i : nat) : Res A :=
  match l !! i with
  | Some x => Done x
  | None => Raise IndexError
  end.

(** [list.pop()]: removes and returns the last item. *)
Definition py_pop {A} (l : list A) : Res (A * list A) :=
  match last l with
  | Some x => Done (x, take (length l - 1) l)
  | None => Raise IndexError
  end.

(** [list.index(x)]: the position of the first occurrence.  Python raises
    [ValueError] when there is none; the position is then [length l] here,
    and the only caller looks up a [Rank], which is always found. *)
Fixpoint py_index {A} `{EqDecision A} (x : A) (l : list A) : nat :=
  match l with
  | [] => 0
  | y :: l' => if decide (y = x) then 0 else S (py_index x l')
  end.

(** [range(a, b)] as a list. *)
Definition py_range (a b : nat) : list nat := seq a (b - a).

(** [min(l)] on integers. *)
Definition py_min (l : list nat) : Res nat :=
  match l with
  | [] => Raise ValueError
  | x :: l' => Done (foldl Nat.min x l')
  end.

(** [sorted(l, key=key, reverse=reverse)]: a stable sort.  [x], which
    stands before every item of the sorted [l] in the input, stays before
    the items it ties with, in either direction. *)
Fixpoint insert_sorted {A} (before : A → A → bool) (x : A) (l : list A) : list A :=
  match l with
  | [] => [x]
  | y :: l' => if before x y then x :: l else y :: insert_sorted before x l'
  end.

Definition sorted {A} (key : A → nat) (reverse : bool) (l : list A) : list A :=
  foldr (insert_sorted (λ x y,
           if reverse then key y <=? key x else key x <=? key y)) [] l.

(** [x in l]. *)
Definition py_in {A} `{EqDecision A} (x : A) (l : list A) : bool :=
  bool_decide (x ∈ l).

(** [l.count(x)]. *)
Definition py_count {A} `{EqDecision A} (x : A) (l : list A) : nat :=
  length (filter (λ y, y = x) l).

(** [set(l)], of which the code only takes the length: the distinct items. *)
Definition py_set {A} `{EqDecision A} (l : list A) : list A := remove_dups l.

(** [collections.Counter(l)]: a dict from item to number of occurrences,
    in order of first occurrence. *)
Fixpoint counter_add {A} `{EqDecision A} (x : A) (d : list (A * nat)) : list (A * nat) :=
  match d with
  | [] => [(x, 1)]
  | (k, n) :: d' => if decide (k = x) then (k, S n) :: d' else (k, n) :: counter_add x d'
  end.

Definition Counter {A} `{EqDecision A} (l : list A) : list (A * nat) :=
  foldl (λ d x, counter_add x d) [] l.

Definition values {A B} (d : list (A * B)) : list B := d.*2.

(** ** Cards *)

Inductive Rank := R2 | R3 | R4 | R5 | R6 | R7 | R8 | R9 | R10 | RJ | RQ | RK | RA.
Inductive Suit := Clubs | Diamonds | Hearts | Spades.

#[global] Instance Rank_eq_dec : EqDecision Rank.
Proof. solve_decision. Defined.
#[global] Instance Suit_eq_dec : EqDecision Suit.
Proof. solve_decision. Defined.

Module Card.
Record t := mk { rank : Rank; suit : Suit }.

Definition ranks : list Rank := [R2; R3; R4; R5; R6; R7; R8; R9; R10; RJ; RQ; RK; RA].
Definition suits : list Suit := [Clubs; Diamonds; Hearts; Spades].

(** [Card.ranks.index(card.rank)] *)
Definition rank_index (c : t) : nat := py_index (rank c) ranks.
End Card.

#[global] Instance Card_eq_dec : EqDecision Card.t.
Proof. solve_decision. Defined.

(** ** Game states and tree nodes (the data) *)

Module PokerGameState.
Record t := mk {
  hand : list Card.t;
  community_cards : list Card.t;
  pot : Z;
  current_bet : Z;
  is_terminal_state : bool
}.

(** [PokerGameState(hand, community_cards, pot, is_terminal=False,
    current_bet=0)] *)
Definition init (hand community_cards : list Card.t) (pot : Z)
    (is_terminal : bool) (current_bet : Z) : t :=
  mk hand community_cards pot current_bet is_terminal.
End PokerGameState.

(** A reference to a [Node] object: its position in the heap. *)
Abbreviation ref := nat (only parsing).

Module NodeData.
Record t := mk {
  state : PokerGameState.t;
  parent : option ref;
  children : list ref;
  wins : Z;
  visits : Z
}.
End NodeData.

(** The mutable part of the Python process: what is left of the values the
    global random generator will produce, and the [Node] objects made so
    far. *)
Record World := mkWorld {
  tape : list nat;
  heap : list NodeData.t
}.

Definition M (A : Type) : Type := World → Res (A * World).

#[global] Instance M_ret : MRet M := λ A a w, Done (a, w).
#[global] Instance M_bind : MBind M := λ A B f m w,
  match m w with
  | Done (a, w') => f a w'
  | Raise e => Raise e
  | Diverge => Diverge
  | Dangling => Dangling
  end.

Definition lift {A} (r : Res A) : M A := λ w,
  match r with
  | Done a => Done (a, w)
  | Raise e => Raise e
  | Diverge => Diverge
  | Dangling => Dangling
  end.

(** ** The [random] module

    [randbelow n] is the generator's primitive: the next value of the tape,
    brought into [0, n).  A run is decided by the tape; a statement for all
    tapes covers every way the random draws can fall. *)
Definition randbelow (n : nat) : M nat := λ w,
  match tape w with
  | [] => Done (0, w)
  | x :: t => Done (x `mod` n, mkWorld t (heap w))
  end.

(** [x[i], x[j] = x[j], x[i]] *)
Definition swap {A} (i j : nat) (x : list A) : list A :=
  match x !! i, x !! j with
  | Some a, Some b => <[j:=a]> (<[i:=b]> x)
  | _, _ => x
  end.

(** [random.shuffle(x)]:
    [for i in reversed(range(1, len(x))): j = randbelow(i + 1); swap] *)
Fixpoint shuffle_from {A} (i : nat) (x : list A) : M (list A) :=
  match i with
  | 0 => mret x
  | S i' => j ← randbelow (S i); shuffle_from i' (swap i j x)
  end.

Definition shuffle {A} (x : list A) : M (list A) :=
  shuffle_from (length x - 1) x.

(** [random.choice(seq)]: [seq[randbelow(len(seq))]], [IndexError] on an
    empty sequence. *)
Definition choice {A} (l : list A) : M A :=
  match l with
  | [] => lift (Raise IndexError)
  | _ => j ← randbelow (length l); lift (py_getitem l j)
  end.

(** ** Deck *)

Module Deck.
Record t := mk { cards : list Card.t }.

(** [[Card(rank, suit) for rank in Card.ranks for suit in Card.suits]] *)
Definition fresh : list Card.t :=
  r ← Card.ranks; s ← Card.suits; [Card.mk r s].

Definition init : M t :=
  cs ← shuffle fresh; mret (mk cs).

(** [draw_card] returns the card and the deck it leaves. *)
Definition draw_card (self : t) : Res (Card.t * t) :=
  '(c, rest) ← py_pop (cards self); mret (c, mk rest).

(** Drawing [n] times, first card first. *)
Fixpoint draw_cards (n : nat) (self : t) : Res (list Card.t * t) :=
  match n with
  | 0 => mret ([], self)
  | S n' =>
      '(c, d) ← draw_card self;
      '(cs, d') ← draw_cards n' d;
      mret (c :: cs, d')
  end.
End Deck.

(** ** Hand classifier *)

Inductive HandCategory :=
| HighCard | OnePair | TwoPair | ThreeOfAKind | Straight
| Flush | FullHouse | FourOfAKind | StraightFlush.

#[global] Instance HandCategory_eq_dec : EqDecision HandCategory.
Proof. solve_decision. Defined.

(** The predicates that both files spell the same way; [cards] is
    [self.cards]. *)
Module Hand.
Definition rank_counts (cards : list Card.t) : list (Rank * nat) :=
  Counter (Card.rank <$> cards).

Definition is_four_of_a_kind (cards : list Card.t) : bool :=
  py_in 4 (values (rank_counts cards)).

Definition is_full_house (cards : list Card.t) : bool :=
  py_in 3 (values (rank_counts cards)) && py_in 2 (values (rank_counts cards)).

Definition is_flush (cards : list Card.t) : bool :=
  bool_decide (length (py_set (Card.suit <$> cards)) = 1).

Definition is_three_of_a_kind (cards : list Card.t) : bool :=
  py_in 3 (values (rank_counts cards)).

Definition is_two_pair (cards : list Card.t) : bool :=
  bool_decide (py_count 2 (values (rank_counts cards)) = 2).

Definition is_one_pair (cards : list Card.t) : bool :=
  py_in 2 (values (rank_counts cards)).
End Hand.

(** [PokerHand] of [10_poker_AI_GPT.py]: [rank] is the category alone. *)
Module PokerHand.
Import Hand.
Record t := mk { cards : list Card.t; rank : HandCategory }.

Definition is_straight (cards : list Card.t) : Res bool :=
  let indices := sorted (λ i, i) false (Card.rank_index <$> cards) in
  lo ← py_min indices;
  hi ← py_min indices;
  mret (bool_decide (indices = py_range lo (hi + 5))
        || bool_decide (indices = [0; 1; 2; 3; 12])).

Definition is_straight_flush (cards : list Card.t) : Res bool :=
  s ← is_straight cards;
  mret (s && is_flush cards).

Definition evaluate_hand (cards : list Card.t) : Res HandCategory :=
  sf ← is_straight_flush cards;
  if (sf : bool) then mret StraightFlush
  else if is_four_of_a_kind cards then mret FourOfAKind
  else if is_full_house cards then mret FullHouse
  else if is_flush cards then mret Flush
  else
    s ← is_straight cards;
    if (s : bool) then mret Straight
    else if is_three_of_a_kind cards then mret ThreeOfAKind
    else if is_two_pair cards then mret TwoPair
    else if is_one_pair cards then mret OnePair
    else mret HighCard.

(** [PokerHand(cards)] *)
Definition init (cards : list Card.t) : Res t :=
  let cards := sorted Card.rank_index true cards in
  r ← evaluate_hand cards;
  mret (mk cards r).

(** [PokerHand(cards).rank] *)
Definition evaluate (cards : list Card.t) : Res HandCategory :=
  rank <$> init cards.
End PokerHand.

(** [PokerHand] of [6_poker_holdem_final.py]: [rank] is the category and
    the rank of the first card of the sorted hand. *)
Module PokerHand6.
Import Hand.
Record t := mk { cards : list Card.t; rank : HandCategory * Rank }.

Definition is_straight (cards : list Card.t) : Res bool :=
  let ranks := sorted (λ i, i) false (Card.rank_index <$> cards) in
  lo ← py_getitem ranks 0;
  hi ← py_getitem ranks 0;
  if bool_decide (ranks = py_range lo (hi + 5)) then mret true
  else if bool_decide (ranks = [0; 1; 2; 3; 12]) then mret true
  else mret false.

Definition is_straight_flush (cards : list Card.t) : Res bool :=
  s ← is_straight cards;
  mret (s && is_flush cards).

(** [(name, self.cards[0].rank)] *)
Definition ranked (name : HandCategory) (cards : list Card.t) : Res (HandCategory * Rank) :=
  c ← py_getitem cards 0;
  mret (name, Card.rank c).

Definition evaluate_hand (cards : list Card.t) : Res (HandCategory * Rank) :=
  sf ← is_straight_flush cards;
  if (sf : bool) then ranked StraightFlush cards
  else if is_four_of_a_kind cards then ranked FourOfAKind cards
  else if is_full_house cards then ranked FullHouse cards
  else if is_flush cards then ranked Flush cards
  else
    s ← is_straight cards;
    if (s : bool) then ranked Straight cards
    else if is_three_of_a_kind cards then ranked ThreeOfAKind cards
    else if is_two_pair cards then ranked TwoPair cards
    else if is_one_pair cards then ranked OnePair cards
    else ranked HighCard cards.

Definition init (cards : list Card.t) : Res t :=
  let cards := sorted Card.rank_index true cards in
  r ← evaluate_hand cards;
  mret (mk cards r).

Definition evaluate (cards : list Card.t) : Res (HandCategory * Rank) :=
  rank <$> init cards.
End PokerHand6.

(** ** Game state (the methods) *)

Module GameState.
Import PokerGameState.

(** [[Deck().draw_card() for _ in range(n)]]: a new deck for every card. *)
Fixpoint new_cards (n : nat) : M (list Card.t) :=
  match n with
  | 0 => mret []
  | S n' =>
      d ← Deck.init;
      '(c, _) ← lift (Deck.draw_card d);
      cs ← new_cards n';
      mret (c :: cs)
  end.

Definition raise_amounts : list Z := [10; 20; 50]%Z.

Definition legal_moves (self : t) : M (list t) :=
  let moves := [init (hand self) (community_cards self) (pot self) true 0] in
  if bool_decide (length (community_cards self) < 5) then
    cs ← new_cards (5 - length (community_cards self));
    let moves := moves ++
      [init (hand self) (community_cards self ++ cs)
         (pot self + current_bet self) false 0] in
    let moves := foldl (λ moves raise_amount, moves ++
      [init (hand self) (community_cards self ++ cs)
         (pot self + current_bet self + raise_amount) false 0])
      moves raise_amounts in
    mret moves
  else
    mret (moves ++
      [init (hand self) (community_cards self)
         (pot self + current_bet self) true 0]).

Definition is_terminal (self : t) : bool :=
  is_terminal_state self || bool_decide (length (community_cards self) = 5).

Definition winning_hands : list HandCategory :=
  [StraightFlush; FourOfAKind; FullHouse; Flush].

Definition game_result (self : t) : Res Z :=
  ph ← PokerHand.init (hand self ++ community_cards self);
  if py_in (PokerHand.rank ph) winning_hands then mret 1%Z else mret (-1)%Z.
End GameState.

(** ** Floats

    What the search needs of Python's floats.  The results hold for every
    instance; those on the ranking of children use three laws of the
    comparison and the logarithm ([FloatLaws]) that IEEE doubles have.
    Integers reach a float through [of_int], which is what Python does
    with counts up to 2^53. *)
Class PyFloat := {
  float : Type;
  of_int : Z → float;
  fadd : float → float → float;
  fmul : float → float → float;
  fdiv : float → float → float;
  fsqrt : float → float;
  flog : float → float;
  (** [x > y] *)
  fgt : float → float → bool;
  (** the literal [1.41] *)
  lit_1_41 : float
}.

Section floats.
Context `{PyFloat}.

(** [a / b] on two [int]s *)
Definition int_truediv (a b : Z) : Res float :=
  if decide (b = 0%Z) then Raise ZeroDivisionError
  else mret (fdiv (of_int a) (of_int b)).

(** [x / b] on a [float] and an [int] *)
Definition float_truediv (x : float) (b : Z) : Res float :=
  if decide (b = 0%Z) then Raise ZeroDivisionError
  else mret (fdiv x (of_int b)).

(** [math.log(n)] on an [int] *)
Definition math_log (n : Z) : Res float :=
  if decide (n ≤ 0)%Z then Raise ValueError else mret (flog (of_int n)).

(** [math.sqrt(x)] *)
Definition math_sqrt (x : float) : Res float :=
  if fgt (of_int 0) x then Raise ValueError else mret (fsqrt x).

(** [max(l, key=key)]: the keys are computed once each, in order, and an
    item replaces the best so far when its key is greater. *)
Fixpoint max_loop {A} (key : A → Res float) (l : list A) (best : A) (kbest : float) : Res A :=
  match l with
  | [] => mret best
  | y :: l' =>
      ky ← key y;
      if fgt ky kbest then max_loop key l' y ky else max_loop key l' best kbest
  end.

Definition py_max {A} (key : A → Res float) (l : list A) : Res A :=
  match l with
  | [] => Raise ValueError
  | x :: l' => kx ← key x; max_loop key l' x kx
  end.
End floats.

(** ** Search tree *)

Module Node.
Import NodeData.

(** Reading the object behind a reference. *)
Definition deref (h : list NodeData.t) (r : ref) : Res NodeData.t :=
  match h !! r with
  | Some n => Done n
  | None => Dangling
  end.

Definition get (r : ref) : M NodeData.t := λ w,
  n ← deref (heap w) r; mret (n, w).

(** Writing it back. *)
Definition put (r : ref) (n : NodeData.t) : M unit := λ w,
  Done (tt, mkWorld (tape w) (<[r:=n]> (heap w))).

(** [Node(state, parent)] *)
Definition init (state : PokerGameState.t) (parent : option ref) : M ref := λ w,
  Done (length (heap w),
        mkWorld (tape w) (heap w ++ [mk state parent [] 0 0])).

Definition add_child (self : ref) (child_state : PokerGameState.t) : M ref :=
  child ← init child_state (Some self);
  n ← get self;
  _ ← put self (mk (state n) (parent n) (children n ++ [child]) (wins n) (visits n));
  mret child.

Definition update (self : ref) (result : Z) : M unit :=
  n ← get self;
  _ ← put self (mk (state n) (parent n) (children n) (wins n) (visits n + 1));
  n ← get self;
  put self (mk (state n) (parent n) (children n) (wins n + result) (visits n)).

Definition fully_expanded (self : ref) : M bool :=
  n ← get self;
  moves ← GameState.legal_moves (state n);
  mret (bool_decide (length (children n) = length moves)).

Section best_child.
Context `{PyFloat}.

(** [x.wins / x.visits] *)
Definition exploitation (h : list NodeData.t) (x : ref) : Res float :=
  n ← deref h x;
  int_truediv (wins n) (visits n).

(** [x.wins / x.visits + exploration_weight *
     math.sqrt(math.log(self.parent.visits) / x.visits)] *)
Definition ucb1 (h : list NodeData.t) (exploration_weight : float)
    (self_parent : ref) (x : ref) : Res float :=
  n ← deref h x;
  a ← int_truediv (wins n) (visits n);
  p ← deref h self_parent;
  l ← math_log (visits p);
  n ← deref h x;
  q ← float_truediv l (visits n);
  s ← math_sqrt q;
  mret (fadd a (fmul exploration_weight s)).

Definition best_child_with (exploration_weight : float) (self : ref) : M ref := λ w,
  n ← deref (heap w) self;
  best ← match parent n with
         | None => py_max (exploitation (heap w)) (children n)
         | Some p => py_max (ucb1 (heap w) exploration_weight p) (children n)
         end;
  mret (best, w).

(** [best_child()], with the default [exploration_weight=1.41] *)
Definition best_child (self : ref) : M ref := best_child_with lit_1_41 self.
End best_child.
End Node.

(** ** The search *)

Module MCTS.
Section search.
Context `{PyFloat}.
(** How many iterations each [while] loop is allowed. *)
Variable fuel : nat.

(** The rollout loop; also counts the moves it makes. *)
Fixpoint rollout (n : nat) (current_state : PokerGameState.t) (moves_made : nat)
    : M (PokerGameState.t * nat) :=
  match n with
  | 0 => λ _, Diverge
  | S n' =>
      if negb (GameState.is_terminal current_state) then
        possible_moves ← GameState.legal_moves current_state;
        current_state ← choice possible_moves;
        rollout n' current_state (S moves_made)
      else mret (current_state, moves_made)
  end.

Definition simulate_random_game (state : PokerGameState.t) : M Z :=
  '(current_state, _) ← rollout fuel state 0;
  lift (GameState.game_result current_state).

(** Selection:
    [while node.fully_expanded() and not node.state.is_terminal():
       node = node.best_child()] *)
Fixpoint select (n : nat) (node : ref) : M ref :=
  match n with
  | 0 => λ _, Diverge
  | S n' =>
      fe ← Node.fully_expanded node;
      if (fe : bool) then
        nd ← Node.get node;
        if negb (GameState.is_terminal (NodeData.state nd)) then
          node ← Node.best_child node;
          select n' node
        else mret node
      else mret node
  end.

(** Expansion.  [PokerGameState] defines neither [__eq__] nor
    [__hash__], so the set difference is by object identity: the moves
    just built are all new objects and all stay.  A set is iterated in
    no specified order; the pick is an item of [legal_moves()] at a
    position the generator decides. *)
Definition expand (node : ref) : M ref :=
  fe ← Node.fully_expanded node;
  if negb (fe : bool) then
    nd ← Node.get node;
    moves ← GameState.legal_moves (NodeData.state nd);
    new_state ← choice moves;
    Node.add_child node new_state
  else mret node.

(** Backpropagation:
    [while node is not None: node.update(outcome); node = node.parent] *)
Fixpoint backpropagate (n : nat) (node : option ref) (outcome : Z) : M unit :=
  match n with
  | 0 => λ _, Diverge
  | S n' =>
      match node with
      | Some r =>
          _ ← Node.update r outcome;
          nd ← Node.get r;
          backpropagate n' (NodeData.parent nd) outcome
      | None => mret tt
      end
  end.

(** One pass of the [for] loop. *)
Definition simulation (root : ref) : M unit :=
  node ← select fuel root;
  node ← expand node;
  nd ← Node.get node;
  outcome ← simulate_random_game (NodeData.state nd);
  backpropagate fuel (Some node) outcome.

Fixpoint simulations (n : nat) (root : ref) : M unit :=
  match n with
  | 0 => mret tt
  | S n' => _ ← simulation root; simulations n' root
  end.

Definition choose_move (state : PokerGameState.t) : M PokerGameState.t :=
  root ← Node.init state None;
  _ ← simulations 1000 root;
  best ← Node.best_child root;
  nd ← Node.get best;
  mret (NodeData.state nd).
End search.
End MCTS.

(** What the properties of [best_child] ask of the floats; IEEE 754
    doubles have all three, NaN included.  [>] is irreflexive and
    transitive, and the logarithm of an integer from 1 on, divided by an
    integer from 1 on, is not below zero (both within 2^53, where the
    conversion of an [int] is exact). *)
Record FloatLaws (F : PyFloat) : Prop := {
  gt_irrefl : ∀ x : @float F, fgt x x = false;
  gt_trans : ∀ x y z : @float F, fgt x y = true → fgt y z = true → fgt x z = true;
  log_ratio_nonneg : ∀ a b : Z,
    (1 ≤ a ≤ 2 ^ 53)%Z → (1 ≤ b ≤ 2 ^ 53)%Z →
    @fgt F (of_int 0) (fdiv (flog (of_int a)) (of_int b)) = false
}.

(** The two scores of a child as [best_child] computes them, in floats:
    [x.wins / x.visits], and that plus the exploration term with the
    visit count [total] under the logarithm. *)
Definition float_exploitation `{PyFloat} (c : NodeData.t) : float :=
  fdiv (of_int (NodeData.wins c)) (of_int (NodeData.visits c)).

Definition float_ucb1 `{PyFloat} (total : Z) (c : NodeData.t) : float :=
  fadd (fdiv (of_int (NodeData.wins c)) (of_int (NodeData.visits c)))
       (fmul lit_1_41
          (fsqrt (fdiv (flog (of_int total)) (of_int (NodeData.visits c))))).

(** One structure that has these operations: the real numbers, with
    exact arithmetic.  Python computes in doubles, not in this structure;
    it is the instance at which the properties proved for every
    [PyFloat] are applied, and the one in which the sample tree of C5 is
    evaluated, where the scores are far further apart than any rounding
    error. *)
Definition RealFloat : PyFloat := {|
  float := R;
  of_int := IZR;
  fadd := Rplus;
  fmul := Rmult;
  fdiv := Rdiv;
  fsqrt := sqrt;
  flog := ln;
  fgt := λ x y, if Rgt_dec x y then true else false;
  lit_1_41 := (141 / 100)%R
|}.

(** Floats that round.  [fin] picks the finite floats and [val] gives the
    real number one stands for.  An operation on finite floats whose
    exact result is 0 or of a magnitude between a millionth and a million
    gives a finite float within a thousandth of that result; integers up
    to 2^53 convert exactly; and [>] on finite floats is [>] on what they
    stand for.  IEEE 754 doubles with a [log] and a [sqrt] good to a few
    units in the last place round far closer than this. *)
Definition close_to (v r : R) : Prop := (Rabs (v - r) <= Rabs r / 1000)%R.

Definition in_range (r : R) : Prop :=
  (r = 0 ∨ 1 / 1000000 <= Rabs r <= 1000000)%R.

Record Rounds (F : PyFloat) (fin : @float F → Prop) (val : @float F → R) : Prop := {
  rounds_int : ∀ z : Z,
    (Z.abs z ≤ 2 ^ 53)%Z → fin (of_int z) ∧ val (of_int z) = IZR z;
  rounds_weight : fin lit_1_41 ∧ close_to (val lit_1_41) (141 / 100);
  rounds_add : ∀ x y, fin x → fin y → in_range (val x + val y) →
    fin (fadd x y) ∧ close_to (val (fadd x y)) (val x + val y);
  rounds_mul : ∀ x y, fin x → fin y → in_range (val x * val y) →
    fin (fmul x y) ∧ close_to (val (fmul x y)) (val x * val y);
  rounds_div : ∀ x y, fin x → fin y → val y ≠ 0%R → in_range (val x / val y) →
    fin (fdiv x y) ∧ close_to (val (fdiv x y)) (val x / val y);
  rounds_sqrt : ∀ x, fin x → (0 <= val x)%R → in_range (sqrt (val x)) →
    fin (fsqrt x) ∧ close_to (val (fsqrt x)) (sqrt (val x));
  rounds_log : ∀ x, fin x → (0 < val x)%R → in_range (ln (val x)) →
    fin (flog x) ∧ close_to (val (flog x)) (ln (val x));
  rounds_gt : ∀ x y, fin x → fin y → (fgt x y = true ↔ (val x > val y)%R)
}.

(** The two scores of a child as the specification writes them, as real
    numbers: [wins/visits], and UCB1 with the visit count [total] under
    the logarithm. *)
Definition exploitation_score (c : NodeData.t) : R :=
  (IZR (NodeData.wins c) / IZR (NodeData.visits c))%R.

Definition ucb1_score (total : Z) (c : NodeData.t) : R :=
  (IZR (NodeData.wins c) / IZR (NodeData.visits c)
   + 141 / 100 * sqrt (ln (IZR total) / IZR (NodeData.visits c)))%R.

(** ** The shape of the search tree

    What holds of the nodes from [root] on between two simulations:
    every node holds the hand of the root state; the root has no parent;
    every other node has an earlier parent, a terminal state and, unless it
    is the node [pending] (just made, not yet backpropagated), one visit or
    more; children come later in the heap than their parent. *)
Definition node_ok (root : ref) (hand0 : list Card.t) (size : nat)
    (pending : option ref) (i : ref) (n : NodeData.t) : Prop :=
  PokerGameState.hand (NodeData.state n) = hand0
  ∧ (0 ≤ NodeData.visits n)%Z
  ∧ (∀ c, c ∈ NodeData.children n → i < c < size)
  ∧ (i = root → NodeData.parent n = None)
  ∧ (i ≠ root →
       (∃ p, NodeData.parent n = Some p ∧ root ≤ p < i)
       ∧ GameState.is_terminal (NodeData.state n) = true
       ∧ (pending ≠ Some i → (1 ≤ NodeData.visits n)%Z)).

Definition tree_inv (root : ref) (hand0 : list Card.t) (h : list NodeData.t)
    (pending : option ref) : Prop :=
  root < length h
  ∧ ∀ i n, root ≤ i → h !! i = Some n → node_ok root hand0 (length h) pending i n.

Definition root_has_child (root : ref) (h : list NodeData.t) : Prop :=
  ∃ n, h !! root = Some n ∧ NodeData.children n ≠ [].

(** ** Sample inputs *)

Module Sample.
(** Hole cards A♠ K♠ and community cards Q♠ J♠ 10♠. *)
Definition hole_cards : list Card.t := [Card.mk RA Spades; Card.mk RK Spades].
Definition community : list Card.t :=
  [Card.mk RQ Spades; Card.mk RJ Spades; Card.mk R10 Spades].

(** A wheel in mixed suits. *)
Definition wheel : list Card.t :=
  [Card.mk R3 Hearts; Card.mk RA Clubs; Card.mk R5 Spades;
   Card.mk R2 Clubs; Card.mk R4 Diamonds].

(** Four cards: two pairs. *)
Definition four_cards : list Card.t :=
  [Card.mk R2 Clubs; Card.mk R2 Diamonds; Card.mk R3 Hearts; Card.mk R3 Spades].

(** Eight cards, no two of a rank. *)
Definition eight_cards : list Card.t :=
  [Card.mk R2 Clubs; Card.mk R4 Diamonds; Card.mk R6 Hearts; Card.mk R8 Spades;
   Card.mk R10 Clubs; Card.mk RQ Diamonds; Card.mk RA Hearts; Card.mk R3 Spades].

(** A search tree of four nodes: node 0, visited 27 times, is the parent
    of node 1, visited 6 times, whose children are node 2 (4 wins in 4
    visits) and node 3 (no win in 1 visit). *)
Definition state0 : PokerGameState.t :=
  PokerGameState.init hole_cards community 100 false 10.
Definition node0 : NodeData.t := NodeData.mk state0 None [1] 4 27.
Definition node1 : NodeData.t := NodeData.mk state0 (Some 0) [2; 3] 4 6.
Definition node2 : NodeData.t := NodeData.mk state0 (Some 1) [] 4 4.
Definition node3 : NodeData.t := NodeData.mk state0 (Some 1) [] 0 1.
Definition tree : list NodeData.t := [node0; node1; node2; node3].

(** A decision point on the flop. *)
Definition flop : PokerGameState.t :=
  PokerGameState.init hole_cards community 100 false 10.

(** The showdown that [flop] leads to when 9♥ and 2♣ come. *)
Definition showdown : PokerGameState.t :=
  PokerGameState.init hole_cards
    (community ++ [Card.mk R9 Hearts; Card.mk R2 Clubs]) 110 false 0.
End Sample.

(** ** Showdown

    [evaluate_hand] returns the category as a string; these are the
    strings. *)
Definition category_name (c : HandCategory) : string :=
  match c with
  | StraightFlush => "Straight Flush"
  | FourOfAKind => "Four of a Kind"
  | FullHouse => "Full House"
  | Flush => "Flush"
  | Straight => "Straight"
  | ThreeOfAKind => "Three of a Kind"
  | TwoPair => "Two Pair"
  | OnePair => "One Pair"
  | HighCard => "High Card"
  end%string.

(** [a > b] on two [str]: the order of the code points, the first
    difference deciding. *)
Definition str_gt (a b : string) : bool := String.ltb b a.

(** [determine_winner] of [10_poker_AI_GPT.py]: it compares the two
    category strings. *)
Definition determine_winner (player_hand ai_hand community_cards : list Card.t)
    : Res string :=
  player_poker_hand ← PokerHand.init (player_hand ++ community_cards);
  ai_poker_hand ← PokerHand.init (ai_hand ++ community_cards);
  player_rank ← PokerHand.evaluate_hand (PokerHand.cards player_poker_hand);
  ai_rank ← PokerHand.evaluate_hand (PokerHand.cards ai_poker_hand);
  if str_gt (category_name player_rank) (category_name ai_rank)
  then mret "Player wins!"%string
  else if str_gt (category_name ai_rank) (category_name player_rank)
  then mret "AI wins!"%string
  else mret "It's a tie!"%string.

(** ** The two-player game of [6_poker_holdem_final.py]

    Its code can also raise [KeyError] and, reading input, [EOFError]. *)
Inductive Exception := Builtin (e : PyError) | KeyError | EOFError.

(** [NoOutcome] stands for the two outcomes of [Res] that no Python run
    has. *)
Inductive Outcome (A : Type) : Type :=
| Returns (a : A)
| Raises (e : Exception)
| NoOutcome.
Arguments Returns {A} a.
Arguments Raises {A} e.
Arguments NoOutcome {A}.

#[global] Instance Outcome_ret : MRet Outcome := @Returns.
#[global] Instance Outcome_bind : MBind Outcome := λ A B f m,
  match m with
  | Returns a => f a
  | Raises e => Raises e
  | NoOutcome => NoOutcome
  end.

Definition of_res {A} (r : Res A) : Outcome A :=
  match r with
  | Done a => Returns a
  | Raise e => Raises (Builtin e)
  | Diverge | Dangling => NoOutcome
  end.

(** A [dict] with [int] keys, in insertion order: [d[k]] and [d[k] = v]. *)
Fixpoint dict_get {V} (k : Z) (d : list (Z * V)) : Outcome V :=
  match d with
  | [] => Raises KeyError
  | (k', v) :: d' => if decide (k' = k) then Returns v else dict_get k d'
  end.

Fixpoint dict_set {V} (k : Z) (v : V) (d : list (Z * V)) : list (Z * V) :=
  match d with
  | [] => [(k, v)]
  | (k', v') :: d' =>
      if decide (k' = k) then (k, v) :: d' else (k', v') :: dict_set k v d'
  end.

(** [max(l)] on a list of [int]. *)
Definition max_ints (l : list Z) : Outcome Z :=
  match l with
  | [] => Raises (Builtin ValueError)
  | x :: l' => Returns (foldl Z.max x l')
  end.

(** A line of standard input, by what the code makes of it: the text of
    [line.lower()], and the value of [int(line)] when it has one. *)
Record Line := mkLine { lowered : string; number : option Z }.

(** What [determine_winner] returns: [1], [2], or a message. *)
Inductive Verdict := Player (n : Z) | Message (s : string).

Module PokerGame.
Record t := mk {
  deck : Deck.t;
  pot : Z;
  community_cards : list Card.t;
  player_hands : list (Z * list Card.t);
  player_bets : list (Z * Z);
  current_player : Z;
  blinds : Z * Z
}.

(** [PokerGame()] *)
Definition init : M t :=
  d ← Deck.init;
  mret (mk d 0 [] [(1, []); (2, [])]%Z [(1, 0); (2, 0)]%Z 1 (10, 20)%Z).

(** [self.deck.draw_card()] *)
Definition draw (g : t) : Outcome (Card.t * t) :=
  '(c, d) ← of_res (Deck.draw_card (deck g));
  mret (c, mk d (pot g) (community_cards g) (player_hands g) (player_bets g)
              (current_player g) (blinds g)).

Definition start_new_round (g : t) : Outcome t :=
  let g := mk (deck g) (pot g) [] (player_hands g) (player_bets g)
              (current_player g) (blinds g) in
  '(c1, g) ← draw g;
  '(c2, g) ← draw g;
  let g := mk (deck g) (pot g) (community_cards g)
              (dict_set 1 [c1; c2] (player_hands g)) (player_bets g)
              (current_player g) (blinds g) in
  '(c3, g) ← draw g;
  '(c4, g) ← draw g;
  let g := mk (deck g) (pot g) (community_cards g)
              (dict_set 2 [c3; c4] (player_hands g)) (player_bets g)
              (current_player g) (blinds g) in
  mret (mk (deck g) ((blinds g).1 + (blinds g).2) (community_cards g)
           (player_hands g) [(1, (blinds g).1); (2, (blinds g).2)]%Z 1 (blinds g)).

Definition handle_call (g : t) : Outcome t :=
  highest ← max_ints (values (player_bets g));
  mine ← dict_get (current_player g) (player_bets g);
  let bet_amount := (highest - mine)%Z in
  let g := mk (deck g) (pot g + bet_amount) (community_cards g) (player_hands g)
              (player_bets g) (current_player g) (blinds g) in
  mine ← dict_get (current_player g) (player_bets g);
  mret (mk (deck g) (pot g) (community_cards g) (player_hands g)
           (dict_set (current_player g) (mine + bet_amount)%Z (player_bets g))
           (current_player g) (blinds g)).

Definition handle_raise (amount : Z) (g : t) : Outcome t :=
  let g := mk (deck g) (pot g + amount) (community_cards g) (player_hands g)
              (player_bets g) (current_player g) (blinds g) in
  mine ← dict_get (current_player g) (player_bets g);
  mret (mk (deck g) (pot g) (community_cards g) (player_hands g)
           (dict_set (current_player g) (mine + amount)%Z (player_bets g))
           (current_player g) (blinds g)).

Definition handle_fold (g : t) : t :=
  mk (deck g) 0 (community_cards g) (player_hands g) (player_bets g)
     (current_player g) (blinds g).

Fixpoint deal_community_cards (number : nat) (g : t) : Outcome t :=
  match number with
  | 0 => mret g
  | S number' =>
      '(c, g) ← draw g;
      deal_community_cards number'
        (mk (deck g) (pot g) (community_cards g ++ [c]) (player_hands g)
            (player_bets g) (current_player g) (blinds g))
  end.

(** [display_game_state] prints the table.  Of what it reads, the two
    hands are looked up under their keys, which can fail. *)
Definition display_game_state (g : t) : Outcome unit :=
  _ ← dict_get 1 (player_hands g);
  _ ← dict_get 2 (player_hands g);
  mret tt.

(** The end of a pass of the loop of [betting_round]: [None] for [break]. *)
Definition next_turn (g : t) : Outcome (option t) :=
  b1 ← dict_get 1 (player_bets g);
  b2 ← dict_get 2 (player_bets g);
  if decide (b1 = b2) then mret None
  else mret (Some (mk (deck g) (pot g) (community_cards g) (player_hands g)
                      (player_bets g) (3 - current_player g) (blinds g))).

(** [betting_round], reading the lines of [input]; it returns the game and
    the lines left. *)
Fixpoint betting_round (input : list Line) (g : t) : Outcome (t * list Line) :=
  _ ← display_game_state g;
  match input with
  | [] => Raises EOFError
  | action :: input =>
      if String.eqb (lowered action) "call" then
        g ← handle_call g;
        turn ← next_turn g;
        match turn with
        | None => mret (g, input)
        | Some g => betting_round input g
        end
      else if String.eqb (lowered action) "raise" then
        match input with
        | [] => Raises EOFError
        | amount :: input =>
            match number amount with
            | None => Raises (Builtin ValueError)
            | Some raise_amount =>
                g ← handle_raise raise_amount g;
                turn ← next_turn g;
                match turn with
                | None => mret (g, input)
                | Some g => betting_round input g
                end
            end
        end
      else if String.eqb (lowered action) "fold" then
        mret (handle_fold g, input)
      else
        turn ← next_turn g;
        match turn with
        | None => mret (g, input)
        | Some g => betting_round input g
        end
  end.

Definition hand_strength : list (string * Z) :=
  [("Straight Flush", 8); ("Four of a Kind", 7); ("Full House", 6);
   ("Flush", 5); ("Straight", 4); ("Three of a Kind", 3);
   ("Two Pair", 2); ("One Pair", 1); ("High Card", 0)]%string%Z.

(** [hand_strength[name]] *)
Fixpoint strength_of (name : string) (d : list (string * Z)) : Outcome Z :=
  match d with
  | [] => Raises KeyError
  | (k, v) :: d' => if String.eqb k name then Returns v else strength_of name d'
  end.

Definition determine_winner (g : t) (player1_hand player2_hand : list Card.t)
    : Outcome Verdict :=
  p1 ← of_res (PokerHand6.init (player1_hand ++ community_cards g));
  p2 ← of_res (PokerHand6.init (player2_hand ++ community_cards g));
  let p1_hand_rank := PokerHand6.rank p1 in
  let p2_hand_rank := PokerHand6.rank p2 in
  s1 ← strength_of (category_name p1_hand_rank.1) hand_strength;
  s2 ← strength_of (category_name p2_hand_rank.1) hand_strength;
  if bool_decide (s1 > s2)%Z then mret (Player 1)
  else
    s2 ← strength_of (category_name p2_hand_rank.1) hand_strength;
    s1 ← strength_of (category_name p1_hand_rank.1) hand_strength;
    if bool_decide (s2 > s1)%Z then mret (Player 2)
    else mret (Message "It's a tie! Pot is split.").

(** [play], which prints the verdict: here it returns it, with the game
    and the lines left. *)
Definition play (input : list Line) (g : t) : Outcome (Verdict * t * list Line) :=
  g ← start_new_round g;
  '(g, input) ← betting_round input g;
  g ← deal_community_cards 3 g;
  '(g, input) ← betting_round input g;
  g ← deal_community_cards 1 g;
  '(g, input) ← betting_round input g;
  g ← deal_community_cards 1 g;
  '(g, input) ← betting_round input g;
  h1 ← dict_get 1 (player_hands g);
  h2 ← dict_get 2 (player_hands g);
  winner ← determine_winner g h1 h2;
  mret (winner, g, input).

(** [run_game]: rounds are played while the answer is [yes]; it returns
    the game, the lines left and the number of rounds played.  [n] bounds
    the number of rounds the model follows. *)
Fixpoint run_game (n : nat) (input : list Line) (g : t) (played : nat)
    : Outcome (t * list Line * nat) :=
  match n with
  | 0 => NoOutcome
  | S n' =>
      '(_, g, input) ← play input g;
      match input with
      | [] => Raises EOFError
      | answer :: input =>
          if negb (String.eqb (lowered answer) "yes")
          then mret (g, input, S played)
          else run_game n' input g (S played)
      end
  end.
End PokerGame.

(** The table between two betting actions: the two bets under the keys 1
    and 2, one of the two players to act, and a pot that is the sum of the
    bets. *)
Definition table_ok (g : PokerGame.t) : Prop :=
  ∃ b1 b2 : Z,
    PokerGame.player_bets g = [(1, b1); (2, b2)]%Z
    ∧ (PokerGame.current_player g = 1 ∨ PokerGame.current_player g = 2)%Z
    ∧ PokerGame.pot g = (b1 + b2)%Z.

(** The parts of this: the bets and the player to act; what the pot holds
    beyond the bets; and what no betting action touches. *)
Definition seated (g : PokerGame.t) : Prop :=
  ∃ b1 b2 : Z,
    PokerGame.player_bets g = [(1, b1); (2, b2)]%Z
    ∧ (PokerGame.current_player g = 1 ∨ PokerGame.current_player g = 2)%Z.

Definition surplus (g : PokerGame.t) : Z :=
  (PokerGame.pot g - foldr Z.add 0 (values (PokerGame.player_bets g)))%Z.

Definition same_deal (g g' : PokerGame.t) : Prop :=
  PokerGame.deck g' = PokerGame.deck g
  ∧ PokerGame.community_cards g' = PokerGame.community_cards g
  ∧ PokerGame.player_hands g' = PokerGame.player_hands g
  ∧ PokerGame.blinds g' = PokerGame.blinds g.

Definition bets_equal (g : PokerGame.t) : Prop :=
  ∃ b : Z, PokerGame.player_bets g = [(1, b); (2, b)]%Z.


(** Both players have a hand under their key, as from [PokerGame()] on. *)
Definition dealt (g : PokerGame.t) : Prop :=
  ∃ h1 h2 : list Card.t,
    dict_get 1 (PokerGame.player_hands g) = Returns h1
    ∧ dict_get 2 (PokerGame.player_hands g) = Returns h2.

(** The statistics of the tree from [root] on: the root has [k] visits,
    and the wins of a node lie between minus its visits and its visits. *)
Definition tally_ok (root : ref) (h : list NodeData.t) (k : Z) : Prop :=
  (∃ n, h !! root = Some n ∧ NodeData.visits n = k)
  ∧ ∀ i n, root ≤ i → h !! i = Some n →
      (- NodeData.visits n ≤ NodeData.wins n ≤ NodeData.visits n)%Z.

(** The tree [h'] has every node of [h], with the state and the parent it
    had, the children it had first among its children, and no fewer
    visits. *)
Definition grows (h h' : list NodeData.t) : Prop :=
  ∀ i n, h !! i = Some n →
    ∃ n', h' !! i = Some n'
      ∧ NodeData.state n' = NodeData.state n
      ∧ NodeData.parent n' = NodeData.parent n
      ∧ NodeData.children n `prefix_of` NodeData.children n'
      ∧ (NodeData.visits n ≤ NodeData.visits n')%Z.

(** Floats with other operations in the exploration term of UCB1: the
    sum, the product, the square root, the logarithm and the weight. *)
Definition with_exploration (F : PyFloat)
    (add mul : @float F → @float F → @float F) (sqrt log : @float F → @float F)
    (weight : @float F) : PyFloat := {|
  float := @float F;
  of_int := @of_int F;
  fadd := add;
  fmul := mul;
  fdiv := @fdiv F;
  fsqrt := sqrt;
  flog := log;
  fgt := @fgt F;
  lit_1_41 := weight
|}.

(** The categories from the weakest to the strongest, and in the
    alphabetical order of their names. *)
Definition by_strength : list HandCategory :=
  [HighCard; OnePair; TwoPair; ThreeOfAKind; Straight; Flush; FullHouse;
   FourOfAKind; StraightFlush].

Definition by_name : list HandCategory :=
  [Flush; FourOfAKind; FullHouse; HighCard; OnePair; Straight; StraightFlush;
   ThreeOfAKind; TwoPair].

(** ** The prompt of [10_poker_AI_GPT.py] *)

(** [action in ['call', 'raise', 'fold']] *)
Definition is_action (action : string) : bool :=
  existsb (String.eqb action) ["call"; "raise"; "fold"]%string.

(** [player_action], reading the lines of [input]; it returns the action,
    the amount and the lines left. *)
Fixpoint player_action (input : list Line) : Outcome (string * Z * list Line) :=
  match input with
  | [] => Raises EOFError
  | line :: input =>
      let action := lowered line in
      if is_action action then
        if String.eqb action "raise" then
          match input with
          | [] => Raises EOFError
          | line :: input =>
              match number line with
              | None => Raises (Builtin ValueError)
              | Some amount => mret (action, amount, input)
              end
          end
        else mret (action, 0%Z, input)
      else player_action input
  end.

(** Sample tables and inputs. *)
Module Table.
(** A game as [PokerGame()] makes it, on a deck in the order of
    [Deck.fresh]. *)
Definition new_game : PokerGame.t :=
  PokerGame.mk (Deck.mk Deck.fresh) 0 [] [(1, []); (2, [])]%Z
    [(1, 0); (2, 0)]%Z 1 (10, 20)%Z.

Definition calls : list Line :=
  [mkLine "call" None; mkLine "call" None; mkLine "call" None; mkLine "call" None].

Definition folds : list Line :=
  [mkLine "fold" None; mkLine "fold" None; mkLine "fold" None; mkLine "fold" None].
End Table.

(** * Properties *)

(** ** Outcomes *)

Lemma M_bind_step {A B} (f : A → M B) (m : M A) w a w' :
  m w = Done (a, w') → (m ≫= f) w = f a w'.
Proof. intros Hm. unfold mbind, M_bind. by rewrite Hm. Qed.

Lemma M_bind_raise {A B} (f : A → M B) (m : M A) w e :
  m w = Raise e → (m ≫= f) w = Raise e.
Proof. intros Hm. unfold mbind, M_bind. by rewrite Hm. Qed.

(** ** Sorting *)

Section sorting.
Context {A : Type} (before : A → A → bool).
Hypothesis before_total : ∀ x y, before x y = false → before y x = true.

Lemma insert_sorted_perm x l : insert_sorted before x l ≡ₚ x :: l.
Proof.
  induction l as [|y l IH]; simpl; [done|].
  destruct (before x y); [done|]. rewrite IH. apply Permutation_swap.
Qed.

Lemma insert_sorted_Sorted x l :
  Sorted (λ a b, before a b = true) l →
  Sorted (λ a b, before a b = true) (insert_sorted before x l).
Proof using before_total.
  induction 1 as [|y l Hl IH Hy]; simpl.
  - repeat constructor.
  - destruct (before x y) eqn:Hxy.
    + repeat constructor; done.
    + constructor; [done|]. destruct Hy as [|z l Hyz]; simpl.
      * constructor. by apply before_total.
      * destruct (before x z); constructor; auto.
Qed.
End sorting.

Lemma Sorted_weaken {A} (R R' : relation A) l :
  (∀ a b, R a b → R' a b) → Sorted R l → Sorted R' l.
Proof.
  intros HR. induction 1 as [|x l Hl IH Hx]; constructor; [done|].
  destruct Hx; constructor; auto.
Qed.

Lemma sorted_perm {A} (key : A → nat) reverse l : sorted key reverse l ≡ₚ l.
Proof.
  unfold sorted. induction l as [|x l IH]; simpl; [done|].
  by rewrite insert_sorted_perm, IH.
Qed.

Lemma sorted_nil_inv {A} (key : A → nat) reverse l :
  sorted key reverse l = [] → l = [].
Proof.
  intros Hs. apply Permutation_nil_r. rewrite <-Hs. by rewrite sorted_perm.
Qed.

Lemma sorted_ascending {A} (key : A → nat) l :
  Sorted (λ a b, key a ≤ key b) (sorted key false l).
Proof.
  eapply Sorted_weaken; last first.
  - unfold sorted. induction l as [|x l IH]; simpl; [constructor|].
    apply insert_sorted_Sorted, IH.
    intros a b Hab. apply Nat.leb_le. apply Nat.leb_gt in Hab. lia.
  - intros a b Hab. by apply Nat.leb_le in Hab.
Qed.

Lemma sorted_descending {A} (key : A → nat) l :
  Sorted (λ a b, key b ≤ key a) (sorted key true l).
Proof.
  eapply Sorted_weaken; last first.
  - unfold sorted. induction l as [|x l IH]; simpl; [constructor|].
    apply insert_sorted_Sorted, IH.
    intros a b Hab. apply Nat.leb_le. apply Nat.leb_gt in Hab. lia.
  - intros a b Hab. by apply Nat.leb_le in Hab.
Qed.

(** Sorting integers forgets the order of the input. *)
Lemma sorted_ints_perm (l l' : list nat) :
  l ≡ₚ l' → sorted (λ i, i) false l = sorted (λ i, i) false l'.
Proof.
  intros Hl. apply (Sorted_unique le).
  - apply (sorted_ascending (λ i, i)).
  - apply (sorted_ascending (λ i, i)).
  - by rewrite !sorted_perm.
Qed.

Lemma sorted_ints_id (l : list nat) :
  Sorted le l → sorted (λ i, i) false l = l.
Proof.
  intros Hl. apply (Sorted_unique le); [|done|apply sorted_perm].
  apply (sorted_ascending (λ i, i)).
Qed.

Lemma Sorted_le_seq a n : Sorted le (seq a n).
Proof.
  revert a. induction n as [|n IH]; intros a; simpl; [constructor|].
  constructor; [apply IH|]. destruct n; simpl; constructor. lia.
Qed.

(** The keys of a hand sorted by decreasing key do not depend on the order
    of the input. *)
Lemma sorted_keys_perm {A} (key : A → nat) (l l' : list A) :
  l ≡ₚ l' → key <$> sorted key true l = key <$> sorted key true l'.
Proof.
  intros Hl.
  assert (Transitive ge) by (intros ???; lia).
  assert (AntiSymm eq ge) by (intros ???; lia).
  apply (Sorted_unique ge).
  - eapply Sorted_fmap, sorted_descending. intros; simpl in *; lia.
  - eapply Sorted_fmap, sorted_descending. intros; simpl in *; lia.
  - by rewrite !sorted_perm, Hl.
Qed.

(** The first item of a hand sorted by decreasing key has the largest key. *)
Lemma sorted_head_max {A} (key : A → nat) l x t :
  sorted key true l = x :: t → ∀ y, y ∈ l → key y ≤ key x.
Proof.
  intros Hs y Hy. pose proof (sorted_descending key l) as Hd.
  rewrite Hs in Hd. apply Sorted_StronglySorted in Hd; [|intros ???; lia].
  apply StronglySorted_inv in Hd as [_ Hall].
  rewrite <-(sorted_perm key true l), Hs in Hy.
  apply elem_of_cons in Hy as [->|Hy]; [done|].
  by eapply Forall_forall in Hall.
Qed.

(** ** Counting *)

Section counting.
Context {A : Type} `{EqDecision A}.
Implicit Types (d : list (A * nat)) (l : list A).

Lemma py_count_nil (x : A) : py_count x [] = 0.
Proof. done. Qed.

Lemma py_count_app (x : A) l l' :
  py_count x (l ++ l') = py_count x l + py_count x l'.
Proof. unfold py_count. by rewrite filter_app, length_app. Qed.

Lemma py_count_cons (x y : A) l :
  py_count x (y :: l) = (if decide (y = x) then 1 else 0) + py_count x l.
Proof. unfold py_count. rewrite filter_cons. by destruct (decide (y = x)). Qed.

Lemma py_count_perm (x : A) l l' : l ≡ₚ l' → py_count x l = py_count x l'.
Proof. unfold py_count. by intros ->. Qed.

Lemma py_count_not_elem (x : A) l : x ∉ l → py_count x l = 0.
Proof.
  induction l as [|y l IH]; [done|]. rewrite not_elem_of_cons, py_count_cons.
  intros [Hne Hl]. rewrite IH by done. by destruct (decide (y = x)); simplify_eq.
Qed.

Lemma py_count_NoDup (x : A) l : NoDup l → x ∈ l → py_count x l = 1.
Proof.
  induction 1 as [|y l Hy Hl IH]; [by intros ?%elem_of_nil|].
  rewrite py_count_cons. intros [->|Hx]%elem_of_cons.
  - rewrite py_count_not_elem by done. by destruct (decide (y = y)).
  - rewrite IH by done. destruct (decide (y = x)); [by simplify_eq|done].
Qed.

Lemma counter_add_keys (x : A) d :
  (counter_add x d).*1 = if decide (x ∈ d.*1) then d.*1 else d.*1 ++ [x].
Proof.
  induction d as [|[k n] d IH]; csimpl.
  - done.
  - destruct (decide (k = x)) as [->|Hne]; csimpl.
    + by rewrite decide_True by left.
    + rewrite IH. destruct (decide (x ∈ d.*1)) as [Hx|Hx].
      * by rewrite decide_True by (by right).
      * rewrite decide_False; [done|].
        rewrite not_elem_of_cons. split; [congruence|done].
Qed.

Lemma counter_add_elem (x : A) d k n :
  NoDup d.*1 →
  (k, n) ∈ counter_add x d ↔
    (k ≠ x ∧ (k, n) ∈ d) ∨
    (k = x ∧ ((∃ m, (x, m) ∈ d ∧ n = S m) ∨ ((x ∉ d.*1) ∧ n = 1))).
Proof.
  induction d as [|[k0 n0] d IH]; csimpl.
  - intros _. rewrite list_elem_of_singleton.
    setoid_rewrite elem_of_nil. naive_solver.
  - intros [Hk0 Hd]%NoDup_cons. specialize (IH Hd).
    assert (∀ m, (k0, m) ∈ d → False) as Hfresh.
    { intros m Hm. apply Hk0. apply list_elem_of_fmap. by exists (k0, m). }
    destruct (decide (k0 = x)) as [->|Hne].
    + rewrite elem_of_cons, not_elem_of_cons.
      setoid_rewrite elem_of_cons. naive_solver.
    + rewrite elem_of_cons, IH, not_elem_of_cons.
      setoid_rewrite elem_of_cons. naive_solver.
Qed.

(** What [Counter] keeps true while it reads a list: the keys seen so far
    are kept once, each with its number of occurrences. *)
Lemma counter_add_counts (x : A) d l :
  NoDup d.*1 ∧ (∀ k n, (k, n) ∈ d ↔ k ∈ l ∧ n = py_count k l) →
  NoDup (counter_add x d).*1 ∧
  (∀ k n, (k, n) ∈ counter_add x d ↔ k ∈ l ++ [x] ∧ n = py_count k (l ++ [x])).
Proof.
  intros [Hnd Hd].
  assert (x ∈ d.*1 ↔ x ∈ l) as Hkeys.
  { rewrite list_elem_of_fmap. split.
    - intros ([k n] & -> & Hin). by apply Hd in Hin as [? _].
    - intros Hx. exists (x, py_count x l). split; [done|]. by apply Hd. }
  split.
  - rewrite counter_add_keys. destruct (decide (x ∈ d.*1)); [done|].
    apply NoDup_app. split; [done|]. split; [|apply NoDup_singleton].
    intros y Hy ->%list_elem_of_singleton. done.
  - intros k n. rewrite counter_add_elem by done.
    rewrite py_count_app, py_count_cons, py_count_nil, elem_of_app,
      list_elem_of_singleton.
    destruct (decide (x = k)) as [->|Hne].
    + split.
      * intros [[[] _]|[_ [(m & Hm & ->)|[Hx ->]]]]; [done| |].
        -- apply Hd in Hm as [_ ->]. split; [by right|lia].
        -- rewrite py_count_not_elem by (by rewrite <-Hkeys). split; [by right|done].
      * intros [_ ->]. right. split; [done|].
        destruct (decide (k ∈ l)) as [Hk|Hk].
        -- left. exists (py_count k l). split; [by apply Hd|lia].
        -- right. rewrite py_count_not_elem by done. by rewrite Hkeys.
    + rewrite Hd. split.
      * intros [[_ [Hk ->]]|[-> _]]; [|done]. split; [by left|lia].
      * intros [[Hk| ->] ->]; [|done]. left. split; [congruence|].
        split; [done|lia].
Qed.

Lemma Counter_counts_from d l0 l :
  NoDup d.*1 ∧ (∀ k n, (k, n) ∈ d ↔ k ∈ l0 ∧ n = py_count k l0) →
  NoDup (foldl (λ d x, counter_add x d) d l).*1 ∧
  (∀ k n, (k, n) ∈ foldl (λ d x, counter_add x d) d l ↔
          k ∈ l0 ++ l ∧ n = py_count k (l0 ++ l)).
Proof.
  revert d l0. induction l as [|x l IH]; intros d l0 Hd; simpl.
  - by rewrite app_nil_r.
  - rewrite (cons_middle x l0 l), app_assoc.
    apply IH. by apply counter_add_counts.
Qed.

Lemma Counter_counts l :
  NoDup (Counter l).*1 ∧
  (∀ k n, (k, n) ∈ Counter l ↔ k ∈ l ∧ n = py_count k l).
Proof.
  apply (Counter_counts_from [] [] l). split; [constructor|].
  intros k n. rewrite !elem_of_nil. naive_solver.
Qed.

Lemma Counter_NoDup l : NoDup (Counter l).
Proof. eapply NoDup_fmap_1, Counter_counts. Qed.

Lemma Counter_perm l l' : l ≡ₚ l' → Counter l ≡ₚ Counter l'.
Proof.
  intros Hl. apply NoDup_Permutation; [apply Counter_NoDup..|].
  intros [k n]. rewrite !(proj2 (Counter_counts _)).
  rewrite (py_count_perm _ _ _ Hl).
  split; intros [Hk ->]; (split; [|done]); [by rewrite <-Hl|by rewrite Hl].
Qed.

Lemma values_Counter l n :
  n ∈ values (Counter l) ↔ ∃ k, k ∈ l ∧ n = py_count k l.
Proof.
  unfold values. rewrite list_elem_of_fmap. split.
  - intros ([k m] & -> & Hin). apply Counter_counts in Hin. by exists k.
  - intros (k & Hk & ->). exists (k, py_count k l). split; [done|].
    by apply Counter_counts.
Qed.

Lemma values_Counter_perm l l' :
  l ≡ₚ l' → values (Counter l) ≡ₚ values (Counter l').
Proof. intros Hl. unfold values. by rewrite (Counter_perm _ _ Hl). Qed.

(** Distinct items are counted once each. *)
Lemma values_Counter_NoDup l n : NoDup l → n ∈ values (Counter l) → n = 1.
Proof.
  intros Hl (k & Hk & ->)%values_Counter. by apply py_count_NoDup.
Qed.

Lemma py_in_perm (x : A) l l' : l ≡ₚ l' → py_in x l = py_in x l'.
Proof. intros Hl. unfold py_in. apply bool_decide_ext. by rewrite Hl. Qed.

Lemma py_set_perm l l' : l ≡ₚ l' → py_set l ≡ₚ py_set l'.
Proof.
  intros Hl. apply NoDup_Permutation; [apply NoDup_remove_dups..|].
  intros x. unfold py_set. by rewrite !elem_of_remove_dups, Hl.
Qed.

(** A set has one item when the list is not empty and its items agree. *)
Lemma py_set_length_1 l :
  length (py_set l) = 1 ↔ l ≠ [] ∧ ∀ x y, x ∈ l → y ∈ l → x = y.
Proof.
  unfold py_set. split.
  - intros Hlen. destruct (remove_dups l) as [|s [|]] eqn:Hs; simplify_eq/=.
    assert (∀ x, x ∈ l → x = s) as Hall.
    { intros x Hx. apply elem_of_remove_dups in Hx. rewrite Hs in Hx.
      by apply list_elem_of_singleton in Hx. }
    split; [by intros ->|]. intros x y Hx Hy.
    by rewrite (Hall x Hx), (Hall y Hy).
  - intros [Hne Hall]. pose proof (NoDup_remove_dups l) as Hnd.
    destruct (remove_dups l) as [|a [|b k]] eqn:Hs; [|done|].
    + destruct l as [|x l]; [done|].
      assert (x ∈ remove_dups (x :: l)) as Hx by (apply elem_of_remove_dups; left).
      rewrite Hs in Hx. by apply elem_of_nil in Hx.
    + assert (a = b) as ->.
      { apply Hall; apply elem_of_remove_dups; rewrite Hs;
          [left|right; left]. }
      apply NoDup_cons in Hnd as [[] _]. left.
Qed.
End counting.

(** ** The hand classifier *)

Lemma rank_index_inj c c' :
  Card.rank_index c = Card.rank_index c' → Card.rank c = Card.rank c'.
Proof.
  unfold Card.rank_index. destruct (Card.rank c), (Card.rank c'); by intros [=].
Qed.

Lemma rank_index_lt c : Card.rank_index c < 13.
Proof. unfold Card.rank_index. destruct (Card.rank c); simpl; lia. Qed.

Lemma ranks_lookup_index c : Card.ranks !! Card.rank_index c = Some (Card.rank c).
Proof. unfold Card.rank_index. by destruct (Card.rank c). Qed.

Lemma foldl_min_sorted x l : Sorted le (x :: l) → foldl Nat.min x l = x.
Proof.
  intros Hs. apply Sorted_StronglySorted in Hs; [|intros ???; lia].
  apply StronglySorted_inv in Hs as [_ Hall]. revert Hall. clear.
  induction l as [|y l IH]; simpl; [done|].
  intros [Hy Hl]%Forall_cons. rewrite Nat.min_l by done. auto.
Qed.

Section hand_perm.
Import Hand.
Context (l l' : list Card.t) (Hl : l ≡ₚ l').

Lemma rank_counts_values_perm :
  values (rank_counts l) ≡ₚ values (rank_counts l').
Proof using Hl. unfold rank_counts. apply values_Counter_perm. by rewrite Hl. Qed.

Lemma is_four_of_a_kind_perm : is_four_of_a_kind l = is_four_of_a_kind l'.
Proof using Hl. apply py_in_perm, rank_counts_values_perm. Qed.

Lemma is_three_of_a_kind_perm : is_three_of_a_kind l = is_three_of_a_kind l'.
Proof using Hl. apply py_in_perm, rank_counts_values_perm. Qed.

Lemma is_one_pair_perm : is_one_pair l = is_one_pair l'.
Proof using Hl. apply py_in_perm, rank_counts_values_perm. Qed.

Lemma is_full_house_perm : is_full_house l = is_full_house l'.
Proof using Hl.
  unfold is_full_house. by rewrite !(py_in_perm _ _ _ rank_counts_values_perm).
Qed.

Lemma is_two_pair_perm : is_two_pair l = is_two_pair l'.
Proof using Hl.
  unfold is_two_pair. by rewrite (py_count_perm _ _ _ rank_counts_values_perm).
Qed.

Lemma is_flush_perm : is_flush l = is_flush l'.
Proof using Hl.
  unfold is_flush. apply bool_decide_ext.
  assert (Card.suit <$> l ≡ₚ Card.suit <$> l') as Hs by (by rewrite Hl).
  by rewrite (py_set_perm _ _ Hs).
Qed.

Lemma is_straight_perm : PokerHand.is_straight l = PokerHand.is_straight l'.
Proof using Hl.
  unfold PokerHand.is_straight.
  by rewrite (sorted_ints_perm (Card.rank_index <$> l) (Card.rank_index <$> l'))
    by (by rewrite Hl).
Qed.

Lemma evaluate_hand_perm : PokerHand.evaluate_hand l = PokerHand.evaluate_hand l'.
Proof using Hl.
  unfold PokerHand.evaluate_hand, PokerHand.is_straight_flush.
  by rewrite is_straight_perm, is_flush_perm, is_four_of_a_kind_perm,
    is_full_house_perm, is_three_of_a_kind_perm, is_two_pair_perm,
    is_one_pair_perm.
Qed.
End hand_perm.

(** The straight test fails on the empty hand only, and then the two files
    fail differently. *)
Lemma is_straight_nonempty l :
  l ≠ [] → ∃ b, PokerHand.is_straight l = Done b.
Proof.
  intros Hne. unfold PokerHand.is_straight.
  destruct (sorted _ false (Card.rank_index <$> l)) as [|i il] eqn:Hs.
  - apply sorted_nil_inv, fmap_nil_inv in Hs. done.
  - simpl. eauto.
Qed.

Lemma is_straight_6 l :
  l ≠ [] → PokerHand6.is_straight l = PokerHand.is_straight l.
Proof.
  intros Hne. unfold PokerHand.is_straight, PokerHand6.is_straight.
  pose proof (sorted_ascending (λ i, i) (Card.rank_index <$> l)) as Hsorted.
  destruct (sorted _ false (Card.rank_index <$> l)) as [|i il] eqn:Hs.
  - apply sorted_nil_inv, fmap_nil_inv in Hs. done.
  - cbn [py_getitem py_min lookup list_lookup mbind Res_bind].
    rewrite (foldl_min_sorted i il Hsorted). simpl.
    by repeat case_bool_decide.
Qed.

Lemma is_straight_run l m :
  Card.rank_index <$> l ≡ₚ seq m 5 → PokerHand.is_straight l = Done true.
Proof.
  intros Hl. unfold PokerHand.is_straight.
  rewrite (sorted_ints_perm _ _ Hl), sorted_ints_id by apply Sorted_le_seq.
  cbn [seq py_min mbind Res_bind]. rewrite foldl_min_sorted by apply (Sorted_le_seq m 5).
  unfold py_range. replace (m + 5 - m) with 5 by lia.
  by rewrite bool_decide_eq_true_2.
Qed.

Lemma is_straight_wheel l :
  Card.rank_index <$> l ≡ₚ [0; 1; 2; 3; 12] → PokerHand.is_straight l = Done true.
Proof.
  intros Hl. unfold PokerHand.is_straight. by rewrite (sorted_ints_perm _ _ Hl).
Qed.

(** A hand of distinct ranks has no rank three or four times. *)
Lemma distinct_ranks_no_sets l :
  NoDup (Card.rank <$> l) →
  Hand.is_four_of_a_kind l = false ∧ Hand.is_full_house l = false.
Proof.
  intros Hnd. unfold Hand.is_four_of_a_kind, Hand.is_full_house, py_in, Hand.rank_counts.
  rewrite !bool_decide_eq_false_2; [done|..];
    by intros ?%values_Counter_NoDup.
Qed.

Lemma evaluate_hand_straight l :
  PokerHand.is_straight l = Done true → NoDup (Card.rank <$> l) →
  PokerHand.evaluate_hand l =
    Done (if Hand.is_flush l then StraightFlush else Straight).
Proof.
  intros Hs Hnd. destruct (distinct_ranks_no_sets l Hnd) as [H4 Hfh].
  unfold PokerHand.evaluate_hand, PokerHand.is_straight_flush.
  rewrite Hs. simpl. destruct (Hand.is_flush l) eqn:Hf; simpl; [done|].
  by rewrite H4, Hfh.
Qed.

Lemma is_flush_true l :
  Hand.is_flush l = true ↔
  l ≠ [] ∧ ∀ c c', c ∈ l → c' ∈ l → Card.suit c = Card.suit c'.
Proof.
  unfold Hand.is_flush. rewrite bool_decide_eq_true, py_set_length_1. split.
  - intros [Hne Hall]. split; [by intros ->|]. intros c c' Hc Hc'.
    apply Hall; by apply list_elem_of_fmap_2.
  - intros [Hne Hall]. split; [by intros ?%fmap_nil_inv|].
    intros x y (c & -> & Hc)%list_elem_of_fmap (c' & -> & Hc')%list_elem_of_fmap.
    by apply Hall.
Qed.

(** What the classifier of [6_poker_holdem_final.py] adds to the category:
    the rank of the first card. *)
Lemma evaluate_hand_6 c l :
  PokerHand6.evaluate_hand (c :: l) =
  cat ← PokerHand.evaluate_hand (c :: l); mret (cat, Card.rank c).
Proof.
  unfold PokerHand6.evaluate_hand, PokerHand.evaluate_hand,
    PokerHand6.is_straight_flush, PokerHand.is_straight_flush.
  rewrite is_straight_6 by done.
  destruct (PokerHand.is_straight (c :: l)) as [[]| | |]; simpl; [| |done..].
  - by repeat (case_match; simpl).
  - by repeat (case_match; simpl).
Qed.

Lemma evaluate_6 l :
  fst <$> PokerHand6.evaluate l = PokerHand.evaluate l ∨
  (l = [] ∧ PokerHand6.evaluate l = Raise IndexError
          ∧ PokerHand.evaluate l = Raise ValueError).
Proof.
  destruct l as [|c0 l0]; [by right|left].
  unfold PokerHand6.evaluate, PokerHand.evaluate, PokerHand6.init, PokerHand.init.
  destruct (sorted Card.rank_index true (c0 :: l0)) as [|c l] eqn:Hs.
  { by apply sorted_nil_inv in Hs. }
  rewrite evaluate_hand_6.
  by destruct (PokerHand.evaluate_hand (c :: l)).
Qed.

Lemma evaluate_nonempty l :
  l ≠ [] → ∃ cat, PokerHand.evaluate l = Done cat.
Proof.
  intros Hne. unfold PokerHand.evaluate, PokerHand.init.
  set (sc := sorted Card.rank_index true l).
  assert (sc ≠ []) as Hsc by (by intros ?%sorted_nil_inv).
  destruct (is_straight_nonempty sc Hsc) as [b Hb].
  unfold PokerHand.evaluate_hand, PokerHand.is_straight_flush. rewrite Hb. simpl.
  repeat (case_match; simpl; eauto).
Qed.

Lemma evaluate_unsorted l : PokerHand.evaluate l = PokerHand.evaluate_hand l.
Proof.
  unfold PokerHand.evaluate, PokerHand.init.
  rewrite (evaluate_hand_perm _ l) by apply sorted_perm.
  by destruct (PokerHand.evaluate_hand l).
Qed.

(** The second component of the result of [6_poker_holdem_final.py] is the
    rank of a card of the hand that no card of the hand outranks. *)
Lemma evaluate_6_top l cat :
  PokerHand.evaluate l = Done cat →
  ∃ c0, c0 ∈ l ∧ PokerHand6.evaluate l = Done (cat, Card.rank c0) ∧
        ∀ c, c ∈ l → Card.rank_index c ≤ Card.rank_index c0.
Proof.
  unfold PokerHand.evaluate, PokerHand6.evaluate, PokerHand.init, PokerHand6.init.
  destruct (sorted Card.rank_index true l) as [|c0 t] eqn:Hs.
  { apply sorted_nil_inv in Hs as ->. done. }
  rewrite evaluate_hand_6.
  destruct (PokerHand.evaluate_hand (c0 :: t)) as [cat'| | |]; simpl; [|done..].
  intros [= <-]. exists c0. split; [|split; [done|]].
  - rewrite <-(sorted_perm Card.rank_index true l), Hs. left.
  - by eapply sorted_head_max.
Qed.

Lemma distinct_indices_distinct_ranks l :
  NoDup (Card.rank_index <$> l) → NoDup (Card.rank <$> l).
Proof.
  intros Hnd. apply (NoDup_fmap_1 (λ r, py_index r Card.ranks)).
  by rewrite <-list_fmap_compose.
Qed.

(** Five cards in a run, or a wheel: a straight flush when the suits agree,
    a straight when they do not. *)
Lemma evaluate_run_or_wheel l :
  (∃ m, Card.rank_index <$> l ≡ₚ seq m 5) ∨ Card.rank_index <$> l ≡ₚ [0; 1; 2; 3; 12] →
  PokerHand.evaluate l = Done (if Hand.is_flush l then StraightFlush else Straight).
Proof.
  intros Hl. rewrite evaluate_unsorted. apply evaluate_hand_straight.
  - destruct Hl as [[m Hl]|Hl]; [by eapply is_straight_run|by apply is_straight_wheel].
  - apply distinct_indices_distinct_ranks.
    destruct Hl as [[m Hl]|Hl]; rewrite Hl; [apply NoDup_seq|].
    apply (bool_decide_unpack _). by vm_compute.
Qed.

(** Giving one card of a one-suit hand of two cards or more another suit
    leaves no flush. *)
Lemma is_flush_change_suit (l : list Card.t) (i : nat) c s :
  2 ≤ length l →
  (∀ c c', c ∈ l → c' ∈ l → Card.suit c = Card.suit c') →
  l !! i = Some c → s ≠ Card.suit c →
  Hand.is_flush (<[i:=Card.mk (Card.rank c) s]> l) = false.
Proof.
  intros Hlen Hall Hi Hs. apply not_true_is_false. intros [_ Hf]%is_flush_true.
  pose proof (lookup_lt_Some _ _ _ Hi) as Hilt.
  set (j := if decide (i = 0) then 1 else 0).
  assert (j ≠ i ∧ j < length l) as [Hji Hj].
  { unfold j. destruct (decide (i = 0)); split; lia. }
  destruct (lookup_lt_is_Some_2 l j Hj) as [c' Hc'].
  apply Hs. rewrite (Hall c c') by (by eapply list_elem_of_lookup_2).
  symmetry.
  apply (Hf c' (Card.mk (Card.rank c) s)).
  - apply (list_elem_of_lookup_2 _ j).
    by rewrite list_lookup_insert_ne.
  - apply (list_elem_of_lookup_2 _ i). by rewrite list_lookup_insert_eq.
Qed.

Lemma rank_index_change_suit (l : list Card.t) (i : nat) c s :
  l !! i = Some c →
  Card.rank_index <$> <[i:=Card.mk (Card.rank c) s]> l = Card.rank_index <$> l.
Proof.
  intros Hi. rewrite list_fmap_insert. apply list_insert_id.
  by rewrite list_lookup_fmap, Hi.
Qed.

(** ** The claims about the hand classifier *)

(** C1. Five cards of consecutive ranks and one suit are a straight flush,
    reported with the highest rank present (as for A♠ K♠ with Q♠ J♠ 10♠);
    once one of the five cards is given another suit, they are a
    straight. *)
Theorem straight_flush_classified (cards : list Card.t) (m : nat) :
  Card.rank_index <$> cards ≡ₚ seq m 5 →
  (∀ c c', c ∈ cards → c' ∈ cards → Card.suit c = Card.suit c') →
  PokerHand.evaluate cards = Done StraightFlush
  ∧ (∃ top, top ∈ cards
       ∧ PokerHand6.evaluate cards = Done (StraightFlush, Card.rank top)
       ∧ ∀ c, c ∈ cards → Card.rank_index c ≤ Card.rank_index top)
  ∧ (∀ i c s, cards !! i = Some c → s ≠ Card.suit c →
       let cards' := <[i:=Card.mk (Card.rank c) s]> cards in
       PokerHand.evaluate cards' = Done Straight
       ∧ ∃ top, PokerHand6.evaluate cards' = Done (Straight, top))
  ∧ PokerHand6.evaluate (Sample.hole_cards ++ Sample.community)
      = Done (StraightFlush, RA).
Proof.
  intros Hrun Hsuits.
  assert (length cards = 5) as Hlen.
  { by rewrite <-(length_fmap Card.rank_index), Hrun. }
  assert (PokerHand.evaluate cards = Done StraightFlush) as Hsf.
  { rewrite evaluate_run_or_wheel by eauto.
    rewrite (proj2 (is_flush_true cards)); [done|].
    split; [by intros ->|done]. }
  split; [done|]. split; [by apply evaluate_6_top|]. split; [|done].
  intros i c s Hi Hs cards'.
  assert (PokerHand.evaluate cards' = Done Straight) as Hst.
  { rewrite evaluate_run_or_wheel
      by (left; exists m; unfold cards'; by rewrite rank_index_change_suit).
    unfold cards'. rewrite is_flush_change_suit; [done|lia|done..]. }
  split; [done|]. destruct (evaluate_6_top _ _ Hst) as (top & _ & Htop & _).
  eauto.
Qed.

Lemma straight_flush_classified_witness :
  PokerHand.evaluate (Sample.community ++ Sample.hole_cards) = Done StraightFlush
  ∧ PokerHand.evaluate (<[1:=Card.mk RJ Hearts]> (Sample.community ++ Sample.hole_cards))
      = Done Straight.
Proof.
  assert (Card.rank_index <$> Sample.community ++ Sample.hole_cards ≡ₚ seq 8 5) as Hrun.
  { apply (bool_decide_unpack _). by vm_compute. }
  assert (∀ c c', c ∈ Sample.community ++ Sample.hole_cards →
                  c' ∈ Sample.community ++ Sample.hole_cards →
                  Card.suit c = Card.suit c') as Hsuits.
  { intros c c' Hc Hc'.
    assert (∀ x, x ∈ Sample.community ++ Sample.hole_cards → Card.suit x = Spades) as Hsp.
    { apply Forall_forall. by repeat constructor. }
    by rewrite (Hsp c), (Hsp c'). }
  destruct (straight_flush_classified _ 8 Hrun Hsuits) as (Hsf & _ & Hst & _).
  split; [exact Hsf|].
  apply (Hst 1 (Card.mk RJ Spades) Hearts); [reflexivity|discriminate].
Defined.

(** C2. Five cards of ranks A, 2, 3, 4, 5 in any order, not all of one
    suit, are a straight: neither a high card nor a straight flush. *)
Theorem wheel_is_straight (cards : list Card.t) :
  Card.rank <$> cards ≡ₚ [RA; R2; R3; R4; R5] →
  ¬ (∀ c c', c ∈ cards → c' ∈ cards → Card.suit c = Card.suit c') →
  PokerHand.evaluate cards = Done Straight
  ∧ PokerHand6.evaluate cards = Done (Straight, RA).
Proof.
  intros Hranks Hsuits.
  assert (Card.rank_index <$> cards ≡ₚ [0; 1; 2; 3; 12]) as Hidx.
  { transitivity ((λ r, py_index r Card.ranks) <$> (Card.rank <$> cards)).
    { by rewrite <-list_fmap_compose. }
    rewrite Hranks. apply (bool_decide_unpack _). by vm_compute. }
  assert (PokerHand.evaluate cards = Done Straight) as Hst.
  { rewrite evaluate_run_or_wheel by eauto.
    destruct (Hand.is_flush cards) eqn:Hf; [|done].
    by apply is_flush_true in Hf as [_ Hf]. }
  split; [done|].
  destruct (evaluate_6_top _ _ Hst) as (top & _ & -> & Hmax).
  assert (RA ∈ Card.rank <$> cards) as (ace & Hace & Hin)%list_elem_of_fmap.
  { rewrite Hranks. left. }
  pose proof (Hmax ace Hin) as Hle. pose proof (rank_index_lt top) as Hlt.
  assert (Card.rank_index ace = 12) as Hace12.
  { unfold Card.rank_index. by rewrite <-Hace. }
  do 2 f_equal. rewrite Hace. apply rank_index_inj. lia.
Qed.

Lemma wheel_is_straight_witness :
  PokerHand.evaluate Sample.wheel = Done Straight
  ∧ PokerHand6.evaluate Sample.wheel = Done (Straight, RA).
Proof.
  apply wheel_is_straight.
  - apply (bool_decide_unpack _). by vm_compute.
  - intros Hall.
    assert (Card.suit (Card.mk R3 Hearts) = Card.suit (Card.mk RA Clubs)) as Heq.
    { apply Hall; unfold Sample.wheel; [left|right; left]. }
    discriminate Heq.
Defined.

(** C6, as the specification states it, fails: a hand of four cards (or of
    eight) is classified, not rejected. *)
Lemma no_hand_size_check :
  ¬ (∀ cards : list Card.t,
       length cards < 5 ∨ 7 < length cards →
       ∃ e, PokerHand.evaluate cards = Raise e).
Proof.
  intros Hclaim. destruct (Hclaim Sample.four_cards) as [e He].
  - left. simpl. lia.
  - discriminate He.
Qed.

(** C6, amended. The classifier does not look at the size of the hand: every
    hand of one card or more is classified, so those of 5 to 7 cards and
    also the shorter and the longer ones; the empty hand alone fails, with
    [ValueError] ([IndexError] in [6_poker_holdem_final.py]). *)
Theorem evaluate_total_on_nonempty (cards : list Card.t) :
  (cards ≠ [] →
     ∃ cat top, PokerHand.evaluate cards = Done cat
              ∧ PokerHand6.evaluate cards = Done (cat, top))
  ∧ (cards = [] →
     PokerHand.evaluate cards = Raise ValueError
     ∧ PokerHand6.evaluate cards = Raise IndexError).
Proof.
  split.
  - intros Hne. destruct (evaluate_nonempty cards Hne) as [cat Hcat].
    destruct (evaluate_6_top _ _ Hcat) as (top & _ & Htop & _). eauto.
  - by intros ->.
Qed.

Lemma evaluate_total_on_nonempty_witness :
  (∃ cat top, PokerHand.evaluate Sample.eight_cards = Done cat
            ∧ PokerHand6.evaluate Sample.eight_cards = Done (cat, top))
  ∧ PokerHand.evaluate [] = Raise ValueError.
Proof.
  split.
  - apply (proj1 (evaluate_total_on_nonempty Sample.eight_cards)). discriminate.
  - apply (proj2 (evaluate_total_on_nonempty [])). reflexivity.
Defined.

(** C8. The result of the classifier does not depend on the order of the
    cards it is given. *)
Theorem evaluate_permutation (cards cards' : list Card.t) :
  cards ≡ₚ cards' →
  PokerHand.evaluate cards = PokerHand.evaluate cards'
  ∧ PokerHand6.evaluate cards = PokerHand6.evaluate cards'.
Proof.
  intros Hperm. split.
  - rewrite !evaluate_unsorted. by apply evaluate_hand_perm.
  - unfold PokerHand6.evaluate, PokerHand6.init.
    pose proof (sorted_keys_perm Card.rank_index _ _ Hperm) as Hkeys.
    assert (sorted Card.rank_index true cards ≡ₚ sorted Card.rank_index true cards')
      as Hsorted by (by rewrite !sorted_perm).
    destruct (sorted Card.rank_index true cards) as [|c l],
      (sorted Card.rank_index true cards') as [|c' l']; simplify_eq/=.
    + done.
    + rewrite !evaluate_hand_6, (evaluate_hand_perm _ _ Hsorted).
      rewrite (rank_index_inj c c') by done.
      by destruct (PokerHand.evaluate_hand (c' :: l')).
Qed.

Lemma evaluate_permutation_witness :
  PokerHand.evaluate (Sample.hole_cards ++ Sample.community)
  = PokerHand.evaluate (Sample.community ++ Sample.hole_cards).
Proof.
  apply evaluate_permutation.
  apply (Permutation_app_comm Sample.hole_cards Sample.community).
Defined.

(** ** The claims about the game state *)

Lemma game_result_of_category (s : PokerGameState.t) cat :
  PokerHand.evaluate (PokerGameState.hand s ++ PokerGameState.community_cards s)
    = Done cat →
  GameState.game_result s =
    Done (if bool_decide (cat ∈ [StraightFlush; FourOfAKind; FullHouse; Flush])
          then 1 else -1)%Z.
Proof.
  unfold PokerHand.evaluate, GameState.game_result.
  destruct (PokerHand.init _) as [ph| | |]; simpl; [|done..].
  intros [= <-]. unfold py_in, GameState.winning_hands. by case_bool_decide.
Qed.

(** [game_result] returns, or fails for want of a card. *)
Lemma game_result_outcome (s : PokerGameState.t) :
  (∃ v, GameState.game_result s = Done v ∧ (v = 1 ∨ v = -1)%Z)
  ∨ (PokerGameState.hand s ++ PokerGameState.community_cards s = []
     ∧ GameState.game_result s = Raise ValueError).
Proof.
  destruct (PokerGameState.hand s ++ PokerGameState.community_cards s)
    as [|c cards] eqn:Hcards.
  - right. split; [done|]. unfold GameState.game_result. by rewrite Hcards.
  - left. destruct (evaluate_nonempty (c :: cards)) as [cat Hcat]; [done|].
    rewrite <-Hcards in Hcat. rewrite (game_result_of_category s cat Hcat).
    case_bool_decide; eauto.
Qed.

(** C4. [game_result] is +1 when the hole and community cards together are
    classified as a straight flush, four of a kind, a full house or a flush,
    and -1 for every other category.  It has no other value; it has one
    whenever there is a card to classify. *)
Theorem game_result_by_category (s : PokerGameState.t) :
  let cards := PokerGameState.hand s ++ PokerGameState.community_cards s in
  (∀ cat, PokerHand.evaluate cards = Done cat →
     GameState.game_result s =
       Done (if bool_decide (cat ∈ [StraightFlush; FourOfAKind; FullHouse; Flush])
             then 1 else -1)%Z)
  ∧ (∀ v, GameState.game_result s = Done v → v = 1%Z ∨ v = (-1)%Z)
  ∧ (cards ≠ [] → ∃ v, GameState.game_result s = Done v).
Proof.
  intros cards. split; [apply game_result_of_category|].
  destruct (game_result_outcome s) as [(v & Hv & Hpm)|[Hnil Hraise]].
  - split; [|by eauto]. intros v'. rewrite Hv. by intros [= <-].
  - split; [by rewrite Hraise|]. done.
Qed.

Lemma game_result_by_category_witness :
  GameState.game_result Sample.flop = Done 1%Z
  ∧ GameState.game_result Sample.showdown = Done (-1)%Z.
Proof.
  split.
  - apply (proj1 (game_result_by_category Sample.flop) StraightFlush). reflexivity.
  - apply (proj1 (game_result_by_category Sample.showdown) HighCard). reflexivity.
Defined.

(** ** Random draws and the deck *)

Lemma randbelow_Done n w :
  ∃ j t, randbelow n w = Done (j, mkWorld t (heap w)) ∧ (n ≠ 0 → j < n).
Proof.
  unfold randbelow. destruct w as [[|x t] h]; simpl.
  - exists 0, []. split; [done|lia].
  - exists (x `mod` n), t. split; [done|]. apply Nat.mod_upper_bound.
Qed.

Lemma insert_perm_head {A} (t : list A) (j : nat) (b h : A) :
  t !! j = Some b → b :: <[j:=h]> t ≡ₚ h :: t.
Proof.
  revert j. induction t as [|y t IH]; intros [|j] Hj; simplify_eq/=.
  - apply Permutation_swap.
  - rewrite Permutation_swap, (IH j Hj). apply Permutation_swap.
Qed.

Lemma swap_perm {A} (i j : nat) (x : list A) : swap i j x ≡ₚ x.
Proof.
  unfold swap. destruct (x !! i) as [a|] eqn:Hi; [|done].
  destruct (x !! j) as [b|] eqn:Hj; [|done].
  revert i j Hi Hj. induction x as [|h t IH]; intros [|i] [|j] Hi Hj; simplify_eq/=.
  - done.
  - by apply insert_perm_head.
  - by apply insert_perm_head.
  - by rewrite IH.
Qed.

Lemma shuffle_from_Done {A} (i : nat) (x : list A) w :
  ∃ x' t, shuffle_from i x w = Done (x', mkWorld t (heap w)) ∧ x' ≡ₚ x.
Proof.
  revert x w. induction i as [|i IH]; intros x w; simpl.
  - exists x, (tape w). by destruct w.
  - destruct (randbelow_Done (S (S i)) w) as (j & t & Hj & _).
    unfold mbind, M_bind. rewrite Hj.
    destruct (IH (swap (S i) j x) (mkWorld t (heap w))) as (x' & t' & Hx' & Hp).
    exists x', t'. split; [done|]. by rewrite Hp, swap_perm.
Qed.

Lemma Deck_init_Done w :
  ∃ d t, Deck.init w = Done (d, mkWorld t (heap w)) ∧ Deck.cards d ≡ₚ Deck.fresh.
Proof.
  unfold Deck.init, shuffle.
  destruct (shuffle_from_Done (length Deck.fresh - 1) Deck.fresh w)
    as (x' & t & Hx' & Hp).
  exists (Deck.mk x'), t. unfold mbind, M_bind. by rewrite Hx'.
Qed.

Lemma draw_card_snoc l c : Deck.draw_card (Deck.mk (l ++ [c])) = Done (c, Deck.mk l).
Proof.
  unfold Deck.draw_card, py_pop. simpl. rewrite last_snoc, length_app. simpl.
  replace (length l + 1 - 1) with (length l) by lia.
  by rewrite take_app_length.
Qed.

Lemma draw_card_empty : Deck.draw_card (Deck.mk []) = Raise IndexError.
Proof. done. Qed.

(** Drawing the whole deck gives its cards from the last to the first. *)
Lemma draw_cards_all l k :
  Deck.draw_cards (length k) (Deck.mk (l ++ k)) = Done (reverse k, Deck.mk l).
Proof.
  induction k as [|c k IH] using rev_ind; simpl.
  - by rewrite app_nil_r.
  - rewrite length_app, Nat.add_comm. simpl.
    rewrite app_assoc, draw_card_snoc. simpl. rewrite IH. simpl.
    by rewrite reverse_snoc.
Qed.

Lemma fresh_deck_complete r s : Card.mk r s ∈ Deck.fresh.
Proof.
  apply (bool_decide_unpack _). by destruct r, s; vm_compute.
Qed.

Lemma fresh_deck_NoDup : NoDup Deck.fresh.
Proof. apply (bool_decide_unpack _). by vm_compute. Qed.

(** C7. Whatever the random draws, the 52 cards drawn from a new deck are
    pairwise distinct and hold every combination of a rank and a suit
    exactly once, and the 53rd draw fails (with the [IndexError] of
    [list.pop] on an empty list). *)
Theorem deck_draws (w : World) :
  ∃ d w', Deck.init w = Done (d, w')
    ∧ ∃ drawn rest, Deck.draw_cards 52 d = Done (drawn, rest)
        ∧ length drawn = 52
        ∧ NoDup drawn
        ∧ (∀ r s, Card.mk r s ∈ drawn ∧ py_count (Card.mk r s) drawn = 1)
        ∧ Deck.draw_card rest = Raise IndexError.
Proof.
  destruct (Deck_init_Done w) as ([cs] & t & Hinit & Hperm). simpl in Hperm.
  exists (Deck.mk cs), (mkWorld t (heap w)). split; [done|].
  exists (reverse cs), (Deck.mk []).
  assert (length cs = 52) as Hlen by (by rewrite Hperm).
  assert (NoDup (reverse cs)) as Hnd.
  { rewrite reverse_Permutation, Hperm. apply fresh_deck_NoDup. }
  assert (∀ r s, Card.mk r s ∈ reverse cs) as Hall.
  { intros r s. rewrite reverse_Permutation, Hperm. apply fresh_deck_complete. }
  split; [|split; [|split; [done|split; [|done]]]].
  - rewrite <-Hlen. apply (draw_cards_all [] cs).
  - by rewrite length_reverse.
  - intros r s. split; [done|]. by apply py_count_NoDup.
Qed.

Lemma choice_Done {A} (l : list A) w :
  l ≠ [] → ∃ x t, choice l w = Done (x, mkWorld t (heap w)) ∧ x ∈ l.
Proof.
  intros Hne. unfold choice.
  destruct (randbelow_Done (length l) w) as (j & t & Hj & Hlt).
  destruct l as [|y l]; [done|]. unfold mbind, M_bind. rewrite Hj.
  destruct (lookup_lt_is_Some_2 (y :: l) j) as [x Hx]; [by apply Hlt|].
  exists x, t. unfold py_getitem. rewrite Hx. split; [done|].
  by eapply list_elem_of_lookup_2.
Qed.

(** ** Successor states *)

Lemma new_cards_Done n w :
  ∃ cs t, GameState.new_cards n w = Done (cs, mkWorld t (heap w)) ∧ length cs = n.
Proof.
  revert w. induction n as [|n IH]; intros w; simpl.
  - exists [], (tape w). by destruct w.
  - destruct (Deck_init_Done w) as ([cards] & t & Hinit & Hperm). simpl in Hperm.
    unfold mbind at 1, M_bind at 1. rewrite Hinit.
    assert (∃ l c, cards = l ++ [c]) as (l & c & ->).
    { destruct cards as [|c0 cards] using rev_ind; [|eauto].
      apply Permutation_nil_l in Hperm. discriminate Hperm. }
    unfold mbind at 1, M_bind at 1. rewrite draw_card_snoc. simpl.
    destruct (IH (mkWorld t (heap w))) as (cs & t' & Hcs & Hlen). simpl in Hcs.
    unfold mbind, M_bind. rewrite Hcs. exists (c :: cs), t'. simpl.
    split; [done|]. by rewrite Hlen.
Qed.

Lemma legal_moves_before_river (s : PokerGameState.t) w :
  length (PokerGameState.community_cards s) < 5 →
  ∃ cs t,
    length (PokerGameState.community_cards s ++ cs) = 5 ∧
    GameState.legal_moves s w = Done (
      let hand := PokerGameState.hand s in
      let board := PokerGameState.community_cards s ++ cs in
      let pot := PokerGameState.pot s in
      let bet := PokerGameState.current_bet s in
      [ PokerGameState.mk hand (PokerGameState.community_cards s) pot 0 true;
        PokerGameState.mk hand board (pot + bet) 0 false;
        PokerGameState.mk hand board (pot + bet + 10) 0 false;
        PokerGameState.mk hand board (pot + bet + 20) 0 false;
        PokerGameState.mk hand board (pot + bet + 50) 0 false ],
      mkWorld t (heap w))%Z.
Proof.
  intros Hlt. unfold GameState.legal_moves. rewrite bool_decide_eq_true_2 by done.
  destruct (new_cards_Done (5 - length (PokerGameState.community_cards s)) w)
    as (cs & t & Hcs & Hlen).
  exists cs, t. split; [rewrite length_app; lia|].
  unfold mbind, M_bind. by rewrite Hcs.
Qed.

Lemma legal_moves_at_river (s : PokerGameState.t) w :
  ¬ length (PokerGameState.community_cards s) < 5 →
  GameState.legal_moves s w = Done (
    [ PokerGameState.mk (PokerGameState.hand s) (PokerGameState.community_cards s)
        (PokerGameState.pot s) 0 true;
      PokerGameState.mk (PokerGameState.hand s) (PokerGameState.community_cards s)
        (PokerGameState.pot s + PokerGameState.current_bet s) 0 true ], w).
Proof.
  intros Hge. unfold GameState.legal_moves. by rewrite bool_decide_eq_false_2 by done.
Qed.

(** Every run of [legal_moves] returns, leaves the heap alone, and gives
    two moves or more, all of them terminal. *)
Lemma legal_moves_Done (s : PokerGameState.t) w :
  ∃ moves t, GameState.legal_moves s w = Done (moves, mkWorld t (heap w))
    ∧ (length moves = 5 ∨ length moves = 2)
    ∧ (∀ s', s' ∈ moves →
         GameState.is_terminal s' = true ∧
         PokerGameState.hand s' = PokerGameState.hand s).
Proof.
  destruct (decide (length (PokerGameState.community_cards s) < 5)) as [Hlt|Hge].
  - destruct (legal_moves_before_river s w Hlt) as (cs & t & Hlen & Hmoves).
    eexists _, t. split; [exact Hmoves|]. split; [by left|].
    intros s' Hs'. unfold GameState.is_terminal.
    repeat (apply elem_of_cons in Hs' as [->|Hs']); simpl;
      try (by rewrite Hlen); [done|by apply elem_of_nil in Hs'].
  - rewrite (legal_moves_at_river s w Hge). eexists _, (tape w).
    destruct w as [t h]; simpl. split; [done|]. split; [by right|].
    intros s' Hs'. by repeat (apply elem_of_cons in Hs' as [->|Hs']);
      [| |apply elem_of_nil in Hs'].
Qed.

(** C3. Before the fifth community card, [legal_moves] returns five states
    in this order: the fold, which is terminal; the call, with the bet added
    to the pot; the raises by 10, 20 and 50; the call and the raises share
    one board of exactly five cards.  For no state is the result empty. *)
Theorem legal_moves_enumerated (s : PokerGameState.t) (w : World) :
  (∃ moves w', GameState.legal_moves s w = Done (moves, w') ∧ moves ≠ [])
  ∧ (length (PokerGameState.community_cards s) < 5 →
     ∃ cs w',
       length (PokerGameState.community_cards s ++ cs) = 5 ∧
       GameState.legal_moves s w = Done (
         let hand := PokerGameState.hand s in
         let board := PokerGameState.community_cards s ++ cs in
         let pot := PokerGameState.pot s in
         let bet := PokerGameState.current_bet s in
         [ PokerGameState.mk hand (PokerGameState.community_cards s) pot 0 true;
           PokerGameState.mk hand board (pot + bet) 0 false;
           PokerGameState.mk hand board (pot + bet + 10) 0 false;
           PokerGameState.mk hand board (pot + bet + 20) 0 false;
           PokerGameState.mk hand board (pot + bet + 50) 0 false ], w')%Z).
Proof.
  split.
  - destruct (legal_moves_Done s w) as (moves & t & Hmoves & Hlen & _).
    exists moves, (mkWorld t (heap w)). split; [done|].
    intros ->. simpl in Hlen. lia.
  - intros Hlt. destruct (legal_moves_before_river s w Hlt) as (cs & t & Hlen & Hm).
    eauto.
Qed.

Lemma legal_moves_enumerated_witness :
  ∃ cs w',
    length (Sample.community ++ cs) = 5 ∧
    GameState.legal_moves Sample.flop (mkWorld [] []) = Done (
      [ PokerGameState.mk Sample.hole_cards Sample.community 100 0 true;
        PokerGameState.mk Sample.hole_cards (Sample.community ++ cs) 110 0 false;
        PokerGameState.mk Sample.hole_cards (Sample.community ++ cs) 120 0 false;
        PokerGameState.mk Sample.hole_cards (Sample.community ++ cs) 130 0 false;
        PokerGameState.mk Sample.hole_cards (Sample.community ++ cs) 160 0 false ],
      w')%Z.
Proof.
  apply (proj2 (legal_moves_enumerated Sample.flop (mkWorld [] []))).
  simpl. lia.
Defined.

(** A rollout makes at most one move. *)
Lemma rollout_Done n (s : PokerGameState.t) w :
  2 ≤ n →
  ∃ final moves_made t,
    MCTS.rollout n s 0 w = Done (final, moves_made, mkWorld t (heap w))
    ∧ moves_made ≤ 1
    ∧ GameState.is_terminal final = true
    ∧ PokerGameState.hand final = PokerGameState.hand s.
Proof.
  intros Hn. destruct n as [|[|n]]; [lia..|]. cbn [MCTS.rollout].
  destruct (GameState.is_terminal s) eqn:Hterm; cbn [negb].
  - exists s, 0, (tape w). destruct w. split_and!; try done; lia.
  - destruct (legal_moves_Done s w) as (moves & t & Hmoves & Hlen & Hall).
    unfold mbind at 1, M_bind at 1. rewrite Hmoves.
    destruct (choice_Done moves (mkWorld t (heap w))) as (s' & t' & Hs' & Hin).
    { intros ->. simpl in Hlen. lia. }
    unfold mbind, M_bind. rewrite Hs'. simpl.
    destruct (Hall s' Hin) as [Hterm' Hhand]. rewrite Hterm'. simpl.
    exists s', 1, t'. split_and!; try done; lia.
Qed.

(** C10. Every state that [legal_moves] returns is terminal; so a rollout
    makes at most one move before it stops, and [simulate_random_game]
    comes to the result of the game at the state where it stopped. *)
Theorem successors_terminal (s : PokerGameState.t) (w : World) :
  (∃ moves w', GameState.legal_moves s w = Done (moves, w')
     ∧ ∀ s', s' ∈ moves → GameState.is_terminal s' = true)
  ∧ (∀ fuel, 2 ≤ fuel →
     ∃ final moves_made w',
       MCTS.rollout fuel s 0 w = Done (final, moves_made, w')
       ∧ moves_made ≤ 1
       ∧ GameState.is_terminal final = true
       ∧ MCTS.simulate_random_game fuel s w = lift (GameState.game_result final) w'
       ∧ MCTS.simulate_random_game fuel s w ≠ Diverge).
Proof.
  split.
  - destruct (legal_moves_Done s w) as (moves & t & Hmoves & _ & Hall).
    exists moves, (mkWorld t (heap w)). split; [done|]. intros s' Hs'.
    by apply Hall.
  - intros fuel Hfuel.
    destruct (rollout_Done fuel s w Hfuel) as (final & k & t & Hroll & Hk & Hterm & _).
    exists final, k, (mkWorld t (heap w)).
    assert (MCTS.simulate_random_game fuel s w
            = lift (GameState.game_result final) (mkWorld t (heap w))) as Hsim.
    { unfold MCTS.simulate_random_game, mbind, M_bind. by rewrite Hroll. }
    repeat split; [done..|]. rewrite Hsim.
    by destruct (game_result_outcome final) as [(v & -> & _)|[_ ->]].
Qed.

Lemma successors_terminal_witness :
  ∃ final moves_made w',
    MCTS.rollout 2 Sample.flop 0 (mkWorld [] []) = Done (final, moves_made, w')
    ∧ moves_made ≤ 1
    ∧ GameState.is_terminal final = true
    ∧ MCTS.simulate_random_game 2 Sample.flop (mkWorld [] [])
      = lift (GameState.game_result final) w'
    ∧ MCTS.simulate_random_game 2 Sample.flop (mkWorld [] []) ≠ Diverge.
Proof.
  apply (proj2 (successors_terminal Sample.flop (mkWorld [] [])) 2). lia.
Defined.

(** ** Nodes *)

Lemma get_Done h r n t :
  h !! r = Some n → Node.get r (mkWorld t h) = Done (n, mkWorld t h).
Proof. intros Hr. unfold Node.get, Node.deref. simpl. by rewrite Hr. Qed.

Lemma update_Done h r n t v :
  h !! r = Some n →
  Node.update r v (mkWorld t h) =
  Done (tt, mkWorld t (<[r:=NodeData.mk (NodeData.state n) (NodeData.parent n)
                         (NodeData.children n) (NodeData.wins n + v)
                         (NodeData.visits n + 1)]> h)).
Proof.
  intros Hr. pose proof (lookup_lt_Some _ _ _ Hr) as Hlt.
  unfold Node.update, mbind, M_bind. rewrite (get_Done _ _ _ _ Hr).
  unfold Node.put at 1. simpl.
  erewrite get_Done by (by apply list_lookup_insert_eq).
  unfold Node.put. simpl. by rewrite list_insert_insert_eq.
Qed.

Lemma add_child_Done h r n t s' :
  h !! r = Some n →
  Node.add_child r s' (mkWorld t h) =
  Done (length h,
        mkWorld t (<[r:=NodeData.mk (NodeData.state n) (NodeData.parent n)
                      (NodeData.children n ++ [length h]) (NodeData.wins n)
                      (NodeData.visits n)]>
                   (h ++ [NodeData.mk s' (Some r) [] 0 0]))).
Proof.
  intros Hr. pose proof (lookup_lt_Some _ _ _ Hr) as Hlt.
  unfold Node.add_child, mbind, M_bind, Node.init. simpl.
  erewrite get_Done by (by rewrite lookup_app_l). done.
Qed.

Lemma fully_expanded_Done h r n t :
  h !! r = Some n →
  ∃ (moves : list PokerGameState.t) t',
    Node.fully_expanded r (mkWorld t h) =
      Done (bool_decide (length (NodeData.children n) = length moves), mkWorld t' h)
    ∧ (length moves = 5 ∨ length moves = 2).
Proof.
  intros Hr. unfold Node.fully_expanded, mbind, M_bind.
  rewrite (get_Done _ _ _ _ Hr).
  destruct (legal_moves_Done (NodeData.state n) (mkWorld t h))
    as (moves & t' & Hmoves & Hlen & _).
  rewrite Hmoves. by exists moves, t'.
Qed.

Section tree.
Context `{PyFloat}.
Context (root : ref) (hand0 : list Card.t).

Lemma max_loop_Done {A} (key : A → Res float) l best kbest :
  (∀ x, x ∈ l → ∃ k, key x = Done k) →
  ∃ y, max_loop key l best kbest = Done y ∧ (y = best ∨ y ∈ l).
Proof.
  revert best kbest. induction l as [|x l IH]; intros best kbest Hkeys; simpl.
  - eauto.
  - destruct (Hkeys x) as [kx ->]; [left|]. simpl.
    destruct (fgt kx kbest).
    + destruct (IH x kx) as (y & -> & Hy); [by intros; apply Hkeys; right|].
      exists y. split; [done|]. right. destruct Hy as [->|Hy]; [left|by right].
    + destruct (IH best kbest) as (y & -> & Hy); [by intros; apply Hkeys; right|].
      exists y. split; [done|]. destruct Hy as [->|Hy]; [by left|by right; right].
Qed.

Lemma py_max_Done {A} (key : A → Res float) l :
  l ≠ [] → (∀ x, x ∈ l → ∃ k, key x = Done k) →
  ∃ y, py_max key l = Done y ∧ y ∈ l.
Proof.
  intros Hne Hkeys. destruct l as [|x l]; [done|]. simpl.
  destruct (Hkeys x) as [kx ->]; [left|]. simpl.
  destruct (max_loop_Done key l x kx) as (y & -> & Hy);
    [by intros; apply Hkeys; right|].
  exists y. split; [done|]. destruct Hy as [->|Hy]; [left|by right].
Qed.

(** At the root, [best_child] divides by visit counts of one or more. *)
Lemma best_child_root_Done h n t :
  tree_inv root hand0 h None → h !! root = Some n → NodeData.children n ≠ [] →
  ∃ c, Node.best_child root (mkWorld t h) = Done (c, mkWorld t h)
       ∧ c ∈ NodeData.children n.
Proof.
  intros [Hroot Hinv] Hn Hkids.
  destruct (Hinv root n) as (_ & _ & Hchildren & Hparent & _); [done..|].
  unfold Node.best_child, Node.best_child_with, Node.deref. simpl.
  rewrite Hn. simpl. rewrite Hparent by done.
  destruct (py_max_Done (Node.exploitation h) (NodeData.children n))
    as (c & -> & Hc); [done| |by eauto].
  intros c Hc. destruct (Hchildren c Hc) as [Hlt Hsize].
  destruct (lookup_lt_is_Some_2 h c Hsize) as [cn Hcn].
  destruct (Hinv c cn) as (_ & _ & _ & _ & Hnonroot); [lia|done|].
  destruct Hnonroot as (_ & _ & Hvisits); [lia|].
  unfold Node.exploitation, Node.deref, int_truediv. rewrite Hcn. simpl.
  rewrite decide_False by (specialize (Hvisits ltac:(done)); lia). eauto.
Qed.

Lemma tree_inv_update h pending i n wins' :
  tree_inv root hand0 h pending → root ≤ i → h !! i = Some n →
  pending = None ∨ pending = Some i →
  tree_inv root hand0
    (<[i:=NodeData.mk (NodeData.state n) (NodeData.parent n)
           (NodeData.children n) wins' (NodeData.visits n + 1)]> h) None.
Proof.
  intros [Hroot Hinv] Hi Hn Hpending. split; [by rewrite length_insert|].
  intros j m Hj. rewrite length_insert.
  destruct (decide (i = j)) as [<-|Hne].
  - rewrite list_lookup_insert_eq by (by eapply lookup_lt_Some).
    intros [= <-]. destruct (Hinv i n Hi Hn) as (Hh & Hv & Hc & Hp & Hnr).
    split_and!; simpl; [done|lia|done|done|].
    intros Hnonroot. destruct (Hnr Hnonroot) as (Hparent & Hterm & _).
    split_and!; [done|done|]. intros _. lia.
  - rewrite list_lookup_insert_ne by done. intros Hm.
    destruct (Hinv j m Hj Hm) as (Hh & Hv & Hc & Hp & Hnr).
    split_and!; [done|done|done|done|].
    intros Hnonroot. destruct (Hnr Hnonroot) as (Hparent & Hterm & Hvisits).
    split_and!; [done|done|]. intros _. apply Hvisits.
    destruct Hpending as [->| ->]; congruence.
Qed.

Lemma tree_inv_add_child h node n s' :
  tree_inv root hand0 h None → root ≤ node → h !! node = Some n →
  PokerGameState.hand s' = hand0 → GameState.is_terminal s' = true →
  tree_inv root hand0
    (<[node:=NodeData.mk (NodeData.state n) (NodeData.parent n)
              (NodeData.children n ++ [length h]) (NodeData.wins n)
              (NodeData.visits n)]> (h ++ [NodeData.mk s' (Some node) [] 0 0]))
    (Some (length h)).
Proof.
  intros [Hroot Hinv] Hnode Hn Hhand Hterm.
  pose proof (lookup_lt_Some _ _ _ Hn) as Hlt.
  split; [rewrite length_insert, length_app; simpl; lia|].
  intros j m Hj. rewrite length_insert, length_app. simpl.
  destruct (decide (node = j)) as [<-|Hne].
  - rewrite list_lookup_insert_eq by (rewrite length_app; simpl; lia).
    intros [= <-]. destruct (Hinv node n Hnode Hn) as (Hh & Hv & Hc & Hp & Hnr).
    split_and!; simpl; [done|done| |done|].
    + intros c [Hin| ->%list_elem_of_singleton]%elem_of_app; [|lia].
      destruct (Hc c Hin). lia.
    + intros Hnonroot. destruct (Hnr Hnonroot) as (Hparent & Hterm' & Hvisits).
      split_and!; [done|done|]. intros _. by apply Hvisits.
  - rewrite list_lookup_insert_ne by done.
    intros [[Hjlt Hm]|[-> <-]]%lookup_snoc_Some.
    + destruct (Hinv j m Hj Hm) as (Hh & Hv & Hc & Hp & Hnr).
      split_and!; [done|done| |done|].
      * intros c Hin. destruct (Hc c Hin). lia.
      * intros Hnonroot. destruct (Hnr Hnonroot) as (Hparent & Hterm' & Hvisits).
        split_and!; [done|done|]. intros _. by apply Hvisits.
    + split_and!; simpl; [done|done| | |].
      * by intros c ?%elem_of_nil.
      * intros Heq. lia.
      * intros _. split_and!; [|done|by intros []].
        exists node. split; [done|lia].
Qed.
End tree.

(** ** One simulation *)

Section simulation.
Context `{PyFloat}.
Context (root : ref) (hand0 : list Card.t).

Lemma root_has_child_insert h i n wins' visits' :
  h !! i = Some n → root_has_child root h →
  root_has_child root
    (<[i:=NodeData.mk (NodeData.state n) (NodeData.parent n)
           (NodeData.children n) wins' visits']> h).
Proof.
  intros Hi (m & Hm & Hkids). unfold root_has_child.
  destruct (decide (i = root)) as [->|Hne].
  - rewrite list_lookup_insert_eq by (by eapply lookup_lt_Some).
    simplify_eq. eauto.
  - rewrite list_lookup_insert_ne by done. eauto.
Qed.

(** Selection stops at the root or at one of its children. *)
Lemma select_spec fuel h t :
  tree_inv root hand0 h None → 2 ≤ fuel →
  ∃ node t', MCTS.select fuel root (mkWorld t h) = Done (node, mkWorld t' h)
    ∧ root ≤ node < length h
    ∧ (node = root ∨ root_has_child root h).
Proof.
  intros Hinv Hfuel. destruct fuel as [|[|fuel]]; [lia..|].
  pose proof Hinv as [Hroot Hnodes].
  destruct (lookup_lt_is_Some_2 h root Hroot) as [n Hn].
  destruct (fully_expanded_Done h root n t Hn) as (moves & t1 & Hfe & Hlen).
  cbn [MCTS.select]. unfold mbind at 1, M_bind at 1. rewrite Hfe.
  case_bool_decide as Hfull; [|exists root, t1; split; [done|]; split; [lia|by left]].
  unfold mbind at 1, M_bind at 1. rewrite (get_Done _ _ _ _ Hn).
  destruct (GameState.is_terminal (NodeData.state n)); cbn [negb];
    [exists root, t1; split; [done|]; split; [lia|by left]|].
  assert (NodeData.children n ≠ []) as Hkids.
  { intros Hnil. rewrite Hnil in Hfull. simpl in Hfull. lia. }
  destruct (best_child_root_Done root hand0 h n t1 Hinv Hn Hkids) as (c & Hbest & Hc).
  unfold mbind at 1, M_bind at 1. rewrite Hbest.
  destruct (Hnodes root n) as (_ & _ & Hchildren & _); [done..|].
  destruct (Hchildren c Hc) as [Hlt Hsize].
  destruct (lookup_lt_is_Some_2 h c Hsize) as [cn Hcn].
  destruct (Hnodes c cn) as (_ & _ & _ & _ & Hnonroot); [lia|done|].
  destruct Hnonroot as (_ & Hterm & _); [lia|].
  destruct (fully_expanded_Done h c cn t1 Hcn) as (moves' & t2 & Hfe' & _).
  unfold mbind at 1, M_bind at 1. rewrite Hfe'.
  exists c, t2. split; [|split; [lia|right; by exists n]].
  case_bool_decide; [|done].
  unfold mbind, M_bind. rewrite (get_Done _ _ _ _ Hcn), Hterm. done.
Qed.

(** Expansion adds at most one node, a terminal one, not yet visited. *)
Lemma expand_spec h t node :
  tree_inv root hand0 h None → root ≤ node < length h →
  ∃ node' t' h' pending,
    MCTS.expand node (mkWorld t h) = Done (node', mkWorld t' h')
    ∧ tree_inv root hand0 h' pending
    ∧ root ≤ node' < length h'
    ∧ (pending = None ∨ pending = Some node')
    ∧ length h' ≤ S (length h)
    ∧ (root_has_child root h → root_has_child root h')
    ∧ (node = root → root_has_child root h').
Proof.
  intros Hinv [Hnode Hsize]. pose proof Hinv as [Hroot Hnodes].
  destruct (lookup_lt_is_Some_2 h node Hsize) as [n Hn].
  destruct (fully_expanded_Done h node n t Hn) as (moves & t1 & Hfe & Hlen).
  unfold MCTS.expand. unfold mbind at 1, M_bind at 1. rewrite Hfe.
  case_bool_decide as Hfull; cbn [negb].
  - exists node, t1, h, None. split_and!; try done; try lia; [by left|].
    intros ->. exists n. split; [done|]. intros Hnil.
    rewrite Hnil in Hfull. simpl in Hfull. lia.
  - unfold mbind at 1, M_bind at 1. rewrite (get_Done _ _ _ _ Hn).
    destruct (legal_moves_Done (NodeData.state n) (mkWorld t1 h))
      as (moves2 & t2 & Hmoves & Hlen2 & Hall).
    cbn [heap] in Hmoves.
    unfold mbind at 1, M_bind at 1. rewrite Hmoves.
    destruct (choice_Done moves2 (mkWorld t2 h)) as (s' & t3 & Hchoice & Hin).
    { intros ->. simpl in Hlen2. lia. }
    cbn [heap] in Hchoice.
    unfold mbind, M_bind. rewrite Hchoice. simpl.
    rewrite (add_child_Done _ _ _ _ _ Hn).
    destruct (Hall s' Hin) as [Hterm Hhand].
    destruct (Hnodes node n Hnode Hn) as (Hh & _).
    eexists (length h), t3, _, (Some (length h)). split; [done|].
    split; [apply tree_inv_add_child; try done; congruence|].
    rewrite length_insert, length_app. simpl.
    split_and!; try lia; [by right| |].
    + intros (m & Hm & Hkids). unfold root_has_child.
      destruct (decide (node = root)) as [->|Hne].
      * rewrite list_lookup_insert_eq by (rewrite length_app; simpl; lia).
        eexists. split; [done|]. simpl. by intros [_ [=]]%app_eq_nil.
      * rewrite list_lookup_insert_ne, lookup_app_l by done. eauto.
    + intros ->. unfold root_has_child.
      rewrite list_lookup_insert_eq by (rewrite length_app; simpl; lia).
      eexists. split; [done|]. simpl. by intros [_ [=]]%app_eq_nil.
Qed.

(** Backpropagation visits the node it starts from. *)
Lemma backpropagate_spec fuel v t :
  ∀ node h pending,
    tree_inv root hand0 h pending → root ≤ node < length h →
    pending = None ∨ pending = Some node →
    node - root + 2 ≤ fuel →
    ∃ h', MCTS.backpropagate fuel (Some node) v (mkWorld t h) = Done (tt, mkWorld t h')
      ∧ tree_inv root hand0 h' None
      ∧ length h' = length h
      ∧ (root_has_child root h → root_has_child root h').
Proof.
  induction fuel as [|fuel IH]; intros node h pending Hinv [Hnode Hsize] Hpending Hfuel;
    [lia|].
  destruct (lookup_lt_is_Some_2 h node Hsize) as [n Hn].
  cbn [MCTS.backpropagate]. unfold mbind at 1, M_bind at 1.
  rewrite (update_Done _ _ _ _ _ Hn).
  set (n' := NodeData.mk _ _ _ _ _).
  assert (<[node:=n']> h !! node = Some n') as Hn'
    by (by apply list_lookup_insert_eq).
  unfold mbind, M_bind. rewrite (get_Done _ _ _ _ Hn').
  pose proof (tree_inv_update root hand0 h pending node n (NodeData.wins n + v)%Z
                Hinv Hnode Hn Hpending) as Hinv'.
  fold n' in Hinv'.
  destruct Hinv as [Hroot Hnodes].
  destruct (Hnodes node n Hnode Hn) as (_ & _ & _ & Hparent & Hnonroot).
  destruct (decide (node = root)) as [->|Hne].
  - simpl. rewrite Hparent by done.
    destruct fuel as [|fuel]; [lia|]. simpl.
    exists (<[root:=n']> h). split_and!; try done.
    + by rewrite length_insert.
    + by apply root_has_child_insert.
  - destruct Hnonroot as ((p & Hp & Hprange) & _); [done|].
    simpl. rewrite Hp.
    destruct (IH p (<[node:=n']> h) None) as (h' & Hback & Hinv'' & Hlen & Hkids);
      [done|rewrite length_insert; lia|by left|lia|].
    exists h'. split_and!; try done.
    + by rewrite Hlen, length_insert.
    + intros Hc. by apply Hkids, root_has_child_insert.
Qed.

(** A simulation keeps the tree in shape; it fails only in the rollout,
    when the hand and the board are empty. *)
Lemma simulation_spec fuel h t :
  tree_inv root hand0 h None → length h - root + 2 ≤ fuel →
  (∃ t' h', MCTS.simulation fuel root (mkWorld t h) = Done (tt, mkWorld t' h')
     ∧ tree_inv root hand0 h' None
     ∧ length h' ≤ S (length h)
     ∧ root_has_child root h')
  ∨ (hand0 = [] ∧ MCTS.simulation fuel root (mkWorld t h) = Raise ValueError).
Proof.
  intros Hinv Hfuel. unfold MCTS.simulation.
  destruct (select_spec fuel h t Hinv) as (node & t1 & Hsel & Hnode & Hkids); [lia|].
  rewrite (M_bind_step _ _ _ _ _ Hsel).
  destruct (expand_spec h t1 node Hinv Hnode)
    as (node' & t2 & h' & pending & Hexp & Hinv' & Hnode' & Hpending & Hlen & Hk1 & Hk2).
  rewrite (M_bind_step _ _ _ _ _ Hexp).
  destruct (lookup_lt_is_Some_2 h' node' (proj2 Hnode')) as [n' Hn'].
  rewrite (M_bind_step _ _ _ _ _ (get_Done _ _ _ t2 Hn')).
  destruct (rollout_Done fuel (NodeData.state n') (mkWorld t2 h'))
    as (final & k & t3 & Hroll & _ & _ & Hhand); [lia|].
  cbn [heap] in Hroll.
  destruct (proj2 Hinv' node' n' (proj1 Hnode') Hn') as (Hh & _).
  assert (MCTS.simulate_random_game fuel (NodeData.state n') (mkWorld t2 h')
          = lift (GameState.game_result final) (mkWorld t3 h')) as Hsim.
  { unfold MCTS.simulate_random_game. by rewrite (M_bind_step _ _ _ _ _ Hroll). }
  destruct (game_result_outcome final) as [(v & Hv & _)|[Hnil Hraise]].
  - left. rewrite Hv in Hsim. rewrite (M_bind_step _ _ _ _ _ Hsim).
    destruct (backpropagate_spec fuel v t3 node' h' pending Hinv' Hnode' Hpending)
      as (h'' & Hback & Hinv'' & Hlen' & Hk3); [lia|].
    exists t3, h''. split_and!; try done; [lia|].
    apply Hk3. destruct Hkids as [->|Hkids]; auto.
  - right. rewrite Hraise in Hsim. rewrite (M_bind_raise _ _ _ _ Hsim).
    split; [|done]. apply app_eq_nil in Hnil as [Hnil _]. congruence.
Qed.

Lemma simulations_spec fuel n :
  ∀ h t,
    tree_inv root hand0 h None → length h - root + 1 + n ≤ fuel →
    (∃ t' h', MCTS.simulations fuel n root (mkWorld t h) = Done (tt, mkWorld t' h')
       ∧ tree_inv root hand0 h' None
       ∧ (0 < n → root_has_child root h'))
    ∨ (hand0 = [] ∧ MCTS.simulations fuel n root (mkWorld t h) = Raise ValueError).
Proof.
  induction n as [|n IH]; intros h t Hinv Hfuel; simpl.
  - left. exists t, h. split_and!; try done. lia.
  - destruct (simulation_spec fuel h t Hinv)
      as [(t1 & h1 & Hsim & Hinv1 & Hlen & Hkids)|[Hnil Hsim]]; [lia| |].
    + rewrite (M_bind_step _ _ _ _ _ Hsim).
      destruct (IH h1 t1 Hinv1) as [(t2 & h2 & Hsims & Hinv2 & Hkids2)|[Hnil Hsims]];
        [lia| |by right].
      left. exists t2, h2. split_and!; try done. intros _.
      destruct n as [|n]; [|apply Hkids2; lia].
      cbv in Hsims. by simplify_eq.
    + right. by rewrite (M_bind_raise _ _ _ _ Hsim).
Qed.

(** A new root is a tree in shape. *)
Lemma tree_inv_init h0 s :
  tree_inv (length h0) (PokerGameState.hand s)
    (h0 ++ [NodeData.mk s None [] 0 0]) None.
Proof.
  split; [rewrite length_app; simpl; lia|].
  intros i n Hi [[Hlt _]|[-> <-]]%lookup_snoc_Some; [lia|].
  split_and!; simpl; try done.
  intros c []%elem_of_nil.
Qed.
End simulation.

(** ** The claims about the search *)

(** C9. In a run of [choose_move], with any floats and any random draws,
    [best_child] never divides by a visit count of zero: a node made by
    expansion is visited by the backpropagation of the same simulation,
    before any selection can compare it.  With a hand to classify the run
    returns a state, and every node below the root has then been visited.
    (The budget of 1002 passes per [while] loop is one no loop of the run
    exhausts.) *)
Theorem choose_move_visits_before_compare `{PyFloat} (fuel : nat)
    (s : PokerGameState.t) (w : World) :
  1002 ≤ fuel →
  MCTS.choose_move fuel s w ≠ Raise ZeroDivisionError
  ∧ (PokerGameState.hand s ≠ [] →
     ∃ s' w', MCTS.choose_move fuel s w = Done (s', w')
       ∧ ∀ i n, length (heap w) < i → heap w' !! i = Some n →
                (1 ≤ NodeData.visits n)%Z).
Proof.
  intros Hfuel. destruct w as [t h0]. unfold MCTS.choose_move.
  set (h := h0 ++ [NodeData.mk s None [] 0 0]).
  assert (Node.init s None (mkWorld t h0) = Done (length h0, mkWorld t h)) as Hinit
    by done.
  rewrite (M_bind_step _ _ _ _ _ Hinit).
  pose proof (tree_inv_init h0 s) as Hinv. fold h in Hinv.
  destruct (simulations_spec (length h0) (PokerGameState.hand s) fuel 1000 h t Hinv)
    as [(t' & h' & Hsims & Hinv' & Hkids)|[Hnil Hsims]].
  { unfold h. rewrite length_app. simpl. lia. }
  - rewrite (M_bind_step _ _ _ _ _ Hsims).
    destruct Hkids as (n & Hn & Hkids); [lia|].
    destruct (best_child_root_Done _ _ h' n t' Hinv' Hn Hkids) as (c & Hbest & Hc).
    rewrite (M_bind_step _ _ _ _ _ Hbest).
    destruct Hinv' as [Hroot Hnodes].
    destruct (Hnodes _ n (le_n _) Hn) as (_ & _ & Hchildren & _).
    destruct (lookup_lt_is_Some_2 h' c) as [cn Hcn]; [by apply Hchildren|].
    rewrite (M_bind_step _ _ _ _ _ (get_Done _ _ _ t' Hcn)).
    split; [done|]. intros _. eexists _, _. split; [done|].
    simpl. intros i m Hi Hm.
    destruct (Hnodes i m) as (_ & _ & _ & _ & Hnonroot); [lia|done|].
    destruct Hnonroot as (_ & _ & Hvisits); [lia|]. by apply Hvisits.
  - rewrite (M_bind_raise _ _ _ _ Hsims). split; [done|]. by intros [].
Qed.

Lemma choose_move_visits_before_compare_witness :
  @MCTS.choose_move RealFloat 1002 Sample.flop (mkWorld [] [])
    ≠ Raise ZeroDivisionError
  ∧ ∃ s' w', @MCTS.choose_move RealFloat 1002 Sample.flop (mkWorld [] [])
               = Done (s', w')
       ∧ ∀ i n, 0 < i → heap w' !! i = Some n → (1 ≤ NodeData.visits n)%Z.
Proof.
  destruct (@choose_move_visits_before_compare RealFloat 1002 Sample.flop
              (mkWorld [] [])) as [Hsafe Hdone]; [lia|].
  split; [exact Hsafe|]. apply Hdone. discriminate.
Defined.

(** ** Ranking the children *)

Section ranking.
Open Scope R_scope.

Lemma ln_3_ge_1 : 1 <= ln 3.
Proof.
  rewrite <-(ln_exp 1) at 1. destruct exp_le_3 as [Hlt|Heq].
  - left. apply ln_increasing; [apply exp_pos|done].
  - right. by rewrite Heq.
Qed.

Lemma ln_27_ge_3 : 3 <= ln 27.
Proof.
  replace 27 with (3 ^ 3) by lra. rewrite ln_pow by lra. simpl.
  pose proof ln_3_ge_1. lra.
Qed.

Lemma ln_6_lt_2 : ln 6 < 2.
Proof.
  assert (ln (9 / 8) < 1 / 8) as Hstep.
  { rewrite <-(ln_exp (1 / 8)). apply ln_increasing; [lra|].
    pose proof (exp_ineq1 (1 / 8)). lra. }
  assert (ln 6 < ln ((9 / 8) ^ 16)) as Hpow.
  { apply ln_increasing; [lra|]. simpl. lra. }
  rewrite ln_pow in Hpow by lra. simpl in Hpow. lra.
Qed.

Lemma sqrt_quarter x : 0 <= x → sqrt (x / 4) = sqrt x / 2.
Proof.
  intros Hx. rewrite sqrt_div by lra. f_equal.
  replace 4 with (2 * 2) by lra. apply sqrt_square. lra.
Qed.

Lemma sqrt_gt_bound b x : 0 <= b → b * b < x → b < sqrt x.
Proof.
  intros Hb Hx. rewrite <-(sqrt_square b) at 1 by done.
  apply sqrt_lt_1; nra.
Qed.

Lemma sqrt_lt_bound b x : 0 <= b → 0 <= x → x < b * b → sqrt x < b.
Proof.
  intros Hb Hx0 Hx. rewrite <-(sqrt_square b) by done.
  apply sqrt_lt_1; nra.
Qed.
End ranking.

Lemma ucb1_real h p pn c cn :
  h !! p = Some pn → h !! c = Some cn →
  (1 ≤ NodeData.visits pn)%Z → (1 ≤ NodeData.visits cn)%Z →
  @Node.ucb1 RealFloat h (141 / 100)%R p c = Done (ucb1_score (NodeData.visits pn) cn).
Proof.
  intros Hp Hc Hpv Hcv.
  unfold Node.ucb1, Node.deref, int_truediv, float_truediv, math_log, math_sqrt.
  rewrite Hp, Hc. simpl. rewrite !decide_False by lia. simpl.
  rewrite !decide_False by lia. simpl.
  assert (0 <= ln (IZR (NodeData.visits pn)) / IZR (NodeData.visits cn))%R as Hq.
  { apply Rle_mult_inv_pos.
    - rewrite <-ln_1. assert (1 <= IZR (NodeData.visits pn))%R as [Hlt|Heq]
        by (by apply IZR_le).
      + left. apply ln_increasing; lra.
      + right. by rewrite <-Heq.
    - apply IZR_lt. lia. }
  destruct (Rgt_dec 0 _) as [Hgt|_]; [lra|done].
Qed.

Section rounding.
Context (F : PyFloat) (fin : @float F → Prop) (val : @float F → R).
Hypothesis rounds : Rounds F fin val.
Open Scope R_scope.

Lemma close_to_pos v r :
  0 <= r → close_to v r → 999 / 1000 * r <= v <= 1001 / 1000 * r.
Proof using Type.
  unfold close_to. intros Hr Hv. rewrite (Rabs_pos_eq r) in Hv by done.
  unfold Rabs in Hv. destruct (Rcase_abs _); lra.
Qed.

Lemma close_to_0 v : close_to v 0 → v = 0.
Proof using Type.
  unfold close_to. rewrite Rabs_R0, Rminus_0_r. intros Hv.
  unfold Rabs in Hv. destruct (Rcase_abs _); lra.
Qed.

Lemma in_range_pos r : 1 / 1000000 <= r <= 1000000 → in_range r.
Proof using Type. intros Hr. right. rewrite Rabs_pos_eq; lra. Qed.

Lemma ln_27_lt_26 : ln 27 < 26.
Proof using Type.
  rewrite <-(ln_exp 26). apply ln_increasing; [lra|].
  pose proof (exp_ineq1 26). lra.
Qed.

(** In [Sample.tree], rounding does not change the choice: the score of
    node 3 stays above that of node 2. *)
Lemma sample_tree_rounded :
  @Node.best_child F 1 (mkWorld [] Sample.tree) = Done (3%nat, mkWorld [] Sample.tree).
Proof using rounds.
  destruct (rounds_int _ _ _ rounds 0) as [Hf0 Hv0]; [lia|].
  destruct (rounds_int _ _ _ rounds 1) as [Hf1 Hv1]; [lia|].
  destruct (rounds_int _ _ _ rounds 4) as [Hf4 Hv4]; [lia|].
  destruct (rounds_int _ _ _ rounds 27) as [Hf27 Hv27]; [lia|].
  destruct (rounds_weight _ _ _ rounds) as [Hfw Hw].
  apply close_to_pos in Hw; [|lra].
  pose proof ln_27_ge_3 as Hln3. pose proof ln_27_lt_26 as Hln26.
  (* the logarithm of the visits of the parent *)
  destruct (rounds_log _ _ _ rounds (of_int 27)) as [HfL HL];
    [done|rewrite Hv27; lra|rewrite Hv27; apply in_range_pos; lra|].
  rewrite Hv27 in HL. apply close_to_pos in HL; [|lra].
  set (L := flog (of_int 27)) in *.
  set (S := sqrt (val L)).
  assert (S * S = val L) as HSS by (apply sqrt_sqrt; lra).
  assert (173 / 100 < S) as HSlo by (apply sqrt_gt_bound; lra).
  assert (S < 52 / 10) as HShi by (apply sqrt_lt_bound; lra).
  (* node 2: 4 wins in 4 visits *)
  destruct (rounds_div _ _ _ rounds (of_int 4) (of_int 4)) as [Hfa2 Ha2];
    [done|done|rewrite Hv4; lra|rewrite Hv4; apply in_range_pos; lra|].
  rewrite Hv4 in Ha2. replace (4 / 4) with 1 in Ha2 by lra.
  apply close_to_pos in Ha2; [|lra].
  destruct (rounds_div _ _ _ rounds L (of_int 4)) as [Hfq2 Hq2];
    [done|done|rewrite Hv4; lra|rewrite Hv4; apply in_range_pos; lra|].
  rewrite Hv4 in Hq2. apply close_to_pos in Hq2; [|lra].
  set (q2 := fdiv L (of_int 4)) in *.
  assert (1 / 2 < sqrt (val q2)) as Hr2lo by (apply sqrt_gt_bound; lra).
  assert (sqrt (val q2) <= 5005 / 10000 * S) as Hr2hi.
  { rewrite <-(sqrt_square (5005 / 10000 * S)) by lra. apply sqrt_le_1; nra. }
  destruct (rounds_sqrt _ _ _ rounds q2) as [Hfs2 Hs2];
    [done|lra|apply in_range_pos; lra|].
  apply close_to_pos in Hs2; [|lra].
  set (s2 := fsqrt q2) in *.
  assert (7 / 10 <= val lit_1_41 * val s2 <= 4) as Hp2 by nra.
  destruct (rounds_mul _ _ _ rounds lit_1_41 s2) as [Hfm2 Hm2];
    [done|done|apply in_range_pos; lra|].
  apply close_to_pos in Hm2; [|lra].
  set (m2 := fmul lit_1_41 s2) in *.
  destruct (rounds_add _ _ _ rounds (fdiv (of_int 4) (of_int 4)) m2) as [Hfk2 Hk2];
    [done|done|apply in_range_pos; lra|].
  apply close_to_pos in Hk2; [|lra].
  (* node 3: no win in 1 visit *)
  destruct (rounds_div _ _ _ rounds (of_int 0) (of_int 1)) as [Hfa3 Ha3];
    [done|done|rewrite Hv1; lra|rewrite Hv0, Hv1; left; lra|].
  rewrite Hv0, Hv1 in Ha3. replace (0 / 1) with 0 in Ha3 by lra.
  apply close_to_0 in Ha3.
  destruct (rounds_div _ _ _ rounds L (of_int 1)) as [Hfq3 Hq3];
    [done|done|rewrite Hv1; lra|rewrite Hv1; apply in_range_pos; lra|].
  rewrite Hv1 in Hq3. apply close_to_pos in Hq3; [|lra].
  set (q3 := fdiv L (of_int 1)) in *.
  assert (999 / 1000 * S <= sqrt (val q3)) as Hr3lo.
  { rewrite <-(sqrt_square (999 / 1000 * S)) by lra. apply sqrt_le_1; nra. }
  assert (sqrt (val q3) < 6) as Hr3hi by (apply sqrt_lt_bound; lra).
  destruct (rounds_sqrt _ _ _ rounds q3) as [Hfs3 Hs3];
    [done|lra|apply in_range_pos; lra|].
  apply close_to_pos in Hs3; [|lra].
  set (s3 := fsqrt q3) in *.
  assert (2 <= val lit_1_41 * val s3 <= 9) as Hp3 by nra.
  destruct (rounds_mul _ _ _ rounds lit_1_41 s3) as [Hfm3 Hm3];
    [done|done|apply in_range_pos; lra|].
  apply close_to_pos in Hm3; [|lra].
  set (m3 := fmul lit_1_41 s3) in *.
  destruct (rounds_add _ _ _ rounds (fdiv (of_int 0) (of_int 1)) m3) as [Hfk3 Hk3];
    [done|done|rewrite Ha3; apply in_range_pos; lra|].
  rewrite Ha3 in Hk3. apply close_to_pos in Hk3; [|lra].
  (* the two scores, and their comparison *)
  assert (val (fadd (fdiv (of_int 0) (of_int 1)) m3)
          > val (fadd (fdiv (of_int 4) (of_int 4)) m2)) as Hgt.
  { assert (val m2 <= 7079 / 10000 * S) by nra.
    assert (14043 / 10000 * S <= val m3) by nra.
    nra. }
  apply (rounds_gt _ _ _ rounds) in Hgt; [|done..].
  assert (fgt (of_int 0) q2 = false) as Hguard2.
  { destruct (fgt (of_int 0) q2) eqn:Hg; [|done].
    apply (rounds_gt _ _ _ rounds) in Hg; [|done..]. lra. }
  assert (fgt (of_int 0) q3 = false) as Hguard3.
  { destruct (fgt (of_int 0) q3) eqn:Hg; [|done].
    apply (rounds_gt _ _ _ rounds) in Hg; [|done..]. lra. }
  unfold Node.best_child, Node.best_child_with, Node.ucb1, Node.deref,
    int_truediv, float_truediv, math_log, math_sqrt.
  simpl. fold L. fold q2. fold q3. rewrite Hguard2. simpl. rewrite Hguard3. simpl.
  fold s2 s3 m2 m3. by rewrite Hgt.
Qed.
End rounding.

(** The reals round, trivially. *)
Lemma RealFloat_rounds : Rounds RealFloat (λ _, True) (λ x, x).
Proof.
  assert (∀ r : R, close_to r r) as Hclose.
  { intros r. unfold close_to. rewrite Rminus_diag, Rabs_R0.
    pose proof (Rabs_pos r). lra. }
  split; simpl; try done.
  intros x y _ _. destruct (Rgt_dec x y); naive_solver.
Qed.

(** C5, as the specification states it, fails.  In [Sample.tree],
    [best_child] of node 1 is node 3, but with the visits of node 1 itself
    under the logarithm node 2 scores higher than node 3.  The choice of
    node 3 is that of exact arithmetic and of every arithmetic that
    rounds. *)
Lemma best_child_not_by_own_visits :
  @Node.best_child RealFloat 1 (mkWorld [] Sample.tree)
    = Done (3, mkWorld [] Sample.tree)
  ∧ NodeData.visits Sample.node1 = 6%Z
  ∧ (ucb1_score 6 Sample.node3 < ucb1_score 6 Sample.node2)%R
  ∧ (∀ (F : PyFloat) (fin : @float F → Prop) (val : @float F → R),
       Rounds F fin val →
       @Node.best_child F 1 (mkWorld [] Sample.tree)
       = Done (3, mkWorld [] Sample.tree)).
Proof.
  split_and!; [|done| |apply sample_tree_rounded].
  - unfold Node.best_child, Node.best_child_with. simpl.
    rewrite (ucb1_real Sample.tree 0 _ 2 _ eq_refl eq_refl) by done.
    simpl. rewrite (ucb1_real Sample.tree 0 _ 3 _ eq_refl eq_refl) by done.
    simpl. unfold ucb1_score. simpl.
    destruct (Rgt_dec _ _) as [_|Hle]; [done|]. exfalso. apply Hle.
    pose proof ln_27_ge_3 as Hln.
    rewrite sqrt_quarter by lra. rewrite !Rdiv_1_r.
    assert (17 / 10 < sqrt (ln 27))%R by (apply sqrt_gt_bound; lra). lra.
  - unfold ucb1_score. simpl. pose proof ln_6_lt_2 as Hln.
    assert (0 <= ln 6)%R as Hpos.
    { rewrite <-ln_1. left. apply ln_increasing; lra. }
    rewrite sqrt_quarter by lra. rewrite !Rdiv_1_r.
    assert (sqrt (ln 6) < 1415 / 1000)%R by (apply sqrt_lt_bound; lra). lra.
Qed.

Lemma RealFloat_laws : FloatLaws RealFloat.
Proof.
  split; simpl.
  - intros x. destruct (Rgt_dec x x) as [Hgt|_]; [lra|done].
  - intros x y z. destruct (Rgt_dec x y), (Rgt_dec y z), (Rgt_dec x z);
      try done; lra.
  - intros a b [Ha _] [Hb _]. destruct (Rgt_dec _ _) as [Hgt|_]; [|done].
    exfalso. apply Rgt_not_le in Hgt. apply Hgt.
    apply Rle_mult_inv_pos; [|apply IZR_lt; lia].
    rewrite <-ln_1. assert (1 <= IZR a)%R as [Hlt|Heq] by (by apply IZR_le).
    + left. apply ln_increasing; lra.
    + right. by rewrite <-Heq.
Qed.

Section maximum.
Context `{PyFloat}.
Hypothesis laws : FloatLaws H.

Lemma gt_asym (x y : float) : fgt x y = true → fgt y x = false.
Proof using laws.
  intros Hxy. destruct (fgt y x) eqn:Hyx; [|done].
  pose proof (gt_trans _ laws x y x Hxy Hyx) as Hxx.
  by rewrite (gt_irrefl _ laws) in Hxx.
Qed.

(** [max] returns an item whose key no key is greater than. *)
Lemma max_loop_greatest {A} (key : A → Res float) (g : A → float) l best :
  (∀ x, x ∈ l → key x = Done (g x)) →
  ∃ y, max_loop key l best (g best) = Done y
       ∧ (y = best ∨ y ∈ l)
       ∧ (y = best ∨ fgt (g y) (g best) = true)
       ∧ ∀ x, x ∈ l → fgt (g x) (g y) = false.
Proof using laws.
  revert best. induction l as [|x l IH]; intros best Hkeys; simpl.
  - exists best. split_and!; [done|by left|by left|]. by intros x ?%elem_of_nil.
  - rewrite (Hkeys x) by left. simpl. destruct (fgt (g x) (g best)) eqn:Hgt.
    + destruct (IH x) as (y & Hy & Hin & Hbest & Hall); [by intros; apply Hkeys; right|].
      exists y. split_and!; [done| | |].
      * right. destruct Hin as [->|Hin]; [left|by right].
      * right. destruct Hbest as [->|Hbest]; [done|].
        by apply (gt_trans _ laws _ (g x)).
      * intros x' [->|Hx']%elem_of_cons; [|by apply Hall].
        destruct Hbest as [->|Hbest]; [apply (gt_irrefl _ laws)|by apply gt_asym].
    + destruct (IH best) as (y & Hy & Hin & Hbest & Hall);
        [by intros; apply Hkeys; right|].
      exists y. split_and!; [done| |done|].
      * destruct Hin as [->|Hin]; [by left|by right; right].
      * intros x' [->|Hx']%elem_of_cons; [|by apply Hall].
        destruct Hbest as [->|Hbest]; [done|].
        destruct (fgt (g x) (g y)) eqn:Hxy; [|done].
        by rewrite (gt_trans _ laws _ _ _ Hxy Hbest) in Hgt.
Qed.

Lemma py_max_greatest {A} (key : A → Res float) (g : A → float) l :
  l ≠ [] → (∀ x, x ∈ l → key x = Done (g x)) →
  ∃ y, py_max key l = Done y ∧ y ∈ l ∧ ∀ x, x ∈ l → fgt (g x) (g y) = false.
Proof using laws.
  intros Hne Hkeys. destruct l as [|x l]; [done|]. simpl.
  rewrite (Hkeys x) by left. simpl.
  destruct (max_loop_greatest key g l x) as (y & Hy & Hin & Hbest & Hall);
    [by intros; apply Hkeys; right|].
  exists y. split_and!; [done| |].
  - destruct Hin as [->|Hin]; [left|by right].
  - intros x' [->|Hx']%elem_of_cons; [|by apply Hall].
    destruct Hbest as [->|Hbest]; [apply (gt_irrefl _ laws)|by apply gt_asym].
Qed.

Lemma exploitation_float h c cn :
  h !! c = Some cn → (1 ≤ NodeData.visits cn)%Z →
  Node.exploitation h c = Done (float_exploitation cn).
Proof using Type.
  intros Hc Hv. unfold Node.exploitation, Node.deref, int_truediv. rewrite Hc. simpl.
  by rewrite decide_False by lia.
Qed.

Lemma ucb1_float h p pn c cn :
  h !! p = Some pn → h !! c = Some cn →
  (1 ≤ NodeData.visits pn ≤ 2 ^ 53)%Z → (1 ≤ NodeData.visits cn ≤ 2 ^ 53)%Z →
  Node.ucb1 h lit_1_41 p c = Done (float_ucb1 (NodeData.visits pn) cn).
Proof using laws.
  intros Hp Hc Hpv Hcv.
  unfold Node.ucb1, Node.deref, int_truediv, float_truediv, math_log, math_sqrt.
  rewrite Hp, Hc. simpl. rewrite !decide_False by lia. simpl.
  rewrite !decide_False by lia. simpl.
  by rewrite (log_ratio_nonneg _ laws) by done.
Qed.
End maximum.

(** With no child to compare, [best_child] fails: [max] of an empty
    list. *)
Lemma best_child_no_children `{PyFloat} (h : list NodeData.t) (t : list nat)
    (self : ref) (n : NodeData.t) :
  h !! self = Some n → NodeData.children n = [] →
  Node.best_child self (mkWorld t h) = Raise ValueError.
Proof.
  intros Hself Hkids. unfold Node.best_child, Node.best_child_with, Node.deref.
  simpl. rewrite Hself. simpl. rewrite Hkids. by destruct (NodeData.parent n).
Qed.

(** C5, amended.  The scores are compared as the floats the code
    computes, of which three laws of IEEE arithmetic are used
    ([FloatLaws]); the counts are within 2^53, where an [int] converts to
    a float exactly.  For a node with one child or more, whose children
    all have one visit or more: at the root, [best_child] returns a child
    than whose [wins/visits] that of no child is greater; at a node with a
    parent that has one visit or more, it returns a child than whose
    [wins/visits + 1.41 * sqrt(log(parent visits) / visits)] that of no
    child is greater, where the visits under the logarithm are those of
    the parent of the node whose children are compared. *)
Theorem best_child_maximizes `{PyFloat} (h : list NodeData.t) (t : list nat)
    (self : ref) (n : NodeData.t) :
  FloatLaws H →
  h !! self = Some n →
  NodeData.children n ≠ [] →
  (∀ c, c ∈ NodeData.children n →
        ∃ cn, h !! c = Some cn ∧ (1 ≤ NodeData.visits cn ≤ 2 ^ 53)%Z
              ∧ (Z.abs (NodeData.wins cn) ≤ 2 ^ 53)%Z) →
  (NodeData.parent n = None →
     ∃ c cn,
       Node.best_child self (mkWorld t h) = Done (c, mkWorld t h)
       ∧ c ∈ NodeData.children n ∧ h !! c = Some cn
       ∧ ∀ c' cn', c' ∈ NodeData.children n → h !! c' = Some cn' →
           fgt (float_exploitation cn') (float_exploitation cn) = false)
  ∧ (∀ p pn, NodeData.parent n = Some p → h !! p = Some pn →
       (1 ≤ NodeData.visits pn ≤ 2 ^ 53)%Z →
     ∃ c cn,
       Node.best_child self (mkWorld t h) = Done (c, mkWorld t h)
       ∧ c ∈ NodeData.children n ∧ h !! c = Some cn
       ∧ ∀ c' cn', c' ∈ NodeData.children n → h !! c' = Some cn' →
           fgt (float_ucb1 (NodeData.visits pn) cn')
               (float_ucb1 (NodeData.visits pn) cn) = false).
Proof.
  intros laws Hself Hkids Hvisits. split.
  - intros Hparent.
    set (g := λ c : nat, match h !! c with
                         | Some cn => float_exploitation cn
                         | None => of_int 0
                         end).
    destruct (py_max_greatest laws (Node.exploitation h) g (NodeData.children n))
      as (c & Hmax & Hc & Hall); [done| |].
    { intros c Hc. destruct (Hvisits c Hc) as (cn & Hcn & Hv & _).
      unfold g. rewrite Hcn. apply exploitation_float; [done|lia]. }
    destruct (Hvisits c Hc) as (cn & Hcn & _). exists c, cn.
    split_and!; try done.
    + unfold Node.best_child, Node.best_child_with, Node.deref. simpl.
      rewrite Hself. simpl. rewrite Hparent. simpl in *. by rewrite Hmax.
    + intros c' cn' Hc' Hcn'. specialize (Hall c' Hc'). unfold g in Hall.
      by rewrite Hcn, Hcn' in Hall.
  - intros p pn Hparent Hp Hpv.
    set (g := λ c : nat, match h !! c with
                         | Some cn => float_ucb1 (NodeData.visits pn) cn
                         | None => of_int 0
                         end).
    destruct (py_max_greatest laws (Node.ucb1 h lit_1_41 p) g (NodeData.children n))
      as (c & Hmax & Hc & Hall); [done| |].
    { intros c Hc. destruct (Hvisits c Hc) as (cn & Hcn & Hv & _).
      unfold g. rewrite Hcn. by apply (ucb1_float laws h p pn). }
    destruct (Hvisits c Hc) as (cn & Hcn & _). exists c, cn.
    split_and!; try done.
    + unfold Node.best_child, Node.best_child_with, Node.deref. simpl.
      rewrite Hself. simpl. rewrite Hparent. simpl in *. by rewrite Hmax.
    + intros c' cn' Hc' Hcn'. specialize (Hall c' Hc'). unfold g in Hall.
      by rewrite Hcn, Hcn' in Hall.
Qed.

Lemma best_child_maximizes_witness :
  ∃ c cn,
    @Node.best_child RealFloat 1 (mkWorld [] Sample.tree)
      = Done (c, mkWorld [] Sample.tree)
    ∧ c ∈ [2; 3] ∧ Sample.tree !! c = Some cn
    ∧ ∀ c' cn', c' ∈ [2; 3] → Sample.tree !! c' = Some cn' →
        @fgt RealFloat (@float_ucb1 RealFloat 27 cn') (@float_ucb1 RealFloat 27 cn)
        = false.
Proof.
  refine (proj2 (@best_child_maximizes RealFloat Sample.tree [] 1 Sample.node1
                   RealFloat_laws _ _ _) 0 Sample.node0 _ _ _).
  - reflexivity.
  - discriminate.
  - intros c [->|[->|[]%elem_of_nil]%elem_of_cons]%elem_of_cons; eexists;
      (split; [reflexivity|simpl; lia]).
  - reflexivity.
  - reflexivity.
  - simpl. lia.
Defined.

(** The model does fail where Python does: comparing a child that has no
    visit divides by zero. *)
Example best_child_unvisited_child `{PyFloat} :
  Node.best_child 0
    (mkWorld [] [NodeData.mk Sample.flop None [1] 0 1;
                 NodeData.mk Sample.showdown (Some 0) [] 0 0])
  = Raise ZeroDivisionError.
Proof. reflexivity. Qed.

(** Hole cards 2♣ 7♦ with the board 9♥ J♠ 4♦ K♣ 3♣: a high card, king. *)
Example high_card_king :
  PokerHand6.evaluate
    [Card.mk R2 Clubs; Card.mk R7 Diamonds; Card.mk R9 Hearts; Card.mk RJ Spades;
     Card.mk R4 Diamonds; Card.mk RK Clubs; Card.mk R3 Clubs]
  = Done (HighCard, RK).
Proof. reflexivity. Qed.

(** * Further properties of the code *)

(** ** What the tests of the classifier mean *)

Lemma count_in_values (l : list Card.t) (n : nat) :
  0 < n →
  n ∈ values (Hand.rank_counts l) ↔ ∃ r, py_count r (Card.rank <$> l) = n.
Proof.
  intros Hn. unfold Hand.rank_counts. rewrite values_Counter. split.
  - intros (r & _ & ->). eauto.
  - intros (r & <-). exists r. split; [|done].
    destruct (decide (r ∈ Card.rank <$> l)) as [|Hr]; [done|].
    rewrite py_count_not_elem in Hn by done. lia.
Qed.

(** X1. The count tests read the hand as a multiset of ranks: four of a
    kind, three of a kind and one pair hold when some rank is held by
    exactly 4, 3, 2 cards; a full house when one rank is held by exactly 3
    cards and one by exactly 2. *)
Theorem count_tests_meaning (cards : list Card.t) :
  (Hand.is_four_of_a_kind cards = true ↔ ∃ r, py_count r (Card.rank <$> cards) = 4)
  ∧ (Hand.is_three_of_a_kind cards = true ↔ ∃ r, py_count r (Card.rank <$> cards) = 3)
  ∧ (Hand.is_one_pair cards = true ↔ ∃ r, py_count r (Card.rank <$> cards) = 2)
  ∧ (Hand.is_full_house cards = true ↔
       (∃ r, py_count r (Card.rank <$> cards) = 3)
       ∧ (∃ r, py_count r (Card.rank <$> cards) = 2)).
Proof.
  unfold Hand.is_four_of_a_kind, Hand.is_three_of_a_kind, Hand.is_one_pair,
    Hand.is_full_house, py_in.
  rewrite andb_true_iff, !bool_decide_eq_true.
  rewrite !count_in_values by lia. done.
Qed.

Lemma py_count_values {A} `{EqDecision A} (d : list (A * nat)) (n : nat) :
  py_count n (values d) = length (filter (λ kn, kn.2 = n) d).
Proof.
  unfold py_count, values. induction d as [|[k m] d IH]; [done|].
  rewrite fmap_cons, !filter_cons. simpl.
  destruct (decide (m = n)); simpl; by rewrite IH.
Qed.

Lemma pairs_in_counter (l : list Card.t) (kn : Rank * nat) :
  kn ∈ filter (λ kn, kn.2 = 2) (Hand.rank_counts l) ↔
  kn.2 = 2 ∧ py_count kn.1 (Card.rank <$> l) = 2.
Proof.
  destruct kn as [k n]. rewrite list_elem_of_filter. unfold Hand.rank_counts.
  rewrite (proj2 (Counter_counts _)). simpl. split.
  - intros (-> & _ & Hc). done.
  - intros (-> & Hc). split_and!; [done| |done].
    destruct (decide (k ∈ Card.rank <$> l)) as [|Hk]; [done|].
    rewrite py_count_not_elem in Hc by done. lia.
Qed.

(** X2. Two pair holds when exactly two ranks are held by exactly two cards
    each. *)
Theorem two_pair_meaning (cards : list Card.t) :
  Hand.is_two_pair cards = true ↔
  ∃ r1 r2, r1 ≠ r2
    ∧ py_count r1 (Card.rank <$> cards) = 2
    ∧ py_count r2 (Card.rank <$> cards) = 2
    ∧ ∀ r, py_count r (Card.rank <$> cards) = 2 → r = r1 ∨ r = r2.
Proof.
  unfold Hand.is_two_pair. rewrite bool_decide_eq_true, py_count_values.
  pose proof (pairs_in_counter cards) as Hpairs.
  assert (NoDup (filter (λ kn : Rank * nat, kn.2 = 2) (Hand.rank_counts cards)))
    as Hnd by apply NoDup_filter, Counter_NoDup.
  revert Hpairs Hnd.
  generalize (filter (λ kn : Rank * nat, kn.2 = 2) (Hand.rank_counts cards)).
  intros F Hpairs Hnd. split.
  - intros Hlen. destruct F as [|[r1 n1] [|[r2 n2] [|]]]; simplify_eq/=.
    destruct (proj1 (Hpairs (r1, n1))) as [H1 Hc1]; [left|].
    destruct (proj1 (Hpairs (r2, n2))) as [H2 Hc2]; [right; left|].
    simpl in *. subst n1 n2. exists r1, r2. split_and!; [|done|done|].
    + intros ->. apply NoDup_cons in Hnd as [Hnotin _]. apply Hnotin. left.
    + intros r Hr. assert ((r, 2) ∈ [(r1, 2); (r2, 2)]) as Hin
        by (by apply Hpairs).
      apply elem_of_cons in Hin as [[= ->]|[= ->]%list_elem_of_singleton]; auto.
  - intros (r1 & r2 & Hne & Hc1 & Hc2 & Hall).
    assert (F ≡ₚ [(r1, 2); (r2, 2)]) as ->; [|done].
    apply NoDup_Permutation; [done| |].
    { apply NoDup_cons. split; [|apply NoDup_singleton].
      intros [= ?]%list_elem_of_singleton. done. }
    intros [k n]. rewrite Hpairs, !elem_of_cons, elem_of_nil.
    simpl. split.
    + intros [-> Hc]. destruct (Hall k Hc) as [-> | ->]; auto.
    + intros [[= -> ->]|[[= -> ->]|[]]]; done.
Qed.

Lemma is_straight_true_inv (l : list Card.t) :
  PokerHand.is_straight l = Done true →
  (∃ m, Card.rank_index <$> l ≡ₚ seq m 5)
  ∨ Card.rank_index <$> l ≡ₚ [0; 1; 2; 3; 12].
Proof.
  unfold PokerHand.is_straight.
  pose proof (sorted_perm (λ i, i) false (Card.rank_index <$> l)) as Hperm.
  destruct (sorted _ false (Card.rank_index <$> l)) as [|i il] eqn:Hs; [done|].
  cbn [py_min mbind Res_bind mret Res_ret]. intros [= Hb].
  apply orb_true_iff in Hb as [Hb|Hb]; apply bool_decide_eq_true in Hb.
  - left. exists (foldl Nat.min i il). rewrite <-Hperm, Hb. unfold py_range.
    by replace (foldl Nat.min i il + 5 - foldl Nat.min i il) with 5 by lia.
  - right. by rewrite <-Hperm, Hb.
Qed.

Lemma is_straight_shape (l : list Card.t) :
  PokerHand.is_straight l = Done true →
  length l = 5 ∧ NoDup (Card.rank <$> l).
Proof.
  intros Hidx%is_straight_true_inv. split.
  - rewrite <-(length_fmap Card.rank_index).
    by destruct Hidx as [[m ->]| ->].
  - apply distinct_indices_distinct_ranks.
    destruct Hidx as [[m ->]| ->]; [apply NoDup_seq|].
    apply (bool_decide_unpack _). by vm_compute.
Qed.

(** X3. The straight test holds exactly for the hands of five cards whose
    rank indices, in some order, are five consecutive numbers or the wheel
    0, 1, 2, 3, 12; such a hand has five cards of five ranks. *)
Theorem straight_meaning (cards : list Card.t) :
  (PokerHand.is_straight cards = Done true ↔
     (∃ m, Card.rank_index <$> cards ≡ₚ seq m 5)
     ∨ Card.rank_index <$> cards ≡ₚ [0; 1; 2; 3; 12])
  ∧ (PokerHand.is_straight cards = Done true →
     length cards = 5 ∧ NoDup (Card.rank <$> cards)).
Proof.
  split; [split|].
  - apply is_straight_true_inv.
  - intros [[m Hm]|Hw]; [by eapply is_straight_run|by apply is_straight_wheel].
  - apply is_straight_shape.
Qed.

Lemma evaluate_straight_inv (l : list Card.t) cat :
  PokerHand.evaluate l = Done cat → cat = Straight ∨ cat = StraightFlush →
  PokerHand.is_straight l = Done true.
Proof.
  rewrite evaluate_unsorted.
  unfold PokerHand.evaluate_hand, PokerHand.is_straight_flush.
  destruct (PokerHand.is_straight l) as [[|]| | |]; simpl; try done.
  intros Hev [-> | ->]; revert Hev; repeat case_match; done.
Qed.

(** X4. Only hands of exactly five cards are ever classified as a straight
    or a straight flush: with the two hole cards and a board of five, the
    classifier never reports either. *)
Theorem straight_needs_five_cards (cards : list Card.t) :
  length cards ≠ 5 →
  PokerHand.evaluate cards ≠ Done Straight
  ∧ PokerHand.evaluate cards ≠ Done StraightFlush
  ∧ ∀ top, PokerHand6.evaluate cards ≠ Done (Straight, top)
         ∧ PokerHand6.evaluate cards ≠ Done (StraightFlush, top).
Proof.
  intros Hlen.
  assert (∀ cat, PokerHand.evaluate cards = Done cat →
                 cat = Straight ∨ cat = StraightFlush → False) as Hno.
  { intros cat Hev Hcat. apply Hlen.
    by apply is_straight_shape, (evaluate_straight_inv _ cat). }
  split_and!; [by eauto|by eauto|].
  intros top.
  destruct (evaluate_6 cards) as [Heq|(-> & -> & _)]; [|done].
  split; intros H6; rewrite H6 in Heq; simpl in Heq; symmetry in Heq; eauto.
Qed.

Lemma straight_needs_five_cards_witness :
  PokerHand.evaluate
    (Sample.hole_cards ++ Sample.community
       ++ [Card.mk R9 Spades; Card.mk R8 Spades]) ≠ Done StraightFlush.
Proof.
  apply (straight_needs_five_cards
           (Sample.hole_cards ++ Sample.community
              ++ [Card.mk R9 Spades; Card.mk R8 Spades])).
  simpl. lia.
Defined.

Lemma repeated_rank_no_straight (l : list Card.t) r :
  1 < py_count r (Card.rank <$> l) → l ≠ [] →
  PokerHand.is_straight l = Done false.
Proof.
  intros Hr Hne. destruct (is_straight_nonempty l Hne) as [[|] Hb]; [|done].
  apply is_straight_shape in Hb as [_ Hnd].
  destruct (decide (r ∈ Card.rank <$> l)) as [Hin|Hnotin].
  - rewrite (py_count_NoDup r _ Hnd Hin) in Hr. lia.
  - rewrite py_count_not_elem in Hr by done. lia.
Qed.

(** X5. Three pairs are one pair: a hand in which three ranks are held by
    exactly two cards each, no rank by three or four, and which is not a
    flush, is classified OnePair, not TwoPair. *)
Theorem three_pairs_are_one_pair (cards : list Card.t) (r1 r2 r3 : Rank) :
  r1 ≠ r2 → r1 ≠ r3 → r2 ≠ r3 →
  py_count r1 (Card.rank <$> cards) = 2 →
  py_count r2 (Card.rank <$> cards) = 2 →
  py_count r3 (Card.rank <$> cards) = 2 →
  (∀ r, py_count r (Card.rank <$> cards) ≠ 3
        ∧ py_count r (Card.rank <$> cards) ≠ 4) →
  Hand.is_flush cards = false →
  PokerHand.evaluate cards = Done OnePair.
Proof.
  intros H12 H13 H23 Hc1 Hc2 Hc3 Hnone Hflush.
  assert (∀ n, n = 3 ∨ n = 4 →
               py_in n (values (Hand.rank_counts cards)) = false) as Hnot.
  { intros n Hn. apply bool_decide_eq_false. rewrite count_in_values by lia.
    intros [r Hr]. destruct (Hnone r). lia. }
  assert (cards ≠ []) as Hne by (by intros ->).
  rewrite evaluate_unsorted.
  unfold PokerHand.evaluate_hand, PokerHand.is_straight_flush.
  rewrite (repeated_rank_no_straight cards r1) by (done || lia). simpl.
  assert (Hand.is_four_of_a_kind cards = false) as -> by (apply Hnot; auto).
  assert (Hand.is_full_house cards = false) as ->.
  { unfold Hand.is_full_house. rewrite (Hnot 3) by auto. done. }
  rewrite Hflush.
  assert (Hand.is_three_of_a_kind cards = false) as -> by (apply Hnot; auto).
  assert (Hand.is_two_pair cards = false) as ->.
  { unfold Hand.is_two_pair. apply bool_decide_eq_false. rewrite py_count_values.
    assert ([(r1, 2); (r2, 2); (r3, 2)]
              ⊆+ filter (λ kn : Rank * nat, kn.2 = 2) (Hand.rank_counts cards))
      as Hsub%submseteq_length; [|simpl in Hsub; lia].
    apply NoDup_submseteq.
    - repeat (apply NoDup_cons; split;
                [rewrite ?elem_of_cons, elem_of_nil; intros Hin; destruct_or?;
                 simplify_eq|]).
      apply NoDup_nil_2.
    - intros kn Hkn. apply pairs_in_counter.
      repeat (apply elem_of_cons in Hkn as [->|Hkn]; [done|]).
      by apply elem_of_nil in Hkn. }
  assert (Hand.is_one_pair cards = true) as ->; [|done].
  unfold Hand.is_one_pair. apply bool_decide_eq_true. rewrite count_in_values by lia.
  eauto.
Qed.

Lemma three_pairs_are_one_pair_witness :
  PokerHand.evaluate
    [Card.mk R2 Clubs; Card.mk R2 Diamonds; Card.mk R9 Hearts; Card.mk R9 Spades;
     Card.mk RK Clubs; Card.mk RK Hearts; Card.mk R5 Spades] = Done OnePair.
Proof.
  apply (three_pairs_are_one_pair _ R2 R9 RK); try discriminate; try reflexivity.
  intros r. destruct r; split; vm_compute; discriminate.
Defined.

(** X6. A state whose hole and community cards together are not exactly
    five cards (two hole cards and a full board, say) wins only by four of
    a kind, a full house, or all its cards being of one suit. *)
Theorem game_result_off_five_cards (s : PokerGameState.t) :
  let cards := PokerGameState.hand s ++ PokerGameState.community_cards s in
  cards ≠ [] → length cards ≠ 5 →
  GameState.game_result s =
    Done (if Hand.is_four_of_a_kind cards || Hand.is_full_house cards
             || Hand.is_flush cards then 1 else -1)%Z.
Proof.
  intros cards Hne Hlen.
  destruct (evaluate_nonempty cards Hne) as [cat Hcat].
  rewrite (game_result_of_category s cat Hcat).
  destruct (is_straight_nonempty cards Hne) as [[|] Hs].
  { by apply is_straight_shape in Hs as [? _]. }
  revert Hcat. rewrite evaluate_unsorted.
  unfold PokerHand.evaluate_hand, PokerHand.is_straight_flush. rewrite Hs. simpl.
  destruct (Hand.is_four_of_a_kind cards); [by intros [= <-]|].
  destruct (Hand.is_full_house cards); [by intros [= <-]|].
  destruct (Hand.is_flush cards); [by intros [= <-]|]. simpl.
  repeat case_match; by intros [= <-].
Qed.

Lemma game_result_off_five_cards_witness :
  GameState.game_result Sample.showdown = Done (-1)%Z.
Proof.
  apply (game_result_off_five_cards Sample.showdown); simpl; [discriminate|lia].
Defined.

(** X7. [PokerHand(cards)] keeps the cards it is given, ordered by
    non-increasing rank, in both files. *)
Theorem hand_is_sorted (cards : list Card.t) :
  (∀ ph, PokerHand.init cards = Done ph →
     PokerHand.cards ph ≡ₚ cards
     ∧ Sorted (λ a b, Card.rank_index b ≤ Card.rank_index a) (PokerHand.cards ph))
  ∧ (∀ ph, PokerHand6.init cards = Done ph →
     PokerHand6.cards ph ≡ₚ cards
     ∧ Sorted (λ a b, Card.rank_index b ≤ Card.rank_index a) (PokerHand6.cards ph)).
Proof.
  split; intros ph.
  - unfold PokerHand.init. destruct (PokerHand.evaluate_hand _); simpl; [|done..].
    intros [= <-]. simpl. split; [apply sorted_perm|apply sorted_descending].
  - unfold PokerHand6.init. destruct (PokerHand6.evaluate_hand _); simpl; [|done..].
    intros [= <-]. simpl. split; [apply sorted_perm|apply sorted_descending].
Qed.

Lemma hand_is_sorted_witness :
  ∃ ph, PokerHand.init Sample.wheel = Done ph
        ∧ PokerHand.cards ph ≡ₚ Sample.wheel
        ∧ Sorted (λ a b, Card.rank_index b ≤ Card.rank_index a) (PokerHand.cards ph).
Proof.
  eexists. split; [reflexivity|].
  apply (proj1 (hand_is_sorted Sample.wheel)). reflexivity.
Defined.

(** X8. On every hand of one card or more the two files agree on the
    category, and [6_poker_holdem_final.py] adds the rank of a card that no
    card of the hand outranks, whatever the category. *)
Theorem top_rank_is_highest (cards : list Card.t) :
  cards ≠ [] →
  ∃ cat top,
    PokerHand.evaluate cards = Done cat
    ∧ PokerHand6.evaluate cards = Done (cat, Card.rank top)
    ∧ top ∈ cards
    ∧ ∀ c, c ∈ cards → Card.rank_index c ≤ Card.rank_index top.
Proof.
  intros Hne. destruct (evaluate_nonempty cards Hne) as [cat Hcat].
  destruct (evaluate_6_top cards cat Hcat) as (top & Hin & Htop & Hmax).
  by exists cat, top.
Qed.

Lemma top_rank_is_highest_witness :
  ∃ cat top,
    PokerHand.evaluate Sample.four_cards = Done cat
    ∧ PokerHand6.evaluate Sample.four_cards = Done (cat, Card.rank top)
    ∧ top ∈ Sample.four_cards
    ∧ ∀ c, c ∈ Sample.four_cards → Card.rank_index c ≤ Card.rank_index top.
Proof. apply top_rank_is_highest. discriminate. Defined.

(** ** Showdown *)

Lemma init_evaluate (cards : list Card.t) cat :
  PokerHand.evaluate cards = Done cat →
  ∃ ph, PokerHand.init cards = Done ph
        ∧ PokerHand.rank ph = cat
        ∧ PokerHand.evaluate_hand (PokerHand.cards ph) = Done cat.
Proof.
  unfold PokerHand.evaluate, PokerHand.init.
  destruct (PokerHand.evaluate_hand _) as [c| | |] eqn:Hev; simpl; [|done..].
  intros [= <-]. eauto.
Qed.

Lemma init6_evaluate (cards : list Card.t) cat :
  PokerHand.evaluate cards = Done cat →
  ∃ ph, PokerHand6.init cards = Done ph ∧ (PokerHand6.rank ph).1 = cat.
Proof.
  intros Hcat. destruct (evaluate_6_top cards cat Hcat) as (top & _ & Htop & _).
  revert Htop. unfold PokerHand6.evaluate.
  destruct (PokerHand6.init cards) as [ph| | |]; simpl; [|done..].
  intros [= Hrank]. exists ph. by rewrite Hrank.
Qed.

(** X9. [determine_winner] of [10_poker_AI_GPT.py] compares the names of
    the two categories as strings, so the hand whose category comes later
    in the alphabet wins: two pair beats a straight flush, a high card
    beats four of a kind. *)
Theorem determine_winner_alphabetical
    (player_hand ai_hand community_cards : list Card.t)
    (player_rank ai_rank : HandCategory) :
  PokerHand.evaluate (player_hand ++ community_cards) = Done player_rank →
  PokerHand.evaluate (ai_hand ++ community_cards) = Done ai_rank →
  determine_winner player_hand ai_hand community_cards =
    Done (if py_index ai_rank by_name <? py_index player_rank by_name
          then "Player wins!"%string
          else if py_index player_rank by_name <? py_index ai_rank by_name
          then "AI wins!"%string
          else "It's a tie!"%string)
  ∧ (player_rank = TwoPair → ai_rank = StraightFlush →
     determine_winner player_hand ai_hand community_cards = Done "Player wins!"%string)
  ∧ (player_rank = HighCard → ai_rank = FourOfAKind →
     determine_winner player_hand ai_hand community_cards = Done "Player wins!"%string).
Proof.
  intros Hp Ha.
  destruct (init_evaluate _ _ Hp) as (php & Hphp & _ & Hevp).
  destruct (init_evaluate _ _ Ha) as (pha & Hpha & _ & Heva).
  assert (determine_winner player_hand ai_hand community_cards =
    Done (if py_index ai_rank by_name <? py_index player_rank by_name
          then "Player wins!"%string
          else if py_index player_rank by_name <? py_index ai_rank by_name
          then "AI wins!"%string
          else "It's a tie!"%string)) as Hres.
  { unfold determine_winner. rewrite Hphp, Hpha. simpl. rewrite Hevp, Heva. simpl.
    by destruct player_rank, ai_rank. }
  split_and!; [done| |]; intros -> ->; by rewrite Hres.
Qed.

Lemma determine_winner_alphabetical_witness :
  determine_winner
    [Card.mk RJ Diamonds; Card.mk R10 Diamonds] [Card.mk RK Spades; Card.mk R9 Spades]
    [Card.mk RJ Spades; Card.mk R10 Spades; Card.mk RQ Spades]
  = Done "Player wins!"%string.
Proof.
  refine (proj1 (proj2 (determine_winner_alphabetical _ _ _
                          TwoPair StraightFlush _ _)) _ _); reflexivity.
Defined.

(** X10. [determine_winner] of [6_poker_holdem_final.py] looks at the
    categories alone: the stronger category wins, and two hands of one
    category tie whatever their cards; the top rank is not consulted. *)
Theorem determine_winner_by_category (g : PokerGame.t)
    (player1_hand player2_hand : list Card.t) (cat1 cat2 : HandCategory) :
  PokerHand.evaluate (player1_hand ++ PokerGame.community_cards g) = Done cat1 →
  PokerHand.evaluate (player2_hand ++ PokerGame.community_cards g) = Done cat2 →
  PokerGame.determine_winner g player1_hand player2_hand =
    Returns (if py_index cat2 by_strength <? py_index cat1 by_strength
             then Player 1
             else if py_index cat1 by_strength <? py_index cat2 by_strength
             then Player 2
             else Message "It's a tie! Pot is split.")
  ∧ (cat1 = cat2 →
     PokerGame.determine_winner g player1_hand player2_hand =
       Returns (Message "It's a tie! Pot is split.")).
Proof.
  intros H1 H2.
  destruct (init6_evaluate _ _ H1) as (p1 & Hp1 & Hc1).
  destruct (init6_evaluate _ _ H2) as (p2 & Hp2 & Hc2).
  assert (PokerGame.determine_winner g player1_hand player2_hand =
    Returns (if py_index cat2 by_strength <? py_index cat1 by_strength
             then Player 1
             else if py_index cat1 by_strength <? py_index cat2 by_strength
             then Player 2
             else Message "It's a tie! Pot is split.")) as Hres.
  { unfold PokerGame.determine_winner. rewrite Hp1, Hp2. simpl.
    rewrite Hc1, Hc2. by destruct cat1, cat2. }
  split; [done|]. intros <-. rewrite Hres. by destruct cat1.
Qed.

Lemma determine_winner_by_category_witness :
  PokerGame.determine_winner
    (PokerGame.mk (Deck.mk []) 0
       [Card.mk R3 Hearts; Card.mk R7 Clubs; Card.mk R9 Spades] [] [] 1 (10, 20)%Z)
    [Card.mk RA Clubs; Card.mk RA Diamonds] [Card.mk R2 Clubs; Card.mk R2 Diamonds]
  = Returns (Message "It's a tie! Pot is split.").
Proof.
  refine (proj2 (determine_winner_by_category _ _ _ OnePair OnePair _ _) _);
    reflexivity.
Defined.

(** ** The two-player game *)

Lemma Outcome_bind_Returns {A B} (m : Outcome A) (f : A → Outcome B) b :
  m ≫= f = Returns b → ∃ a, m = Returns a ∧ f a = Returns b.
Proof. destruct m; simpl; [eauto|done..]. Qed.

Lemma draw_inv g c g' :
  PokerGame.draw g = Returns (c, g') →
  ∃ d, Deck.cards (PokerGame.deck g) = d ++ [c]
    ∧ g' = PokerGame.mk (Deck.mk d) (PokerGame.pot g)
             (PokerGame.community_cards g) (PokerGame.player_hands g)
             (PokerGame.player_bets g) (PokerGame.current_player g)
             (PokerGame.blinds g).
Proof.
  unfold PokerGame.draw, Deck.draw_card, py_pop.
  destruct (last (Deck.cards (PokerGame.deck g))) as [x|] eqn:Hlast; [|done].
  apply last_Some in Hlast as [l Hl]. simpl. intros [= <- <-]. exists l.
  rewrite Hl, length_app. simpl.
  replace (length l + 1 - 1) with (length l) by lia.
  by rewrite take_app_length.
Qed.

Lemma draw_empty g :
  Deck.cards (PokerGame.deck g) = [] →
  PokerGame.draw g = Raises (Builtin IndexError).
Proof. intros Hd. unfold PokerGame.draw, Deck.draw_card, py_pop. by rewrite Hd. Qed.

Lemma deal_inv n :
  ∀ g g', PokerGame.deal_community_cards n g = Returns g' →
  ∃ d cs, length cs = n
    ∧ Deck.cards (PokerGame.deck g) = d ++ reverse cs
    ∧ g' = PokerGame.mk (Deck.mk d) (PokerGame.pot g)
             (PokerGame.community_cards g ++ cs) (PokerGame.player_hands g)
             (PokerGame.player_bets g) (PokerGame.current_player g)
             (PokerGame.blinds g).
Proof.
  induction n as [|n IH]; intros g g'; simpl.
  - intros [= <-]. exists (Deck.cards (PokerGame.deck g)), [].
    rewrite !app_nil_r. by destruct g as [[]].
  - intros ([c g1] & (d1 & Hdeck & ->)%draw_inv & Hrest)%Outcome_bind_Returns.
    apply IH in Hrest as (d & cs & Hlen & Hdeck' & ->). simpl in *.
    exists d, (c :: cs). split_and!; [by rewrite <-Hlen| |by rewrite <-app_assoc].
    by rewrite Hdeck, Hdeck', reverse_cons, app_assoc.
Qed.

Lemma start_new_round_inv (g g' : PokerGame.t) (h1 h2 : list Card.t) :
  PokerGame.player_hands g = [(1, h1); (2, h2)]%Z →
  PokerGame.start_new_round g = Returns g' →
  ∃ d c1 c2 c3 c4,
    Deck.cards (PokerGame.deck g) = d ++ [c4; c3; c2; c1]
    ∧ g' = PokerGame.mk (Deck.mk d)
             ((PokerGame.blinds g).1 + (PokerGame.blinds g).2) []
             [(1, [c1; c2]); (2, [c3; c4])]%Z
             [(1, (PokerGame.blinds g).1); (2, (PokerGame.blinds g).2)]%Z
             1 (PokerGame.blinds g)
    ∧ table_ok g'.
Proof.
  intros Hhands. unfold PokerGame.start_new_round.
  intros ([c1 g1] & (d1 & Hd1 & ->)%draw_inv & Hrest)%Outcome_bind_Returns.
  apply Outcome_bind_Returns in Hrest as ([c2 g2] & (d2 & Hd2 & ->)%draw_inv & Hrest).
  apply Outcome_bind_Returns in Hrest as ([c3 g3] & (d3 & Hd3 & ->)%draw_inv & Hrest).
  apply Outcome_bind_Returns in Hrest as ([c4 g4] & (d4 & Hd4 & ->)%draw_inv & Hrest).
  simpl in *. injection Hrest as <-.
  exists d4, c1, c2, c3, c4. split_and!.
  - rewrite Hd1, Hd2, Hd3, Hd4. by rewrite <-!app_assoc.
  - by rewrite Hhands.
  - eexists _, _. simpl. split_and!; [done|by left|done].
Qed.

(** X11. [start_new_round] deals the four cards on top of the deck, the
    first two to player 1 and the next two to player 2, empties the board,
    posts the blinds as the two bets and their sum as the pot, and gives
    the move to player 1. *)
Theorem start_new_round_deals (g g' : PokerGame.t) (h1 h2 : list Card.t) :
  PokerGame.player_hands g = [(1, h1); (2, h2)]%Z →
  PokerGame.start_new_round g = Returns g' →
  ∃ d c1 c2 c3 c4,
    Deck.cards (PokerGame.deck g) = d ++ [c4; c3; c2; c1]
    ∧ g' = PokerGame.mk (Deck.mk d)
             ((PokerGame.blinds g).1 + (PokerGame.blinds g).2) []
             [(1, [c1; c2]); (2, [c3; c4])]%Z
             [(1, (PokerGame.blinds g).1); (2, (PokerGame.blinds g).2)]%Z
             1 (PokerGame.blinds g)
    ∧ table_ok g'.
Proof. apply start_new_round_inv. Qed.

Lemma start_new_round_deals_witness :
  ∃ g' d c1 c2 c3 c4,
    Deck.fresh = d ++ [c4; c3; c2; c1]
    ∧ PokerGame.deck g' = Deck.mk d
    ∧ PokerGame.player_hands g' = [(1, [c1; c2]); (2, [c3; c4])]%Z
    ∧ PokerGame.pot g' = 30%Z.
Proof.
  pose (g := PokerGame.mk (Deck.mk Deck.fresh) 0 [] [(1, []); (2, [])]%Z
               [(1, 0); (2, 0)]%Z 1 (10, 20)%Z).
  destruct (PokerGame.start_new_round g) as [g'| |] eqn:Hstart;
    [|discriminate Hstart..].
  destruct (start_new_round_deals g g' [] [] eq_refl Hstart)
    as (d & c1 & c2 & c3 & c4 & Hdeck & Hg' & _).
  exists g', d, c1, c2, c3, c4. split_and!; [exact Hdeck|by rewrite Hg'..].
Defined.

Lemma table_ok_seated g : table_ok g ↔ seated g ∧ surplus g = 0%Z.
Proof.
  unfold table_ok, seated, surplus. split.
  - intros (b1 & b2 & Hb & Hcp & Hpot). split; [by eauto|].
    rewrite Hb, Hpot. simpl. lia.
  - intros [(b1 & b2 & Hb & Hcp) Hs]. exists b1, b2. split_and!; [done..|].
    rewrite Hb in Hs. simpl in Hs. lia.
Qed.

Lemma same_deal_refl g : same_deal g g.
Proof. by unfold same_deal. Qed.

Lemma same_deal_trans g1 g2 g3 : same_deal g1 g2 → same_deal g2 g3 → same_deal g1 g3.
Proof. unfold same_deal. intros (? & ? & ? & ?) (? & ? & ? & ?). split_and!; congruence. Qed.

Lemma handle_call_step g :
  seated g →
  ∃ g', PokerGame.handle_call g = Returns g'
    ∧ seated g' ∧ same_deal g g' ∧ surplus g' = surplus g
    ∧ PokerGame.current_player g' = PokerGame.current_player g
    ∧ (PokerGame.pot g ≤ PokerGame.pot g')%Z
    ∧ dict_get (PokerGame.current_player g) (PokerGame.player_bets g')
      = max_ints (values (PokerGame.player_bets g)).
Proof.
  intros (b1 & b2 & Hb & Hcp). unfold PokerGame.handle_call, surplus, seated, same_deal.
  rewrite Hb. destruct Hcp as [Hcp|Hcp]; rewrite Hcp; simpl;
    (eexists; split; [done|]); simpl; rewrite ?Hcp;
    (split_and!; try done; try lia; [eexists _, _; split; [done|auto]|]).
  - do 2 f_equal. lia.
  - do 2 f_equal. lia.
Qed.

Lemma handle_raise_step g amount :
  seated g →
  ∃ g', PokerGame.handle_raise amount g = Returns g'
    ∧ seated g' ∧ same_deal g g' ∧ surplus g' = surplus g
    ∧ PokerGame.current_player g' = PokerGame.current_player g
    ∧ PokerGame.pot g' = (PokerGame.pot g + amount)%Z.
Proof.
  intros (b1 & b2 & Hb & Hcp). unfold PokerGame.handle_raise, surplus, seated, same_deal.
  rewrite Hb. destruct Hcp as [Hcp|Hcp]; rewrite Hcp; simpl;
    (eexists; split; [done|]); simpl; rewrite ?Hcp;
    (split_and!; try done; try lia; eexists _, _; split; [done|auto]).
Qed.

Lemma next_turn_step g :
  seated g →
  (PokerGame.next_turn g = Returns None ∧ bets_equal g)
  ∨ (∃ g', PokerGame.next_turn g = Returns (Some g')
       ∧ seated g' ∧ same_deal g g' ∧ surplus g' = surplus g).
Proof.
  intros (b1 & b2 & Hb & Hcp). unfold PokerGame.next_turn. rewrite Hb. simpl.
  destruct (decide (b1 = b2)) as [->|Hne].
  - left. split; [done|]. by exists b2.
  - right. eexists. split; [done|]. unfold seated, same_deal, surplus. simpl.
    split_and!; try done; [|by rewrite Hb]. exists b1, b2. split; [done|].
    destruct Hcp as [-> | ->]; auto.
Qed.

Lemma display_dealt g : dealt g → PokerGame.display_game_state g = Returns tt.
Proof.
  intros (h1 & h2 & H1 & H2). unfold PokerGame.display_game_state.
  by rewrite H1, H2.
Qed.

Lemma dealt_same_deal g g' : same_deal g g' → dealt g → dealt g'.
Proof. intros (_ & _ & Hh & _). unfold dealt. by rewrite Hh. Qed.

(** What a betting round comes to, for every input. *)
Lemma betting_round_outcome n :
  ∀ input g, length input ≤ n → seated g → dealt g →
  match PokerGame.betting_round input g with
  | Returns (g', rest) =>
      seated g' ∧ same_deal g g' ∧ length rest < length input
      ∧ ((surplus g' = surplus g ∧ bets_equal g') ∨ PokerGame.pot g' = 0%Z)
  | Raises e => e = EOFError ∨ e = Builtin ValueError
  | NoOutcome => False
  end.
Proof.
  induction n as [|n IH]; intros [|action input] g Hlen Hseated Hdealt;
    simpl in Hlen; try lia; cbn [PokerGame.betting_round];
    rewrite (display_dealt g Hdealt); cbn [mbind Outcome_bind]; try (by left).
  assert (∀ input' g1, length input' ≤ n → seated g1 → same_deal g g1 →
            surplus g1 = surplus g →
            match (turn ← PokerGame.next_turn g1;
                   match turn with
                   | None => mret (g1, input')
                   | Some g2 => PokerGame.betting_round input' g2
                   end) with
            | Returns (g', rest) =>
                seated g' ∧ same_deal g g' ∧ length rest ≤ length input'
                ∧ ((surplus g' = surplus g ∧ bets_equal g') ∨ PokerGame.pot g' = 0%Z)
            | Raises e => e = EOFError ∨ e = Builtin ValueError
            | NoOutcome => False
            end) as Hcont.
  { intros input' g1 Hlen' Hs1 Hd1 Hsur1.
    destruct (next_turn_step g1 Hs1) as [[-> Heq]|(g2 & -> & Hs2 & Hd2 & Hsur2)]; simpl.
    - split_and!; [done|done|lia|]. left. split; congruence.
    - assert (same_deal g g2) as Hd12 by (by eapply same_deal_trans).
      specialize (IH input' g2 Hlen' Hs2 (dealt_same_deal _ _ Hd12 Hdealt)).
      destruct (PokerGame.betting_round input' g2) as [[g' rest]| |]; [|done..].
      destruct IH as (Hs' & Hd' & Hlt & Hend).
      split_and!; [done|by repeat (eapply same_deal_trans; [eassumption|])|lia|].
      destruct Hend as [[Hsur' Heq]|Hz]; [left|by right].
      split; [congruence|done]. }
  destruct (String.eqb (lowered action) "call").
  { destruct (handle_call_step g Hseated) as (g1 & -> & Hs1 & Hd1 & Hsur1 & _).
    cbn [mbind Outcome_bind].
    specialize (Hcont input g1 ltac:(lia) Hs1 Hd1 Hsur1).
    destruct (_ ≫= _) as [[g' rest]| |]; [|done..].
    destruct Hcont as (? & ? & ? & ?). split_and!; [done..|simpl; lia|done]. }
  destruct (String.eqb (lowered action) "raise").
  { destruct input as [|amount input]; [by left|].
    destruct (number amount) as [raise_amount|]; [|by right].
    destruct (handle_raise_step g raise_amount Hseated)
      as (g1 & -> & Hs1 & Hd1 & Hsur1 & _).
    cbn [mbind Outcome_bind]. simpl in Hlen.
    specialize (Hcont input g1 ltac:(lia) Hs1 Hd1 Hsur1).
    destruct (_ ≫= _) as [[g' rest]| |]; [|done..].
    destruct Hcont as (? & ? & ? & ?). split_and!; [done..|simpl; lia|done]. }
  destruct (String.eqb (lowered action) "fold").
  { simpl. split_and!; [exact Hseated|by unfold same_deal|lia|by right]. }
  specialize (Hcont input g ltac:(lia) Hseated (same_deal_refl g) eq_refl).
  destruct (_ ≫= _) as [[g' rest]| |]; [|done..].
  destruct Hcont as (? & ? & ? & ?). split_and!; [done..|simpl; lia|done].
Qed.

(** X12. A call brings the bet of the player to act up to the highest bet
    and adds the difference to the pot: the pot stays the sum of the two
    bets and never shrinks, and the cards are not touched. *)
Theorem call_matches_highest_bet (g : PokerGame.t) :
  table_ok g →
  ∃ g', PokerGame.handle_call g = Returns g'
    ∧ table_ok g' ∧ same_deal g g'
    ∧ (PokerGame.pot g ≤ PokerGame.pot g')%Z
    ∧ dict_get (PokerGame.current_player g) (PokerGame.player_bets g')
      = max_ints (values (PokerGame.player_bets g)).
Proof.
  intros [Hs Hsur]%table_ok_seated.
  destruct (handle_call_step g Hs) as (g' & Hcall & Hs' & Hd & Hsur' & _ & Hpot & Hbet).
  exists g'. split_and!; try done. apply table_ok_seated. split; congruence.
Qed.

Lemma call_matches_highest_bet_witness :
  ∃ g', PokerGame.handle_call
          (PokerGame.mk (Deck.mk []) 80 [] [] [(1, 60); (2, 20)]%Z 2 (10, 20)%Z)
        = Returns g'
    ∧ table_ok g'
    ∧ dict_get 2 (PokerGame.player_bets g') = Returns 60%Z.
Proof.
  destruct (call_matches_highest_bet
              (PokerGame.mk (Deck.mk []) 80 [] [] [(1, 60); (2, 20)]%Z 2 (10, 20)%Z))
    as (g' & Hcall & Hok & _ & _ & Hbet).
  - exists 60%Z, 20%Z. split_and!; [reflexivity|right; reflexivity|reflexivity].
  - exists g'. split_and!; [exact Hcall|exact Hok|exact Hbet].
Defined.

(** X13. A betting round that starts with both hands under their keys
    and the pot equal to the sum of the bets ends, whatever is typed, in
    one of two ways: with the two bets equal and the pot still their sum,
    or with the pot emptied by a fold.  It reads at least one line, never
    touches the cards, and can fail only for want of input ([EOFError]) or
    on a raise that is not a number ([ValueError]). *)
Theorem betting_round_settles (input : list Line) (g : PokerGame.t) :
  table_ok g → dealt g →
  match PokerGame.betting_round input g with
  | Returns (g', rest) =>
      same_deal g g' ∧ length rest < length input
      ∧ ((table_ok g' ∧ bets_equal g') ∨ PokerGame.pot g' = 0%Z)
  | Raises e => e = EOFError ∨ e = Builtin ValueError
  | NoOutcome => False
  end.
Proof.
  intros [Hs Hsur]%table_ok_seated Hdealt.
  pose proof (betting_round_outcome (length input) input g (le_n _) Hs Hdealt) as Hout.
  destruct (PokerGame.betting_round input g) as [[g' rest]| |]; [|done..].
  destruct Hout as (Hs' & Hd & Hlen & Hend). split_and!; [done..|].
  destruct Hend as [[Hsur' Heq]|Hz]; [left|by right].
  split; [|done]. apply table_ok_seated. split; congruence.
Qed.

Lemma betting_round_settles_witness :
  match PokerGame.betting_round
          [mkLine "raise" None; mkLine "40" (Some 40%Z); mkLine "call" None]
          (PokerGame.mk (Deck.mk []) 30 [] [(1, []); (2, [])]%Z
             [(1, 10); (2, 20)]%Z 1 (10, 20)%Z) with
  | Returns (g', rest) =>
      same_deal (PokerGame.mk (Deck.mk []) 30 [] [(1, []); (2, [])]%Z
                   [(1, 10); (2, 20)]%Z 1 (10, 20)%Z) g'
      ∧ length rest < 3
      ∧ ((table_ok g' ∧ bets_equal g') ∨ PokerGame.pot g' = 0%Z)
  | Raises e => e = EOFError ∨ e = Builtin ValueError
  | NoOutcome => False
  end.
Proof.
  apply (betting_round_settles
           [mkLine "raise" None; mkLine "40" (Some 40%Z); mkLine "call" None]).
  - exists 10%Z, 20%Z. split_and!; [reflexivity|left; reflexivity|reflexivity].
  - exists [], []. split; reflexivity.
Defined.

(** Without a hand under key 1 or key 2 the round fails on its first
    display, before a line is read. *)
Example betting_round_without_hands (input : list Line) (g : PokerGame.t) :
  PokerGame.player_hands g = [] →
  PokerGame.betting_round input g = Raises KeyError.
Proof. intros Hh. destruct input; simpl; unfold PokerGame.display_game_state; by rewrite Hh. Qed.

Lemma betting_round_inv input g g' rest :
  seated g → dealt g → PokerGame.betting_round input g = Returns (g', rest) →
  seated g' ∧ dealt g' ∧ same_deal g g' ∧ length rest < length input.
Proof.
  intros Hs Hdealt Hbet.
  pose proof (betting_round_outcome (length input) input g (le_n _) Hs Hdealt) as Hout.
  assert (∀ g', same_deal g g' → dealt g') as Hkeep
    by (intros; by eapply dealt_same_deal).
  rewrite Hbet in Hout. destruct Hout as (? & ? & ? & _). auto.
Qed.

Lemma determine_winner_board g g' h1 h2 :
  PokerGame.community_cards g = PokerGame.community_cards g' →
  PokerGame.determine_winner g h1 h2 = PokerGame.determine_winner g' h1 h2.
Proof. unfold PokerGame.determine_winner. by intros ->. Qed.

(** What a round that completes has done. *)
Lemma play_inv input g h1 h2 v g' rest :
  PokerGame.player_hands g = [(1, h1); (2, h2)]%Z →
  PokerGame.play input g = Returns (v, g', rest) →
  ∃ d c1 c2 c3 c4 c5 c6 c7 c8 c9,
    Deck.cards (PokerGame.deck g) = d ++ [c9; c8; c7; c6; c5; c4; c3; c2; c1]
    ∧ PokerGame.deck g' = Deck.mk d
    ∧ PokerGame.player_hands g' = [(1, [c1; c2]); (2, [c3; c4])]%Z
    ∧ PokerGame.community_cards g' = [c5; c6; c7; c8; c9]
    ∧ PokerGame.determine_winner g' [c1; c2] [c3; c4] = Returns v
    ∧ length rest + 4 ≤ length input.
Proof.
  intros Hhands. unfold PokerGame.play.
  intros (g1 & Hstart & Hrest)%Outcome_bind_Returns.
  destruct (start_new_round_inv g g1 h1 h2 Hhands Hstart)
    as (d1 & c1 & c2 & c3 & c4 & Hd1 & Hg1 & [Hs1 _]%table_ok_seated).
  assert (dealt g1) as Ht1 by (rewrite Hg1; by eexists _, _).
  apply Outcome_bind_Returns in Hrest as ([g2 in2] & Hb2 & Hrest).
  destruct (betting_round_inv _ _ _ _ Hs1 Ht1 Hb2)
    as (Hs2 & Ht2 & (Hk2 & Hc2 & Hh2 & _) & Hl2).
  apply Outcome_bind_Returns in Hrest as (g3 & Hdeal3 & Hrest).
  apply deal_inv in Hdeal3 as (d3 & cs3 & Hn3 & Hd3 & Hg3).
  assert (seated g3) as Hs3 by (by rewrite Hg3).
  assert (dealt g3) as Ht3 by (by rewrite Hg3).
  apply Outcome_bind_Returns in Hrest as ([g4 in4] & Hb4 & Hrest).
  destruct (betting_round_inv _ _ _ _ Hs3 Ht3 Hb4)
    as (Hs4 & Ht4 & (Hk4 & Hc4 & Hh4 & _) & Hl4).
  apply Outcome_bind_Returns in Hrest as (g5 & Hdeal5 & Hrest).
  apply deal_inv in Hdeal5 as (d5 & cs5 & Hn5 & Hd5 & Hg5).
  assert (seated g5) as Hs5 by (by rewrite Hg5).
  assert (dealt g5) as Ht5 by (by rewrite Hg5).
  apply Outcome_bind_Returns in Hrest as ([g6 in6] & Hb6 & Hrest).
  destruct (betting_round_inv _ _ _ _ Hs5 Ht5 Hb6)
    as (Hs6 & Ht6 & (Hk6 & Hc6 & Hh6 & _) & Hl6).
  apply Outcome_bind_Returns in Hrest as (g7 & Hdeal7 & Hrest).
  apply deal_inv in Hdeal7 as (d7 & cs7 & Hn7 & Hd7 & Hg7).
  assert (seated g7) as Hs7 by (by rewrite Hg7).
  assert (dealt g7) as Ht7 by (by rewrite Hg7).
  apply Outcome_bind_Returns in Hrest as ([g8 in8] & Hb8 & Hrest).
  destruct (betting_round_inv _ _ _ _ Hs7 Ht7 Hb8)
    as (Hs8 & Ht8 & (Hk8 & Hc8 & Hh8 & _) & Hl8).
  destruct cs3 as [|c5 [|c6 [|c7 [|]]]]; try discriminate Hn3.
  destruct cs5 as [|c8 [|]]; try discriminate Hn5.
  destruct cs7 as [|c9 [|]]; try discriminate Hn7.
  assert (PokerGame.player_hands g8 = [(1, [c1; c2]); (2, [c3; c4])]%Z) as Hh.
  { rewrite Hh8, Hg7. simpl. rewrite Hh6, Hg5. simpl. rewrite Hh4, Hg3. simpl.
    rewrite Hh2, Hg1. done. }
  assert (PokerGame.community_cards g8 = [c5; c6; c7; c8; c9]) as Hc.
  { rewrite Hc8, Hg7. simpl. rewrite Hc6, Hg5. simpl. rewrite Hc4, Hg3. simpl.
    rewrite Hc2, Hg1. done. }
  assert (PokerGame.deck g8 = Deck.mk d7) as Hk.
  { rewrite Hk8, Hg7. done. }
  assert (Deck.cards (PokerGame.deck g) = d7 ++ [c9; c8; c7; c6; c5; c4; c3; c2; c1])
    as Hdeck.
  { rewrite Hd1. rewrite Hk2, Hg1 in Hd3. simpl in Hd3. rewrite Hd3.
    rewrite Hk4, Hg3 in Hd5. simpl in Hd5. rewrite Hd5.
    rewrite Hk6, Hg5 in Hd7. simpl in Hd7. rewrite Hd7.
    by rewrite <-!app_assoc. }
  rewrite Hh in Hrest. simpl in Hrest.
  apply Outcome_bind_Returns in Hrest as (winner & Hw & [= <- <- <-]).
  exists d7, c1, c2, c3, c4, c5, c6, c7, c8, c9. split_and!; try done. lia.
Qed.

(** X14. A round of [play] that completes has taken the nine cards on top
    of the deck: two for each player, then the flop, the turn and the
    river; it has read four lines or more; and its verdict is that of
    [determine_winner] on those cards.  On a deck of fewer than nine cards
    no round completes. *)
Theorem play_deals_nine (input : list Line) (g : PokerGame.t) (h1 h2 : list Card.t)
    (v : Verdict) (g' : PokerGame.t) (rest : list Line) :
  PokerGame.player_hands g = [(1, h1); (2, h2)]%Z →
  PokerGame.play input g = Returns (v, g', rest) →
  (∃ d c1 c2 c3 c4 c5 c6 c7 c8 c9,
     Deck.cards (PokerGame.deck g) = d ++ [c9; c8; c7; c6; c5; c4; c3; c2; c1]
     ∧ PokerGame.deck g' = Deck.mk d
     ∧ PokerGame.player_hands g' = [(1, [c1; c2]); (2, [c3; c4])]%Z
     ∧ PokerGame.community_cards g' = [c5; c6; c7; c8; c9]
     ∧ PokerGame.determine_winner g' [c1; c2] [c3; c4] = Returns v
     ∧ length rest + 4 ≤ length input)
  ∧ 9 ≤ length (Deck.cards (PokerGame.deck g)).
Proof.
  intros Hhands Hplay.
  destruct (play_inv _ _ _ _ _ _ _ Hhands Hplay)
    as (d & c1 & c2 & c3 & c4 & c5 & c6 & c7 & c8 & c9 & Hdeck & Hrest).
  split; [by exists d, c1, c2, c3, c4, c5, c6, c7, c8, c9|].
  rewrite Hdeck, length_app. simpl. lia.
Qed.

Lemma play_deals_nine_witness :
  9 ≤ length (Deck.cards (PokerGame.deck Table.new_game)).
Proof.
  destruct (PokerGame.play Table.calls Table.new_game) as [[[v g'] rest]| |] eqn:Hplay;
    [|vm_compute in Hplay; discriminate Hplay..].
  exact (proj2 (play_deals_nine Table.calls Table.new_game [] [] v g' rest
                  eq_refl Hplay)).
Defined.

(** X15. The verdict of a round does not depend on what is typed: two
    runs of [play] on one game that both complete give the same verdict,
    hands and board, even when a player folds in one of them. *)
Theorem play_verdict_ignores_betting (input1 input2 : list Line) (g : PokerGame.t)
    (h1 h2 : list Card.t) (v1 v2 : Verdict) (g1 g2 : PokerGame.t)
    (rest1 rest2 : list Line) :
  PokerGame.player_hands g = [(1, h1); (2, h2)]%Z →
  PokerGame.play input1 g = Returns (v1, g1, rest1) →
  PokerGame.play input2 g = Returns (v2, g2, rest2) →
  v1 = v2
  ∧ PokerGame.player_hands g1 = PokerGame.player_hands g2
  ∧ PokerGame.community_cards g1 = PokerGame.community_cards g2
  ∧ PokerGame.deck g1 = PokerGame.deck g2.
Proof.
  intros Hhands Hp1 Hp2.
  destruct (play_inv _ _ _ _ _ _ _ Hhands Hp1)
    as (d & c1 & c2 & c3 & c4 & c5 & c6 & c7 & c8 & c9
        & Hdeck & Hk & Hh & Hc & Hv & _).
  destruct (play_inv _ _ _ _ _ _ _ Hhands Hp2)
    as (d' & c1' & c2' & c3' & c4' & c5' & c6' & c7' & c8' & c9'
        & Hdeck' & Hk' & Hh' & Hc' & Hv' & _).
  rewrite Hdeck in Hdeck'. apply app_inj_2 in Hdeck' as [<- [=]]; [|done].
  simplify_eq. split_and!; try congruence.
  rewrite (determine_winner_board g1 g2) in Hv by congruence. congruence.
Qed.

Lemma play_verdict_ignores_betting_witness :
  match PokerGame.play Table.calls Table.new_game,
        PokerGame.play Table.folds Table.new_game with
  | Returns (v1, _, _), Returns (v2, _, _) => v1 = v2
  | _, _ => False
  end.
Proof.
  destruct (PokerGame.play Table.calls Table.new_game) as [[[v1 g1] rest1]| |] eqn:H1;
    [|vm_compute in H1; discriminate H1..].
  destruct (PokerGame.play Table.folds Table.new_game) as [[[v2 g2] rest2]| |] eqn:H2;
    [|vm_compute in H2; discriminate H2..].
  exact (proj1 (play_verdict_ignores_betting Table.calls Table.folds Table.new_game
                  [] [] v1 v2 g1 g2 rest1 rest2 eq_refl H1 H2)).
Defined.











(** Five rounds can be played: here every player calls, and the answer is
    [yes] after the first four rounds and [no] after the fifth. *)
Example five_rounds_played :
  ∃ g rest,
    PokerGame.run_game 6
      (mjoin (replicate 4 (Table.calls ++ [mkLine "yes" None]))
         ++ Table.calls ++ [mkLine "no" None]) Table.new_game 0
    = Returns (g, rest, 5).
Proof. eexists _, _. by vm_compute. Qed.

(** The sixth round of a game fails while dealing the turn, here with
    every player calling and the answer [yes] after every round. *)
Example sixth_round_fails :
  PokerGame.run_game 7
    (mjoin (replicate 6 (Table.calls ++ [mkLine "yes" None]))) Table.new_game 0
  = Raises (Builtin IndexError).
Proof. by vm_compute. Qed.

(** ** Successor states and the deck *)

(** X17. Every successor state keeps the hand, has its own bet back at 0,
    and extends the board it came from; there are five successors before
    the fifth community card and two from then on, when no card is drawn
    and the random generator is left as it was. *)
Theorem successors_shape (s : PokerGameState.t) (w : World) :
  ∃ moves w', GameState.legal_moves s w = Done (moves, w')
    ∧ length moves
      = (if decide (length (PokerGameState.community_cards s) < 5) then 5 else 2)
    ∧ (¬ length (PokerGameState.community_cards s) < 5 → w' = w)
    ∧ ∀ s', s' ∈ moves →
        PokerGameState.hand s' = PokerGameState.hand s
        ∧ PokerGameState.current_bet s' = 0%Z
        ∧ PokerGameState.community_cards s `prefix_of` PokerGameState.community_cards s'
        ∧ (PokerGameState.pot s' - PokerGameState.pot s
           - PokerGameState.current_bet s)%Z ∈ [(- PokerGameState.current_bet s)%Z;
                                               0; 10; 20; 50]%Z.
Proof.
  destruct (decide (length (PokerGameState.community_cards s) < 5)) as [Hlt|Hge].
  - destruct (legal_moves_before_river s w Hlt) as (cs & t & Hlen & Hmoves).
    eexists _, _. split; [exact Hmoves|]. split; [done|]. split; [done|].
    intros s' Hs'.
    repeat (apply elem_of_cons in Hs' as [->|Hs']); simpl;
      try (by apply elem_of_nil in Hs');
      (split_and!; [done|done|try done; by apply prefix_app_r|]).
    + replace (_ - _ - _)%Z with (- PokerGameState.current_bet s)%Z by lia. left.
    + replace (_ - _ - _)%Z with 0%Z by lia. right; left.
    + replace (_ - _ - _)%Z with 10%Z by lia. do 2 right; left.
    + replace (_ - _ - _)%Z with 20%Z by lia. do 3 right; left.
    + replace (_ - _ - _)%Z with 50%Z by lia. do 4 right; left.
  - rewrite (legal_moves_at_river s w Hge). eexists _, _. split; [done|].
    split; [done|]. split; [done|]. intros s' Hs'.
    repeat (apply elem_of_cons in Hs' as [->|Hs']); simpl;
      try (by apply elem_of_nil in Hs'); (split_and!; [done..|]).
    + replace (_ - _ - _)%Z with (- PokerGameState.current_bet s)%Z by lia. left.
    + replace (_ - _ - _)%Z with 0%Z by lia. right; left.
Qed.

Lemma new_cards_same_deck n h :
  ∃ c, GameState.new_cards n (mkWorld [] h) = Done (replicate n c, mkWorld [] h).
Proof.
  assert (∀ i (x : list Card.t),
            ∃ x', shuffle_from i x (mkWorld [] h) = Done (x', mkWorld [] h)
                  ∧ length x' = length x) as Hshuffle.
  { induction i as [|i IHi]; intros x; [by exists x|].
    destruct (IHi (swap (S i) 0 x)) as (x' & Hx' & Hlen). exists x'.
    split; [done|]. by rewrite Hlen, swap_perm. }
  assert (∃ l c, Deck.init (mkWorld [] h) = Done (Deck.mk (l ++ [c]), mkWorld [] h))
    as (l & c & Hinit).
  { destruct (Hshuffle (length Deck.fresh - 1) Deck.fresh) as (x' & Hx' & Hlen).
    destruct x' as [|c x'] using rev_ind; [done|].
    exists x', c. unfold Deck.init, shuffle. by rewrite (M_bind_step _ _ _ _ _ Hx'). }
  exists c. induction n as [|n IH]; [done|].
  cbn [GameState.new_cards]. rewrite (M_bind_step _ _ _ _ _ Hinit).
  unfold mbind at 1, M_bind at 1, lift. rewrite draw_card_snoc.
  by rewrite (M_bind_step _ _ _ _ _ IH).
Qed.

(** X18. The cards [legal_moves] adds to the board each come from a deck
    of their own, so they need not differ: for every state with three
    community cards or fewer there are random draws for which the board of
    the call successor holds one card twice. *)
Theorem board_can_repeat_a_card (s : PokerGameState.t) (h : list NodeData.t) :
  length (PokerGameState.community_cards s) ≤ 3 →
  ∃ tape moves w' call,
    GameState.legal_moves s (mkWorld tape h) = Done (moves, w')
    ∧ moves !! 1 = Some call
    ∧ length (PokerGameState.community_cards call) = 5
    ∧ ¬ NoDup (PokerGameState.community_cards call).
Proof.
  intros Hlen. exists [].
  destruct (new_cards_same_deck (5 - length (PokerGameState.community_cards s)) h)
    as (c & Hnew).
  unfold GameState.legal_moves. rewrite bool_decide_eq_true_2 by lia.
  rewrite (M_bind_step _ _ _ _ _ Hnew). eexists _, _, _. split; [done|].
  split; [done|]. simpl. split.
  - rewrite length_app, length_replicate. lia.
  - destruct (5 - length (PokerGameState.community_cards s)) as [|[|k]] eqn:Hk;
      [lia..|].
    simpl. rewrite NoDup_app. intros (_ & _ & Hnd).
    apply NoDup_cons in Hnd as [Hnotin _]. apply Hnotin. left.
Qed.

Lemma board_can_repeat_a_card_witness :
  ∃ tape moves w' call,
    GameState.legal_moves Sample.flop (mkWorld tape []) = Done (moves, w')
    ∧ moves !! 1 = Some call
    ∧ length (PokerGameState.community_cards call) = 5
    ∧ ¬ NoDup (PokerGameState.community_cards call).
Proof. apply (board_can_repeat_a_card Sample.flop []). simpl. lia. Defined.

Lemma draw_cards_short n :
  ∀ l, length l < n → Deck.draw_cards n (Deck.mk l) = Raise IndexError.
Proof.
  induction n as [|n IH]; intros l Hlen; [lia|].
  destruct l as [|c l] using rev_ind; [done|]. clear IHl.
  simpl. rewrite draw_card_snoc. simpl.
  rewrite IH; [done|]. rewrite length_app in Hlen. simpl in Hlen. lia.
Qed.

(** X19. Drawing [n] cards from a deck that has them gives its last [n]
    cards, the last one first, and leaves the others in place; from a deck
    that has fewer, it fails with [IndexError]. *)
Theorem draws_from_the_end (n : nat) (d : Deck.t) :
  (n ≤ length (Deck.cards d) →
   Deck.draw_cards n d =
     Done (reverse (drop (length (Deck.cards d) - n) (Deck.cards d)),
           Deck.mk (take (length (Deck.cards d) - n) (Deck.cards d))))
  ∧ (length (Deck.cards d) < n → Deck.draw_cards n d = Raise IndexError).
Proof.
  destruct d as [l]. simpl. split.
  - intros Hn.
    rewrite <-(take_drop (length l - n) l) at 1.
    replace n with (length (drop (length l - n) l)) at 1
      by (rewrite length_drop; lia).
    apply draw_cards_all.
  - apply draw_cards_short.
Qed.

Lemma draws_from_the_end_witness :
  Deck.draw_cards 2 (Deck.mk Sample.community)
  = Done ([Card.mk R10 Spades; Card.mk RJ Spades], Deck.mk [Card.mk RQ Spades])
  ∧ Deck.draw_cards 4 (Deck.mk Sample.community) = Raise IndexError.
Proof.
  split.
  - apply (proj1 (draws_from_the_end 2 (Deck.mk Sample.community))). simpl. lia.
  - apply (proj2 (draws_from_the_end 4 (Deck.mk Sample.community))). simpl. lia.
Defined.

(** ** The statistics of the search *)

Section tally.
Context `{PyFloat}.
Context (root : ref) (hand0 : list Card.t).

(** Backpropagation adds the outcome once to every node from the one it
    starts at up to the root, and to no other. *)
Lemma backpropagate_tally fuel v t :
  ∀ node h pending t' h',
    tree_inv root hand0 h pending → root ≤ node < length h →
    pending = None ∨ pending = Some node →
    MCTS.backpropagate fuel (Some node) v (mkWorld t h) = Done (tt, mkWorld t' h') →
    ∀ i n, h !! i = Some n →
      ∃ n', h' !! i = Some n'
        ∧ (node < i → n' = n)
        ∧ (n' = n
           ∨ n' = NodeData.mk (NodeData.state n) (NodeData.parent n)
                    (NodeData.children n) (NodeData.wins n + v)
                    (NodeData.visits n + 1))
        ∧ (i = root → NodeData.visits n' = (NodeData.visits n + 1)%Z).
Proof.
  induction fuel as [|fuel IH]; intros node h pending t' h' Hinv [Hnode Hsize]
    Hpending; [done|].
  destruct (lookup_lt_is_Some_2 h node Hsize) as [m Hm].
  cbn [MCTS.backpropagate]. rewrite (M_bind_step _ _ _ _ _ (update_Done _ _ _ t v Hm)).
  set (m' := NodeData.mk _ _ _ _ _).
  assert (<[node:=m']> h !! node = Some m') as Hm' by (by apply list_lookup_insert_eq).
  rewrite (M_bind_step _ _ _ _ _ (get_Done _ _ _ t Hm')).
  pose proof (tree_inv_update root hand0 h pending node m (NodeData.wins m + v)%Z
                Hinv Hnode Hm Hpending) as Hinv'.
  fold m' in Hinv'.
  destruct Hinv as [Hroot Hnodes].
  destruct (Hnodes node m Hnode Hm) as (_ & _ & _ & Hparent & Hnonroot).
  destruct (decide (node = root)) as [->|Hne].
  - simpl. rewrite Hparent by done.
    destruct fuel as [|fuel]; [done|]. simpl. intros [= <- <-] i n Hi.
    destruct (decide (i = root)) as [->|Hir].
    + simplify_eq. exists m'. split_and!; [done|lia|by right|done].
    + exists n. rewrite list_lookup_insert_ne by done. split_and!; [done|done|by left|done].
  - destruct Hnonroot as ((p & Hp & Hprange) & _); [done|].
    simpl. rewrite Hp. intros Hback i n Hi.
    assert (root ≤ p < length (<[node:=m']> h)) as Hpvalid
      by (rewrite length_insert; lia).
    pose proof (IH p (<[node:=m']> h) None t' h' Hinv' Hpvalid (or_introl eq_refl) Hback)
      as Hrest.
    destruct (decide (i = node)) as [->|Hin].
    + simplify_eq. destruct (Hrest node m' Hm') as (n' & Hn' & Hsame & _).
      pose proof (Hsame ltac:(lia)) as ->. exists m'.
      split_and!; [done|lia|by right|done].
    + destruct (Hrest i n) as (n' & Hn' & Hsame & Hstep & Hr);
        [by rewrite list_lookup_insert_ne|].
      exists n'. split_and!; [done|intros; apply Hsame; lia|done|done].
Qed.

(** Expansion leaves the tree as it is or adds one node without a visit. *)
Lemma expand_heap h t node n :
  h !! node = Some n →
  ∃ node' t' h',
    MCTS.expand node (mkWorld t h) = Done (node', mkWorld t' h')
    ∧ (h' = h
       ∨ ∃ s', h' = <[node:=NodeData.mk (NodeData.state n) (NodeData.parent n)
                        (NodeData.children n ++ [length h]) (NodeData.wins n)
                        (NodeData.visits n)]>
                     (h ++ [NodeData.mk s' (Some node) [] 0 0])).
Proof.
  intros Hn.
  destruct (fully_expanded_Done h node n t Hn) as (moves & t1 & Hfe & Hlen).
  unfold MCTS.expand. rewrite (M_bind_step _ _ _ _ _ Hfe).
  case_bool_decide as Hfull; cbn [negb]; [by eexists _, _, _; eauto|].
  rewrite (M_bind_step _ _ _ _ _ (get_Done _ _ _ t1 Hn)).
  destruct (legal_moves_Done (NodeData.state n) (mkWorld t1 h))
    as (moves2 & t2 & Hmoves & Hlen2 & _).
  cbn [heap] in Hmoves. rewrite (M_bind_step _ _ _ _ _ Hmoves).
  destruct (choice_Done moves2 (mkWorld t2 h)) as (s' & t3 & Hchoice & _).
  { intros ->. simpl in Hlen2. lia. }
  cbn [heap] in Hchoice. rewrite (M_bind_step _ _ _ _ _ Hchoice).
  rewrite (add_child_Done _ _ _ _ _ Hn). eexists _, _, _. split; [done|eauto].
Qed.

Lemma tally_expand h h' node n k :
  root < length h → h !! node = Some n → tally_ok root h k →
  h' = h
  ∨ (∃ s', h' = <[node:=NodeData.mk (NodeData.state n) (NodeData.parent n)
                    (NodeData.children n ++ [length h]) (NodeData.wins n)
                    (NodeData.visits n)]>
                 (h ++ [NodeData.mk s' (Some node) [] 0 0])) →
  tally_ok root h' k.
Proof.
  intros Hroot Hn Htally [->|[s' ->]]; [done|].
  destruct Htally as [(r & Hr & Hk) Hall].
  pose proof (lookup_lt_Some _ _ _ Hn) as Hlt. split.
  - destruct (decide (node = root)) as [->|Hne].
    + rewrite list_lookup_insert_eq by (rewrite length_app; simpl; lia).
      simplify_eq. eauto.
    + rewrite list_lookup_insert_ne, lookup_app_l by done. eauto.
  - intros i m Hi. destruct (decide (node = i)) as [<-|Hne].
    + rewrite list_lookup_insert_eq by (rewrite length_app; simpl; lia).
      intros [= <-]. simpl. by apply (Hall node n).
    + rewrite list_lookup_insert_ne by done.
      intros [[_ Hm]|[_ <-]]%lookup_snoc_Some; [by apply (Hall i m)|simpl; lia].
Qed.

Lemma grows_refl h : grows h h.
Proof. intros i n Hn. by exists n. Qed.

Lemma grows_trans h1 h2 h3 : grows h1 h2 → grows h2 h3 → grows h1 h3.
Proof.
  intros H12 H23 i n Hn.
  destruct (H12 i n Hn) as (n2 & Hn2 & Hs2 & Hp2 & Hc2 & Hv2).
  destruct (H23 i n2 Hn2) as (n3 & Hn3 & Hs3 & Hp3 & Hc3 & Hv3).
  exists n3. split_and!; [done|congruence|congruence|by etrans|lia].
Qed.

Lemma grows_expand h h' node n :
  h !! node = Some n →
  h' = h
  ∨ (∃ s', h' = <[node:=NodeData.mk (NodeData.state n) (NodeData.parent n)
                    (NodeData.children n ++ [length h]) (NodeData.wins n)
                    (NodeData.visits n)]>
                 (h ++ [NodeData.mk s' (Some node) [] 0 0])) →
  grows h h'.
Proof.
  intros Hn [->|[s' ->]]; [apply grows_refl|].
  pose proof (lookup_lt_Some _ _ _ Hn) as Hlt. intros i m Hm.
  destruct (decide (node = i)) as [<-|Hne].
  - rewrite list_lookup_insert_eq by (rewrite length_app; simpl; lia).
    simplify_eq. eexists. split; [done|]. simpl.
    split_and!; [done|done|by apply prefix_app_r|done].
  - rewrite list_lookup_insert_ne, lookup_app_l by (done || by eapply lookup_lt_Some).
    by exists m.
Qed.

Lemma simulation_tally fuel h t k t' h' :
  tree_inv root hand0 h None → length h - root + 2 ≤ fuel →
  tally_ok root h k →
  MCTS.simulation fuel root (mkWorld t h) = Done (tt, mkWorld t' h') →
  tally_ok root h' (k + 1) ∧ grows h h'.
Proof.
  intros Hinv Hfuel Htally. unfold MCTS.simulation.
  destruct (select_spec root hand0 fuel h t Hinv) as (node & t1 & Hsel & Hnode & _);
    [lia|].
  rewrite (M_bind_step _ _ _ _ _ Hsel).
  destruct (expand_spec root hand0 h t1 node Hinv Hnode)
    as (node' & t2 & h1 & pending & Hexp & Hinv1 & Hnode' & Hpending & Hlen & _).
  destruct (lookup_lt_is_Some_2 h node (proj2 Hnode)) as [n Hn].
  destruct (expand_heap h t1 node n Hn) as (node'' & t2' & h1' & Hexp' & Hshape).
  rewrite Hexp in Hexp'. injection Hexp' as <- <- <-.
  pose proof (tally_expand h h1 node n k (proj1 Hinv) Hn Htally Hshape) as Htally1.
  pose proof (grows_expand h h1 node n Hn Hshape) as Hgrows1.
  rewrite (M_bind_step _ _ _ _ _ Hexp).
  destruct (lookup_lt_is_Some_2 h1 node' (proj2 Hnode')) as [n' Hn'].
  rewrite (M_bind_step _ _ _ _ _ (get_Done _ _ _ t2 Hn')).
  destruct (rollout_Done fuel (NodeData.state n') (mkWorld t2 h1))
    as (final & moves_made & t3 & Hroll & _); [lia|].
  cbn [heap] in Hroll.
  assert (MCTS.simulate_random_game fuel (NodeData.state n') (mkWorld t2 h1)
          = lift (GameState.game_result final) (mkWorld t3 h1)) as Hsim.
  { unfold MCTS.simulate_random_game. by rewrite (M_bind_step _ _ _ _ _ Hroll). }
  destruct (game_result_outcome final) as [(v & Hv & Hpm)|[_ Hraise]].
  - rewrite Hv in Hsim. rewrite (M_bind_step _ _ _ _ _ Hsim). intros Hback.
    pose proof (backpropagate_tally fuel v t3 node' h1 pending t' h' Hinv1 Hnode'
                  Hpending Hback) as Hstep.
    destruct (backpropagate_spec root hand0 fuel v t3 node' h1 pending Hinv1 Hnode'
                Hpending) as (h2 & Hback' & _ & Hlen' & _); [lia|].
    rewrite Hback in Hback'. injection Hback' as -> ->.
    destruct Htally1 as [(r & Hr & Hk) Hall]. split; [split|].
    + destruct (Hstep root r Hr) as (r' & Hr' & _ & _ & Hvisits).
      exists r'. split; [done|]. rewrite Hvisits by done. lia.
    + intros i m' Hi Hm'.
      destruct (lookup_lt_is_Some_2 h1 i) as [m Hm].
      { rewrite <-Hlen'. by eapply lookup_lt_Some. }
      destruct (Hstep i m Hm) as (m'' & Hm'' & _ & Hchange & _).
      simplify_eq. specialize (Hall i m Hi Hm).
      destruct Hchange as [->| ->]; [done|]. simpl. lia.
    + apply (grows_trans _ h1); [done|]. intros i m Hm.
      destruct (Hstep i m Hm) as (m' & Hm' & _ & Hchange & _).
      exists m'. split; [done|]. destruct Hchange as [->| ->]; [done|]. simpl.
      split_and!; [done..|lia].
  - rewrite Hraise in Hsim. by rewrite (M_bind_raise _ _ _ _ Hsim).
Qed.

Lemma simulations_tally fuel n :
  ∀ h t k t' h',
    tree_inv root hand0 h None → length h - root + 1 + n ≤ fuel →
    tally_ok root h k →
    MCTS.simulations fuel n root (mkWorld t h) = Done (tt, mkWorld t' h') →
    tally_ok root h' (k + Z.of_nat n) ∧ grows h h' ∧ length h' ≤ length h + n.
Proof.
  induction n as [|n IH]; intros h t k t' h' Hinv Hfuel Htally.
  - cbn. intros [= <- <-]. rewrite Z.add_0_r. split_and!; [done|apply grows_refl|lia].
  - cbn [MCTS.simulations].
    destruct (simulation_spec root hand0 fuel h t Hinv)
      as [(t1 & h1 & Hsim & Hinv1 & Hlen & _)|[_ Hsim]]; [lia| |].
    + rewrite (M_bind_step _ _ _ _ _ Hsim). intros Hrest.
      destruct (simulation_tally fuel h t k t1 h1 Hinv ltac:(lia) Htally Hsim)
        as [Htally1 Hgrows1].
      destruct (IH h1 t1 (k + 1)%Z t' h' Hinv1 ltac:(lia) Htally1 Hrest)
        as (Hk & Hg & Hl).
      split_and!; [|by apply (grows_trans _ h1)|lia].
      by replace (k + Z.of_nat (S n))%Z with (k + 1 + Z.of_nat n)%Z by lia.
    + by rewrite (M_bind_raise _ _ _ _ Hsim).
Qed.

End tally.

(** What a run of [choose_move] that returns has gone through. *)
Lemma choose_move_inv `{PyFloat} fuel s t h0 s' w' :
  1002 ≤ fuel →
  MCTS.choose_move fuel s (mkWorld t h0) = Done (s', w') →
  ∃ t' h' n c cn,
    w' = mkWorld t' h'
    ∧ MCTS.simulations fuel 1000 (length h0)
        (mkWorld t (h0 ++ [NodeData.mk s None [] 0 0])) = Done (tt, mkWorld t' h')
    ∧ tree_inv (length h0) (PokerGameState.hand s) h' None
    ∧ h' !! length h0 = Some n
    ∧ c ∈ NodeData.children n
    ∧ h' !! c = Some cn
    ∧ s' = NodeData.state cn.
Proof.
  intros Hfuel. unfold MCTS.choose_move.
  set (h := h0 ++ [NodeData.mk s None [] 0 0]).
  assert (Node.init s None (mkWorld t h0) = Done (length h0, mkWorld t h)) as Hinit
    by done.
  rewrite (M_bind_step _ _ _ _ _ Hinit).
  pose proof (tree_inv_init h0 s) as Hinv. fold h in Hinv.
  destruct (simulations_spec (length h0) (PokerGameState.hand s) fuel 1000 h t Hinv)
    as [(t' & h' & Hsims & Hinv' & Hkids)|[_ Hsims]].
  { unfold h. rewrite length_app. simpl. lia. }
  - rewrite (M_bind_step _ _ _ _ _ Hsims).
    destruct Hkids as (n & Hn & Hkids); [lia|].
    destruct (best_child_root_Done _ _ h' n t' Hinv' Hn Hkids) as (c & Hbest & Hc).
    rewrite (M_bind_step _ _ _ _ _ Hbest).
    destruct (proj2 Hinv' _ n (le_n _) Hn) as (_ & _ & Hchildren & _).
    destruct (lookup_lt_is_Some_2 h' c) as [cn Hcn]; [by apply Hchildren|].
    rewrite (M_bind_step _ _ _ _ _ (get_Done _ _ _ t' Hcn)).
    intros [= <- <-]. by exists t', h', n, c, cn.
  - by rewrite (M_bind_raise _ _ _ _ Hsims).
Qed.

(** The tree of a run of [choose_move] that returns: its statistics, its
    size and the state of its root. *)
Lemma choose_move_tree `{PyFloat} fuel s t h0 t' h' :
  1002 ≤ fuel →
  MCTS.simulations fuel 1000 (length h0)
    (mkWorld t (h0 ++ [NodeData.mk s None [] 0 0])) = Done (tt, mkWorld t' h') →
  tally_ok (length h0) h' 1000
  ∧ length h' ≤ length h0 + 1001
  ∧ ∃ n, h' !! length h0 = Some n ∧ NodeData.state n = s.
Proof.
  intros Hfuel Hsims.
  set (h := h0 ++ [NodeData.mk s None [] 0 0]) in *.
  assert (h !! length h0 = Some (NodeData.mk s None [] 0 0)) as Hroot.
  { unfold h. by rewrite lookup_app_r, Nat.sub_diag by done. }
  assert (length h = S (length h0)) as Hlen
    by (unfold h; rewrite length_app; simpl; lia).
  assert (tally_ok (length h0) h 0) as Htally.
  { split; [by eexists|]. intros i n Hi Hn.
    assert (i = length h0) as -> by (apply lookup_lt_Some in Hn; lia).
    rewrite Hroot in Hn. injection Hn as <-. simpl. lia. }
  destruct (simulations_tally (length h0) (PokerGameState.hand s) fuel 1000 h t 0 t' h'
              (tree_inv_init h0 s) ltac:(lia) Htally Hsims)
    as (Htally' & Hgrows & Hsize).
  split_and!; [done|lia|].
  destruct (Hgrows _ _ Hroot) as (n & Hn & Hstate & _). by exists n.
Qed.

(** ** The exploration term *)

Section exploration.
Context (F : PyFloat).
Context (add mul : @float F → @float F → @float F).
Context (sqrt log : @float F → @float F) (weight : @float F).
Context (root : ref) (hand0 : list Card.t).

Let F' : PyFloat := with_exploration F add mul sqrt log weight.

Lemma M_bind_ext_l {A B} (f : A → M B) (m m' : M A) w :
  m w = m' w → (m ≫= f) w = (m' ≫= f) w.
Proof using Type. intros Hm. unfold mbind, M_bind. by rewrite Hm. Qed.

(** At a node without a parent [best_child] does not touch the
    exploration term. *)
Lemma best_child_exploration h t n :
  h !! root = Some n → NodeData.parent n = None →
  @Node.best_child F' root (mkWorld t h) = @Node.best_child F root (mkWorld t h).
Proof using Type.
  intros Hn Hparent. unfold Node.best_child, Node.best_child_with, Node.deref.
  cbn [heap]. rewrite Hn. simpl. by rewrite Hparent.
Qed.

(** Selection from a terminal node stops there. *)
Lemma select_terminal (G : PyFloat) fuel h t c cn :
  h !! c = Some cn → GameState.is_terminal (NodeData.state cn) = true →
  @MCTS.select G (S fuel) c (mkWorld t h)
  = (_ ← Node.fully_expanded c; mret c) (mkWorld t h).
Proof using Type.
  intros Hcn Hterm. cbn [MCTS.select].
  destruct (fully_expanded_Done h c cn t Hcn) as (moves & t1 & Hfe & _).
  rewrite !(M_bind_step _ _ _ _ _ Hfe).
  case_bool_decide; [|done].
  by rewrite (M_bind_step _ _ _ _ _ (get_Done _ _ _ t1 Hcn)), Hterm.
Qed.

Lemma select_exploration fuel h t :
  tree_inv root hand0 h None →
  @MCTS.select F' fuel root (mkWorld t h) = @MCTS.select F fuel root (mkWorld t h).
Proof using Type.
  intros Hinv. destruct fuel as [|fuel]; [done|].
  pose proof Hinv as [Hroot Hnodes].
  destruct (lookup_lt_is_Some_2 h root Hroot) as [n Hn].
  destruct (fully_expanded_Done h root n t Hn) as (moves & t1 & Hfe & Hlen).
  cbn [MCTS.select]. rewrite !(M_bind_step _ _ _ _ _ Hfe).
  case_bool_decide as Hfull; [|done].
  rewrite !(M_bind_step _ _ _ _ _ (get_Done _ _ _ t1 Hn)).
  destruct (GameState.is_terminal (NodeData.state n)); cbn [negb]; [done|].
  assert (NodeData.children n ≠ []) as Hkids.
  { intros Hnil. rewrite Hnil in Hfull. simpl in Hfull. lia. }
  destruct (Hnodes root n) as (_ & _ & Hchildren & Hparent & _); [done..|].
  destruct (@best_child_root_Done F root hand0 h n t1 Hinv Hn Hkids)
    as (c & Hbest & Hc).
  pose proof (best_child_exploration h t1 n Hn (Hparent eq_refl)) as Hbest'.
  rewrite Hbest in Hbest'.
  rewrite (M_bind_step _ _ _ _ _ Hbest), (M_bind_step _ _ _ _ _ Hbest').
  destruct (Hchildren c Hc) as [Hlt Hsize].
  destruct (lookup_lt_is_Some_2 h c Hsize) as [cn Hcn].
  destruct (Hnodes c cn) as (_ & _ & _ & _ & Hnonroot); [lia|done|].
  destruct Hnonroot as (_ & Hterm & _); [lia|].
  destruct fuel as [|fuel]; [done|].
  by rewrite !(select_terminal _ _ _ _ _ _ Hcn Hterm).
Qed.

Lemma simulations_exploration fuel n :
  ∀ h t,
    tree_inv root hand0 h None → length h - root + 1 + n ≤ fuel →
    @MCTS.simulations F' fuel n root (mkWorld t h)
    = @MCTS.simulations F fuel n root (mkWorld t h).
Proof using Type.
  induction n as [|n IH]; intros h t Hinv Hfuel; [done|].
  cbn [MCTS.simulations].
  assert (@MCTS.simulation F' fuel root (mkWorld t h)
          = @MCTS.simulation F fuel root (mkWorld t h)) as Hsame
    by (by apply M_bind_ext_l, select_exploration).
  destruct (@simulation_spec F root hand0 fuel h t Hinv)
    as [(t1 & h1 & Hsim & Hinv1 & Hlen & _)|[_ Hsim]]; [lia| |].
  - rewrite (M_bind_step _ _ _ _ _ Hsim).
    rewrite <-Hsame in Hsim. rewrite (M_bind_step _ _ _ _ _ Hsim).
    apply IH; [done|lia].
  - rewrite (M_bind_raise _ _ _ _ Hsim).
    rewrite <-Hsame in Hsim. by rewrite (M_bind_raise _ _ _ _ Hsim).
Qed.
End exploration.

Lemma choose_move_Done `{PyFloat} fuel s w :
  1002 ≤ fuel → PokerGameState.hand s ≠ [] →
  ∃ s' w', MCTS.choose_move fuel s w = Done (s', w').
Proof.
  intros Hfuel Hhand. destruct w as [t h0]. unfold MCTS.choose_move.
  set (h := h0 ++ [NodeData.mk s None [] 0 0]).
  assert (Node.init s None (mkWorld t h0) = Done (length h0, mkWorld t h)) as Hinit
    by done.
  rewrite (M_bind_step _ _ _ _ _ Hinit).
  pose proof (tree_inv_init h0 s) as Hinv. fold h in Hinv.
  destruct (simulations_spec (length h0) (PokerGameState.hand s) fuel 1000 h t Hinv)
    as [(t' & h' & Hsims & Hinv' & Hkids)|[Hnil _]]; [| |done].
  { unfold h. rewrite length_app. simpl. lia. }
  rewrite (M_bind_step _ _ _ _ _ Hsims).
  destruct Hkids as (n & Hn & Hkids); [lia|].
  destruct (best_child_root_Done _ _ h' n t' Hinv' Hn Hkids) as (c & Hbest & Hc).
  rewrite (M_bind_step _ _ _ _ _ Hbest).
  destruct (proj2 Hinv' _ n (le_n _) Hn) as (_ & _ & Hchildren & _).
  destruct (lookup_lt_is_Some_2 h' c) as [cn Hcn]; [by apply Hchildren|].
  rewrite (M_bind_step _ _ _ _ _ (get_Done _ _ _ t' Hcn)). by eexists _, _.
Qed.

(** X20. From a state with a hand, [choose_move] returns the state of a
    child of the root: a terminal state that holds the hand it was given.
    This is so for a terminal root too. *)
Theorem choose_move_returns_terminal `{PyFloat} (fuel : nat)
    (s : PokerGameState.t) (w : World) :
  1002 ≤ fuel → PokerGameState.hand s ≠ [] →
  ∃ s' w',
    MCTS.choose_move fuel s w = Done (s', w')
    ∧ GameState.is_terminal s' = true
    ∧ PokerGameState.hand s' = PokerGameState.hand s
    ∧ ∃ root child,
        heap w' !! length (heap w) = Some root
        ∧ NodeData.state root = s
        ∧ child ∈ NodeData.children root
        ∧ NodeData.state <$> heap w' !! child = Some s'.
Proof.
  intros Hfuel Hhand.
  destruct (choose_move_Done fuel s w Hfuel Hhand) as (s' & w' & Hmove).
  exists s', w'. split; [done|]. destruct w as [t h0].
  destruct (choose_move_inv fuel s t h0 s' w' Hfuel Hmove)
    as (t' & h' & n & c & cn & -> & Hsims & Hinv & Hn & Hc & Hcn & ->).
  destruct (choose_move_tree fuel s t h0 t' h' Hfuel Hsims)
    as (_ & _ & n' & Hn' & Hstate).
  simpl in *. simplify_eq. destruct Hinv as [Hroot Hnodes].
  destruct (Hnodes _ n (le_n _) Hn) as (_ & _ & Hchildren & _).
  destruct (Hchildren c Hc) as [Hlt _].
  destruct (Hnodes c cn ltac:(lia) Hcn) as (Hhand' & _ & _ & _ & Hnonroot).
  destruct Hnonroot as (_ & Hterm & _); [lia|].
  split_and!; [done..|]. exists n, c. split_and!; [done..|by rewrite Hcn].
Qed.

Lemma choose_move_returns_terminal_witness :
  ∃ s' w',
    @MCTS.choose_move RealFloat 1002 Sample.showdown (mkWorld [] []) = Done (s', w')
    ∧ GameState.is_terminal s' = true
    ∧ PokerGameState.hand s' = Sample.hole_cards
    ∧ ∃ root child,
        heap w' !! 0 = Some root
        ∧ NodeData.state root = Sample.showdown
        ∧ child ∈ NodeData.children root
        ∧ NodeData.state <$> heap w' !! child = Some s'.
Proof.
  apply (@choose_move_returns_terminal RealFloat 1002 Sample.showdown (mkWorld [] []));
    [lia|discriminate].
Defined.

(** X21. When [choose_move] returns, the root has been visited once for
    each of the 1000 simulations, the tree has at most 1001 nodes, and at
    every node the wins lie between minus the visits and the visits. *)
Theorem choose_move_statistics `{PyFloat} (fuel : nat)
    (s : PokerGameState.t) (w : World) :
  1002 ≤ fuel → PokerGameState.hand s ≠ [] →
  ∃ s' w',
    MCTS.choose_move fuel s w = Done (s', w')
    ∧ (NodeData.visits <$> heap w' !! length (heap w)) = Some 1000%Z
    ∧ length (heap w') ≤ length (heap w) + 1001
    ∧ ∀ i n, length (heap w) ≤ i → heap w' !! i = Some n →
        (- NodeData.visits n ≤ NodeData.wins n ≤ NodeData.visits n)%Z.
Proof.
  intros Hfuel Hhand.
  destruct (choose_move_Done fuel s w Hfuel Hhand) as (s' & w' & Hmove).
  exists s', w'. split; [done|]. destruct w as [t h0].
  destruct (choose_move_inv fuel s t h0 s' w' Hfuel Hmove)
    as (t' & h' & n & c & cn & -> & Hsims & _).
  destruct (choose_move_tree fuel s t h0 t' h' Hfuel Hsims)
    as ([(r & Hr & Hvisits) Hall] & Hsize & _).
  simpl. split_and!; [by rewrite Hr, <-Hvisits|done|done].
Qed.

Lemma choose_move_statistics_witness :
  ∃ s' w',
    @MCTS.choose_move RealFloat 1002 Sample.flop (mkWorld [] []) = Done (s', w')
    ∧ (NodeData.visits <$> heap w' !! 0) = Some 1000%Z
    ∧ length (heap w') ≤ 1001
    ∧ ∀ i n, 0 ≤ i → heap w' !! i = Some n →
        (- NodeData.visits n ≤ NodeData.wins n ≤ NodeData.visits n)%Z.
Proof.
  apply (@choose_move_statistics RealFloat 1002 Sample.flop (mkWorld [] []));
    [lia|discriminate].
Defined.

(** X22. The exploration term of UCB1 plays no part in [choose_move]:
    [best_child] only ever runs at the root, which has no parent, so the
    weight 1.41, the logarithm, the square root, the product and the sum
    can be replaced by anything without a change of the outcome. *)
Theorem exploration_term_unused (F : PyFloat)
    (add mul : @float F → @float F → @float F) (sqrt log : @float F → @float F)
    (weight : @float F) (fuel : nat) (s : PokerGameState.t) (w : World) :
  1002 ≤ fuel →
  @MCTS.choose_move (with_exploration F add mul sqrt log weight) fuel s w
  = @MCTS.choose_move F fuel s w.
Proof.
  intros Hfuel. destruct w as [t h0]. unfold MCTS.choose_move.
  set (h := h0 ++ [NodeData.mk s None [] 0 0]).
  assert (length h - length h0 + 1 + 1000 ≤ fuel) as Hfuel'
    by (unfold h; rewrite length_app; simpl; lia).
  revert Hfuel'. generalize 1000. intros passes Hfuel'.
  assert (Node.init s None (mkWorld t h0) = Done (length h0, mkWorld t h)) as Hinit
    by done.
  rewrite !(M_bind_step _ _ _ _ _ Hinit).
  pose proof (tree_inv_init h0 s) as Hinv. fold h in Hinv.
  pose proof (simulations_exploration F add mul sqrt log weight (length h0)
                (PokerGameState.hand s) fuel passes h t Hinv Hfuel') as Hsame.
  destruct (@simulations_spec F (length h0) (PokerGameState.hand s) fuel passes h t Hinv
              Hfuel') as [(t' & h' & Hsims & Hinv' & _)|[_ Hsims]].
  - rewrite (M_bind_step _ _ _ _ _ Hsims).
    rewrite <-Hsame in Hsims. rewrite (M_bind_step _ _ _ _ _ Hsims).
    apply M_bind_ext_l.
    destruct (lookup_lt_is_Some_2 h' (length h0) (proj1 Hinv')) as [n Hn].
    destruct (proj2 Hinv' _ n (le_n _) Hn) as (_ & _ & _ & Hparent & _).
    by apply (best_child_exploration F add mul sqrt log weight _ h' t' n Hn), Hparent.
  - rewrite (M_bind_raise _ _ _ _ Hsims).
    rewrite <-Hsame in Hsims. by rewrite (M_bind_raise _ _ _ _ Hsims).
Qed.

Lemma exploration_term_unused_witness :
  @MCTS.choose_move
    (with_exploration RealFloat (λ x _, x) (λ _ _, 0%R) (λ x, x) (λ x, x) 0%R)
    1002 Sample.flop (mkWorld [] [])
  = @MCTS.choose_move RealFloat 1002 Sample.flop (mkWorld [] []).
Proof.
  apply (exploration_term_unused RealFloat (λ x _, x) (λ _ _, 0%R) (λ x, x) (λ x, x)
           0%R 1002 Sample.flop (mkWorld [] [])).
  lia.
Defined.

(** ** The prompt *)

(** X23. [player_action] passes over every line that is not an action and
    answers with the first that is: the amount is 0 for a call or a fold
    and the number on the next line for a raise.  It fails only when the
    input ends ([EOFError]) or when the line after a raise is not a number
    ([ValueError]). *)
Theorem player_action_first_valid (input : list Line) :
  match player_action input with
  | Returns (action, amount, rest) =>
      ∃ skipped line,
        Forall (λ l, is_action (lowered l) = false) skipped
        ∧ lowered line = action ∧ is_action action = true
        ∧ (action ≠ "raise"%string ∧ amount = 0%Z
             ∧ input = skipped ++ line :: rest
           ∨ action = "raise"%string
             ∧ ∃ next, number next = Some amount
                 ∧ input = skipped ++ line :: next :: rest)
  | Raises e =>
      (e = EOFError ∧ Forall (λ l, is_action (lowered l) = false) input)
      ∨ (∃ skipped line,
           Forall (λ l, is_action (lowered l) = false) skipped
           ∧ lowered line = "raise"%string
           ∧ (e = EOFError ∧ input = skipped ++ [line]
              ∨ e = Builtin ValueError
                ∧ ∃ next rest, number next = None
                    ∧ input = skipped ++ line :: next :: rest))
  | NoOutcome => False
  end.
Proof.
  induction input as [|line input IH]; [by left|].
  cbn [player_action]. destruct (is_action (lowered line)) eqn:Hvalid.
  - destruct (String.eqb (lowered line) "raise") eqn:Hraise.
    + apply String.eqb_eq in Hraise.
      destruct input as [|next rest].
      { right. exists [], line. split_and!; [done|done|by left]. }
      destruct (number next) as [amount|] eqn:Hnum.
      * exists [], line. split_and!; [done..|]. right. split; [done|by exists next].
      * right. exists [], line. split_and!; [done|done|].
        right. split; [done|]. by exists next, rest.
    + apply String.eqb_neq in Hraise.
      exists [], line. split_and!; [done..|]. by left.
  - destruct (player_action input) as [[[action amount] rest]|e|]; [| |done].
    + destruct IH as (skipped & line' & Hskipped & Hline & Haction & Hshape).
      exists (line :: skipped), line'. split_and!; [by constructor|done..|].
      destruct Hshape as [(? & ? & ->)|(? & next & ? & ->)]; [by left|].
      right. split; [done|]. by exists next.
    + destruct IH as [[-> Hall]|(skipped & line' & Hskipped & Hline & Hshape)].
      { left. split; [done|]. by constructor. }
      right. exists (line :: skipped), line'. split_and!; [by constructor|done|].
      destruct Hshape as [[-> ->]|(-> & next & rest & ? & ->)]; [by left|].
      right. split; [done|]. by exists next, rest.
Qed.

(** A line that is no action, a raise, and a line that is no number. *)
Example player_action_bad_amount :
  player_action [mkLine "check" None; mkLine "raise" None; mkLine "ten" None]
  = Raises (Builtin ValueError).
Proof. reflexivity. Qed.
